(** * Shamir's Secret Sharing over GF(2^8): a shallow embedding of package [sss]

    The development follows the layout of the Go package:
    - [GF256]: the field arithmetic ([mul], [div]) used by the polynomial code;
    - the polynomial engine of polynomial.go ([eval], [generate], [generateRand],
      [generatePolys], [interpolate]);
    - the entry points of sss.go ([Split], [SplitNew], [SplitNewConcur],
      [SplitParallel], [Combine], [CombineParallel]).

    Go bytes are integers in [0, 256) carried by [Z], with the wrap-around of
    byte arithmetic written out; Go ints are [Z]; slices are lists; the share
    map [map[byte][]byte] is a [gmap Z (list Z)]. *)

From Stdlib Require Import ZArith List Lia Permutation.
From stdpp Require Import base numbers option list gmap fin_maps.
Import ListNotations.
Open Scope Z_scope.

(** ** Bytes *)

Definition is_byte (a : Z) : Prop := 0 <= a < 256.

(** [byte(v)]: conversion of an integer to a Go byte. *)
Definition to_byte (v : Z) : Z := v mod 256.

Definition byte_values : list Z := map Z.of_nat (seq 0 256).

Lemma is_byte_values a : is_byte a -> In a byte_values.
Proof.
  intros [H0 H1]. unfold byte_values. apply in_map_iff.
  exists (Z.to_nat a). split; [lia|]. apply in_seq. lia.
Qed.

Lemma byte_values_is_byte a : In a byte_values -> is_byte a.
Proof.
  unfold byte_values. intros H. apply in_map_iff in H as (n & <- & Hn).
  apply in_seq in Hn. unfold is_byte. lia.
Qed.

Lemma to_byte_is_byte v : is_byte (to_byte v).
Proof. unfold is_byte, to_byte. apply Z.mod_pos_bound. lia. Qed.

Lemma to_byte_id a : is_byte a -> to_byte a = a.
Proof. intros H. unfold to_byte. apply Z.mod_small. exact H. Qed.

(** Exhaustive checks over all bytes, by computation. *)
Definition all1 (f : Z -> bool) : bool := forallb f byte_values.
Definition all2 (f : Z -> Z -> bool) : bool := all1 (fun a => all1 (f a)).

Lemma all1_spec f : all1 f = true -> forall a, is_byte a -> f a = true.
Proof.
  intros H a Ha. unfold all1 in H. rewrite forallb_forall in H.
  apply H, is_byte_values, Ha.
Qed.

Lemma all2_spec f :
  all2 f = true -> forall a b, is_byte a -> is_byte b -> f a b = true.
Proof.
  intros H a b Ha Hb. unfold all2 in H.
  apply (all1_spec _ (all1_spec _ H a Ha) b Hb).
Qed.

(** ** The field GF(2^8) *)

Module GF256.

(** Modelled from the spec: gf256.go (the field's [mul] and [div]) is not
    part of the sources.  Section 4.1 defines addition as xor and
    multiplication as a carry-less multiply followed by reduction modulo the
    fixed irreducible polynomial of degree 8; section 9 fixes it to the
    Rijndael polynomial x^8+x^4+x^3+x+1 (283). *)
Definition add (a b : Z) : Z := Z.lxor a b.

Definition clmul_step (a b acc i : Z) : Z :=
  if Z.testbit b i then Z.lxor acc (Z.shiftl a i) else acc.

Definition clmul (a b : Z) : Z :=
  fold_left (clmul_step a b) [0; 1; 2; 3; 4; 5; 6; 7] 0.

Definition modulus : Z := 283.

Definition reduce_step (v i : Z) : Z :=
  if Z.testbit v i then Z.lxor v (Z.shiftl modulus (i - 8)) else v.

Definition reduce (v : Z) : Z :=
  fold_left reduce_step [14; 13; 12; 11; 10; 9; 8] v.

Definition mul (a b : Z) : Z := reduce (clmul a b).

(** Modelled from the spec: [div(a,b) = mul(a, inverse(b))]; zero has no
    inverse and [div(a, 0)] fails loudly, which is [None] here. *)
Definition inverse (b : Z) : option Z :=
  find (fun c => mul b c =? 1) byte_values.

Definition div (a b : Z) : option Z :=
  match inverse b with
  | Some c => Some (mul a c)
  | None => None
  end.

(** Powers of the generator 3 and discrete logarithms, used only to prove
    associativity. *)
Definition exp_table : list Z :=
  Eval vm_compute in
    (fix go (n : nat) (x : Z) : list Z :=
       match n with
       | O => []
       | S n' => x :: go n' (mul x 3)
       end) 255%nat 1.

Definition gexp (i : Z) : Z := nth (Z.to_nat i) exp_table 0.

Definition glog (a : Z) : Z :=
  match find (fun i => gexp i =? a) byte_values with
  | Some i => i
  | None => 0
  end.

Definition log_table : list Z := Eval vm_compute in map glog byte_values.

Definition tlog (a : Z) : Z := nth (Z.to_nat a) log_table 0.

End GF256.

Import GF256.

Arguments mul : simpl never.
Arguments inverse : simpl never.
Arguments byte_values : simpl never.

Example mul_aes_1 : mul 87 131 = 193.
Proof. reflexivity. Qed.

Example div_aes_1 : div 193 131 = Some 87.
Proof. vm_compute. reflexivity. Qed.

Example div_zero : div 5 0 = None.
Proof. vm_compute. reflexivity. Qed.

(** ** Field laws of GF(2^8) *)

Section FieldLaws.

(** Equations between xor-expressions are settled bit by bit. *)
Ltac xor_bits :=
  apply Z.bits_inj'; intros ? _; rewrite ?Z.lxor_spec, ?Z.bits_0;
  repeat match goal with |- context [Z.testbit ?x ?n] => destruct (Z.testbit x n) end;
  reflexivity.

Lemma add_comm a b : add a b = add b a.
Proof. apply Z.lxor_comm. Qed.

Lemma add_assoc a b c : add a (add b c) = add (add a b) c.
Proof. unfold add. symmetry. apply Z.lxor_assoc. Qed.

Lemma add_0_l a : add 0 a = a.
Proof. apply Z.lxor_0_l. Qed.

Lemma add_0_r a : add a 0 = a.
Proof. apply Z.lxor_0_r. Qed.

Lemma add_self a : add a a = 0.
Proof. apply Z.lxor_nilpotent. Qed.

Lemma add_eq_0 a b : add a b = 0 <-> a = b.
Proof. apply Z.lxor_eq_0_iff. Qed.

Lemma add_cancel_r a b : add (add a b) b = a.
Proof. unfold add. rewrite Z.lxor_assoc, Z.lxor_nilpotent. apply Z.lxor_0_r. Qed.

Lemma add_is_byte a b : is_byte a -> is_byte b -> is_byte (add a b).
Proof.
  intros Ha Hb.
  assert (H : all2 (fun a b => (0 <=? add a b) && (add a b <? 256)) = true)
    by (vm_compute; reflexivity).
  pose proof (all2_spec _ H a b Ha Hb) as E.
  apply andb_prop in E as [E1 E2]. unfold is_byte. lia.
Qed.

Lemma mul_is_byte a b : is_byte a -> is_byte b -> is_byte (mul a b).
Proof.
  intros Ha Hb.
  assert (H : all2 (fun a b => (0 <=? mul a b) && (mul a b <? 256)) = true)
    by (vm_compute; reflexivity).
  pose proof (all2_spec _ H a b Ha Hb) as E.
  apply andb_prop in E as [E1 E2]. unfold is_byte. lia.
Qed.

Lemma mul_comm a b : is_byte a -> is_byte b -> mul a b = mul b a.
Proof.
  intros Ha Hb.
  assert (H : all2 (fun a b => mul a b =? mul b a) = true)
    by (vm_compute; reflexivity).
  apply Z.eqb_eq, (all2_spec _ H a b Ha Hb).
Qed.

Lemma mul_1_r a : is_byte a -> mul a 1 = a.
Proof.
  intros Ha.
  assert (H : all1 (fun a => mul a 1 =? a) = true) by (vm_compute; reflexivity).
  apply Z.eqb_eq, (all1_spec _ H a Ha).
Qed.

Lemma mul_1_l a : is_byte a -> mul 1 a = a.
Proof.
  intros Ha.
  assert (H : all1 (fun a => mul 1 a =? a) = true) by (vm_compute; reflexivity).
  apply Z.eqb_eq, (all1_spec _ H a Ha).
Qed.

Lemma mul_0_r a : is_byte a -> mul a 0 = 0.
Proof.
  intros Ha.
  assert (H : all1 (fun a => mul a 0 =? 0) = true) by (vm_compute; reflexivity).
  apply Z.eqb_eq, (all1_spec _ H a Ha).
Qed.

Lemma mul_0_l a : is_byte a -> mul 0 a = 0.
Proof.
  intros Ha.
  assert (H : all1 (fun a => mul 0 a =? 0) = true) by (vm_compute; reflexivity).
  apply Z.eqb_eq, (all1_spec _ H a Ha).
Qed.

Lemma mul_eq_0 a b : is_byte a -> is_byte b -> mul a b = 0 -> a = 0 \/ b = 0.
Proof.
  intros Ha Hb E.
  assert (H : all2 (fun a b => negb (mul a b =? 0) || (a =? 0) || (b =? 0)) = true)
    by (vm_compute; reflexivity).
  pose proof (all2_spec _ H a b Ha Hb) as C. cbv beta in C. rewrite E in C. cbn [orb negb andb Z.eqb] in C.
  apply orb_prop in C as [C|C]; apply Z.eqb_eq in C; auto.
Qed.

(** Multiplication is additive in its second argument: both the carry-less
    product and the reduction are xor-linear, step by step. *)
Lemma clmul_step_add a b c x y i :
  clmul_step a (add b c) (add x y) i = add (clmul_step a b x i) (clmul_step a c y i).
Proof.
  unfold clmul_step, add. rewrite Z.lxor_spec.
  destruct (Z.testbit b i), (Z.testbit c i); simpl; xor_bits.
Qed.

Lemma clmul_fold_add a b c l : forall x y,
  fold_left (clmul_step a (add b c)) l (add x y) =
  add (fold_left (clmul_step a b) l x) (fold_left (clmul_step a c) l y).
Proof.
  induction l as [|i l IH]; intros x y; simpl; [reflexivity|].
  rewrite clmul_step_add. apply IH.
Qed.

Lemma reduce_step_add u v i :
  reduce_step (add u v) i = add (reduce_step u i) (reduce_step v i).
Proof.
  unfold reduce_step, add. rewrite Z.lxor_spec.
  destruct (Z.testbit u i), (Z.testbit v i); simpl; xor_bits.
Qed.

Lemma reduce_fold_add l : forall u v,
  fold_left reduce_step l (add u v) =
  add (fold_left reduce_step l u) (fold_left reduce_step l v).
Proof.
  induction l as [|i l IH]; intros u v; simpl; [reflexivity|].
  rewrite reduce_step_add. apply IH.
Qed.

Lemma mul_add_distr_l a b c : mul a (add b c) = add (mul a b) (mul a c).
Proof.
  unfold mul, reduce, clmul.
  rewrite <- reduce_fold_add, <- clmul_fold_add. reflexivity.
Qed.

Lemma mul_add_distr_r a b c :
  is_byte a -> is_byte b -> is_byte c ->
  mul (add a b) c = add (mul a c) (mul b c).
Proof.
  intros Ha Hb Hc.
  rewrite (mul_comm (add a b) c), (mul_comm a c), (mul_comm b c);
    auto using add_is_byte.
  apply mul_add_distr_l.
Qed.

(** Associativity, through discrete logarithms to the base 3. *)
Lemma mul_log a b :
  is_byte a -> is_byte b -> a <> 0 -> b <> 0 ->
  mul a b = gexp ((tlog a + tlog b) mod 255).
Proof.
  intros Ha Hb Na Nb.
  assert (H : all2 (fun a b => (a =? 0) || (b =? 0) ||
                     (mul a b =? gexp ((tlog a + tlog b) mod 255))) = true)
    by (vm_compute; reflexivity).
  pose proof (all2_spec _ H a b Ha Hb) as C. cbv beta in C.
  apply Z.eqb_neq in Na, Nb. rewrite Na, Nb in C. cbn [orb negb andb Z.eqb] in C.
  apply Z.eqb_eq, C.
Qed.

Lemma tlog_gexp i :
  0 <= i < 255 -> tlog (gexp i) = i /\ gexp i <> 0 /\ is_byte (gexp i).
Proof.
  intros Hi.
  assert (H : all1 (fun i => negb (i <? 255) ||
       ((tlog (gexp i) =? i) && negb (gexp i =? 0) &&
        (0 <=? gexp i) && (gexp i <? 256))) = true)
    by (vm_compute; reflexivity).
  assert (Bi : is_byte i) by (unfold is_byte; lia).
  pose proof (all1_spec _ H i Bi) as C. cbv beta in C.
  destruct (Z.ltb_spec i 255); [|lia]. cbn [orb negb andb Z.eqb] in C.
  apply andb_prop in C as [C C4]. apply andb_prop in C as [C C3].
  apply andb_prop in C as [C1 C2].
  apply Z.eqb_eq in C1. apply negb_true_iff, Z.eqb_neq in C2.
  apply Z.leb_le in C3. apply Z.ltb_lt in C4.
  unfold is_byte. auto.
Qed.

Lemma mul_assoc a b c :
  is_byte a -> is_byte b -> is_byte c ->
  mul a (mul b c) = mul (mul a b) c.
Proof.
  intros Ha Hb Hc.
  destruct (Z.eq_dec a 0) as [->|Na].
  { rewrite !mul_0_l; auto using mul_is_byte. }
  destruct (Z.eq_dec b 0) as [->|Nb].
  { rewrite mul_0_l, !mul_0_r, mul_0_l; auto. }
  destruct (Z.eq_dec c 0) as [->|Nc].
  { rewrite !mul_0_r; auto using mul_is_byte. }
  assert (R : forall s, 0 <= s mod 255 < 255) by (intros; apply Z.mod_pos_bound; lia).
  rewrite (mul_log b c), (mul_log a b) by assumption.
  destruct (tlog_gexp _ (R (tlog b + tlog c))) as (L1 & N1 & B1).
  destruct (tlog_gexp _ (R (tlog a + tlog b))) as (L2 & N2 & B2).
  rewrite !mul_log by assumption. rewrite L1, L2.
  f_equal. rewrite Z.add_mod_idemp_r, Z.add_mod_idemp_l by lia.
  f_equal. lia.
Qed.

Lemma inverse_spec b :
  is_byte b -> b <> 0 ->
  exists c, inverse b = Some c /\ is_byte c /\ c <> 0 /\ mul b c = 1.
Proof.
  intros Hb Nb. unfold inverse.
  assert (H : all1 (fun b => (b =? 0) ||
      match find (fun c => mul b c =? 1) byte_values with
      | Some _ => true | None => false end) = true)
    by (vm_compute; reflexivity).
  pose proof (all1_spec _ H b Hb) as C. cbv beta in C.
  apply Z.eqb_neq in Nb. rewrite Nb in C. cbn [orb negb andb Z.eqb] in C.
  destruct (find _ byte_values) as [c|] eqn:F; [|discriminate].
  apply find_some in F as [In1 E]. apply Z.eqb_eq in E.
  exists c. split; [reflexivity|]. split; [auto using byte_values_is_byte|].
  split; [|exact E].
  intros ->. rewrite mul_0_r in E by assumption. discriminate.
Qed.

Lemma inverse_zero : inverse 0 = None.
Proof. vm_compute. reflexivity. Qed.

Lemma div_spec a b :
  is_byte a -> is_byte b -> b <> 0 ->
  exists q, div a b = Some q /\ is_byte q /\ mul q b = a.
Proof.
  intros Ha Hb Nb. destruct (inverse_spec b Hb Nb) as (c & E & Bc & Nc & M).
  exists (mul a c). unfold div. rewrite E.
  split; [reflexivity|]. split; [auto using mul_is_byte|].
  rewrite <- mul_assoc, (mul_comm c b), M, mul_1_r; auto.
Qed.

Lemma div_zero_divisor a : div a 0 = None.
Proof. unfold div. rewrite inverse_zero. reflexivity. Qed.

End FieldLaws.

(** From here on the field operations are used through their laws only. *)
#[global] Opaque mul inverse.

(** ** Execution model

    A call either returns, panics (index or slice bounds out of range,
    division by zero), or is still running when the fuel given to its
    loops is used up. *)

Inductive exec (A : Type) : Type :=
  | Done (a : A)
  | Panic
  | Spin.
Arguments Done {A} a.
Arguments Panic {A}.
Arguments Spin {A}.

Definition exec_bind {A B} (c : exec A) (k : A -> exec B) : exec B :=
  match c with
  | Done a => k a
  | Panic => Panic
  | Spin => Spin
  end.

Definition of_option {A} (o : option A) : exec A :=
  match o with
  | Some a => Done a
  | None => Panic
  end.

Notation "'let*' x ':=' c 'in' k" := (exec_bind c (fun x => k))
  (at level 10, x pattern, c at level 100, k at level 200).

(** Go slices: [l[i]], [l[i] = v], [l[lo:hi]] and [make([]T, n)], with the
    run-time bounds checks.  A slice is the list of its elements; indexing
    is checked against the length. *)
Definition index {A} (l : list A) (i : Z) : option A :=
  if i <? 0 then None else l !! Z.to_nat i.

Definition store {A} (l : list A) (i : Z) (v : A) : option (list A) :=
  if (0 <=? i) && (i <? Z.of_nat (length l))
  then Some (<[Z.to_nat i := v]> l)
  else None.

(** A slice expression [l[lo:hi]] on a slice is checked against the
    capacity, not the length: it can reach the elements of the backing array
    that lie after the slice.  [spare] lists these elements; it is empty for
    the result of [make([]T, n)], whose capacity is its length. *)
Definition slice {A} (l spare : list A) (lo hi : Z) : option (list A) :=
  if (0 <=? lo) && (lo <=? hi) && (hi <=? Z.of_nat (length (l ++ spare)))
  then Some (take (Z.to_nat (hi - lo)) (drop (Z.to_nat lo) (l ++ spare)))
  else None.

Definition make {A} (zero : A) (n : Z) : option (list A) :=
  if n <? 0 then None else Some (replicate (Z.to_nat n) zero).

Definition len {A} (l : list A) : Z := Z.of_nat (length l).

(** [for x := byte(lo); x <= n; x++ { body }] over a byte counter: after
    [x = 255] the increment wraps to 0. *)
Fixpoint for_byte_le {S} (fuel : nat) (x n : Z) (body : Z -> S -> exec S) (s : S)
  : exec S :=
  match fuel with
  | O => Spin
  | Datatypes.S fuel' =>
      if x <=? n
      then let* s' := body x s in for_byte_le fuel' (to_byte (x + 1)) n body s'
      else Done s
  end.

(** [for i := lo; i < hi; i++ { body }]: the counter cannot wrap below its
    bound, so the loop runs [hi - lo] times (none when [hi <= lo]). *)
Fixpoint iter_from {S} (count : nat) (i : Z) (body : Z -> S -> exec S) (s : S)
  : exec S :=
  match count with
  | O => Done s
  | Datatypes.S count' => let* s' := body i s in iter_from count' (i + 1) body s'
  end.

Definition for_lt {S} (lo hi : Z) (body : Z -> S -> exec S) (s : S) : exec S :=
  iter_from (Z.to_nat (hi - lo)) lo body s.

(** ** Errors and the random source *)

Inductive io_error : Type :=
  | EOF
  | ErrUnexpectedEOF
  | ErrDevice (code : Z).

Inductive error : Type :=
  | ErrInvalidCount
  | ErrInvalidThreshold
  | ErrRead (e : io_error).

(** An [io.Reader] is the sequence of outcomes of its future one-byte reads;
    once the sequence is used up every read reports [EOF]. *)
Inductive read_event : Type :=
  | Byte (b : Z)
  | Fault (e : io_error).

Definition reader : Type := list read_event.

(** [io.ReadFull(ran, buf)] for a buffer of [n] bytes: the bytes read, or the
    error that stopped the read ([EOF] after some bytes were read becomes
    [ErrUnexpectedEOF]); a zero-length buffer reads nothing. *)
Fixpoint ReadFull_from (got n : nat) (ran : reader) : (list Z + io_error) * reader :=
  match n with
  | O => (inl [], ran)
  | Datatypes.S n' =>
      match ran with
      | [] => (inr match got with O => EOF | _ => ErrUnexpectedEOF end, [])
      | Byte b :: ran' =>
          match ReadFull_from (Datatypes.S got) n' ran' with
          | (inl bs, ran'') => (inl (b :: bs), ran'')
          | (inr e, ran'') => (inr e, ran'')
          end
      | Fault e :: ran' =>
          (inr match e, got with
               | EOF, Datatypes.S _ => ErrUnexpectedEOF
               | _, _ => e
               end, ran')
      end
  end.

Definition ReadFull (n : Z) (ran : reader) : (list Z + io_error) * reader :=
  ReadFull_from 0 (Z.to_nat n) ran.

(** A Go result [(T, error)]. *)
Inductive goret (A : Type) : Type :=
  | Ok (a : A)
  | Err (e : error).
Arguments Ok {A} a.
Arguments Err {A} e.

(** Computations that draw from the random source thread the reader. *)
Definition M (A : Type) : Type := reader -> exec (A * reader).

Definition ret {A} (a : A) : M A := fun ran => Done (a, ran).

Definition bind {A B} (c : M A) (k : A -> M B) : M B :=
  fun ran =>
    match c ran with
    | Done (a, ran') => k a ran'
    | Panic => Panic
    | Spin => Spin
    end.

Definition lift {A} (c : exec A) : M A :=
  fun ran =>
    match c with
    | Done a => Done (a, ran)
    | Panic => Panic
    | Spin => Spin
    end.

Definition read_full (n : Z) : M (list Z + io_error) :=
  fun ran => Done (ReadFull n ran).

Notation "x <- c ;; k" := (bind c (fun x => k))
  (at level 62, c at next level, right associativity).

(** ** polynomial.go *)

(** [eval]: Horner's scheme, [i] running from 1 to [len(p)]. *)
Definition eval (p : list Z) (x : Z) : Z :=
  fold_left (fun result i => add (mul result x) (nth (length p - i) p 0))
            (seq 1 (length p)) 0.

(** [eval] instrumented with the number of calls to [mul]. *)
Definition eval_cost (p : list Z) (x : Z) : Z * nat :=
  fold_left (fun '(result, muls) i =>
               (add (mul result x) (nth (length p - i) p 0), Datatypes.S muls))
            (seq 1 (length p)) (0, O).

(** The rejection loop of [generate] for the leading coefficient. *)
Fixpoint generate_lead (fuel : nat) (degree : Z) (result : list Z)
  : M (goret (list Z)) :=
  match fuel with
  | O => fun _ => Spin
  | Datatypes.S fuel' =>
      rd <- read_full 1 ;;
      match rd with
      | inr e => ret (Err (ErrRead e))
      | inl buf =>
          b <- lift (of_option (index buf 0)) ;;
          if negb (b =? 0)
          then result' <- lift (of_option (store result degree b)) ;;
               ret (Ok result')
          else generate_lead fuel' degree result
      end
  end.

Definition generate (fuel : nat) (degree x : Z) : M (goret (list Z)) :=
  result <- lift (of_option (make 0 (to_byte (degree + 1)))) ;;
  result <- lift (of_option (store result 0 x)) ;;
  rd <- read_full (to_byte (degree - 1)) ;;
  match rd with
  | inr e => ret (Err (ErrRead e))
  | inl buf =>
      result <- lift (for_lt 1 degree
                  (fun i result =>
                     let* v := of_option (index buf (to_byte (i - 1))) in
                     of_option (store result i v)) result) ;;
      generate_lead fuel degree result
  end.

(** The rejection loop of [generateRand] for the last slot of a row. *)
Fixpoint generateRand_lead (fuel : nat) (nextDegree : Z) (result : list Z)
  : M (goret (list Z)) :=
  match fuel with
  | O => fun _ => Spin
  | Datatypes.S fuel' =>
      v <- lift (of_option (index result nextDegree)) ;;
      if negb (v =? 0)
      then ret (Ok result)
      else
        _ <- lift (of_option (slice result [] nextDegree (nextDegree + 1))) ;;
        rd <- read_full 1 ;;
        match rd with
        | inr e => ret (Err (ErrRead e))
        | inl buf =>
            b <- lift (of_option (index buf 0)) ;;
            result' <- lift (of_option (store result nextDegree b)) ;;
            generateRand_lead fuel' nextDegree result'
        end
  end.

Fixpoint generateRand_rows (fuel : nat) (k degree : Z) (secret : list Z)
    (start : Z) (result : list Z) : M (goret (list Z)) :=
  match secret with
  | [] => ret (Ok result)
  | b :: secret' =>
      result <- lift (of_option (store result start b)) ;;
      r <- generateRand_lead fuel (start + degree) result ;;
      match r with
      | Err e => ret (Err e)
      | Ok result => generateRand_rows fuel k degree secret' (start + k) result
      end
  end.

Definition generateRand (fuel : nat) (k : Z) (secret : list Z) : M (goret (list Z)) :=
  let degree := to_byte (k - 1) in
  rd <- read_full (k * len secret) ;;
  match rd with
  | inr e => ret (Err (ErrRead e))
  | inl result => generateRand_rows fuel k degree secret 0 result
  end.

(** [generatePolys]: the rows are allocated under a byte counter bounded by
    [byte(len(x))], the batch read fills slots 1..degree of every row through
    the byte-typed index [byte(i)*degree+j-1], and the last loop redraws each
    row's leading coefficient; a failed read there takes the [i--; continue]
    branch, which leaves [i] unchanged. *)
Fixpoint generatePolys_lead (fuel : nat) (i : Z) (degree : Z) (x : list Z)
    (results : list (list Z)) : M (goret (list (list Z))) :=
  match fuel with
  | O => fun _ => Spin
  | Datatypes.S fuel' =>
      if i <? len x
      then
        rd <- read_full 1 ;;
        match rd with
        | inr _ => generatePolys_lead fuel' (i - 1 + 1) degree x results
        | inl buf =>
            b <- lift (of_option (index buf 0)) ;;
            if negb (b =? 0)
            then
              row <- lift (of_option (index results i)) ;;
              row' <- lift (of_option (store row degree b)) ;;
              results' <- lift (of_option (store results i row')) ;;
              generatePolys_lead fuel' (i + 1) degree x results'
            else generatePolys_lead fuel' (i - 1 + 1) degree x results
        end
      else ret (Ok results)
  end.

Definition generatePolys (fuel : nat) (degree : Z) (x : list Z)
  : M (goret (list (list Z))) :=
  results <- lift (of_option (make ([] : list Z) (len x))) ;;
  results <- lift (for_lt 0 (to_byte (len x))
                (fun i results =>
                   let* row := of_option (make 0 (to_byte (degree + 1))) in
                   let* xi := of_option (index x i) in
                   let* row' := of_option (store row 0 xi) in
                   of_option (store results i row')) results) ;;
  rd <- read_full (degree * len x) ;;
  match rd with
  | inr e => ret (Err (ErrRead e))
  | inl buf =>
      results <- lift (for_lt 0 (len x)
                    (fun i results =>
                       for_byte_le fuel 1 degree
                         (fun j results =>
                            let* v := of_option
                              (index buf (to_byte (to_byte i * degree + j - 1))) in
                            let* row := of_option (index results i) in
                            let* row' := of_option (store row j v) in
                            of_option (store results i row')) results) results) ;;
      generatePolys_lead fuel 0 degree x results
  end.

(** An input/output pair ([pair] in the source). *)
Record xy : Type := mkxy { px : Z; py : Z }.

(** [interpolate]: Lagrange interpolation.  The inner loop skips the point
    with the same index as the outer one. *)
Fixpoint interpolate_weight (x : Z) (a : xy) (i j : nat) (points : list xy)
    (weight : Z) : option Z :=
  match points with
  | [] => Some weight
  | b :: points' =>
      if negb (i =? j)%nat
      then
        let top := add x (px b) in
        let bottom := add (px a) (px b) in
        match div top bottom with
        | None => None
        | Some factor =>
            interpolate_weight x a i (Datatypes.S j) points' (mul weight factor)
        end
      else interpolate_weight x a i (Datatypes.S j) points' weight
  end.

Fixpoint interpolate_loop (x : Z) (points : list xy) (i : nat) (todo : list xy)
    (value : Z) : option Z :=
  match todo with
  | [] => Some value
  | a :: todo' =>
      match interpolate_weight x a i 0 points 1 with
      | None => None
      | Some weight =>
          interpolate_loop x points (Datatypes.S i) todo' (add value (mul weight (py a)))
      end
  end.

Definition interpolate (points : list xy) (x : Z) : option Z :=
  interpolate_loop x points 0 points 0.

(** ** sss.go *)

Abbreviation shares_map := (gmap Z (list Z)).

(** What a split returns: the share map ([None] is Go's [nil]) and the error. *)
Definition split_ret : Type := option shares_map * option error.

(** [shares[x] = append(shares[x], eval(p, x))]; a missing key reads as nil. *)
Definition append_share (p : list Z) (x : Z) (shares : shares_map) : exec shares_map :=
  Done (<[x := default [] (shares !! x) ++ [eval p x]]> shares).

Fixpoint Split_loop (fuel : nat) (n k : Z) (secret : list Z) (shares : shares_map)
  : M split_ret :=
  match secret with
  | [] => ret (Some shares, None)
  | b :: secret' =>
      g <- generate fuel (to_byte (k - 1)) b ;;
      match g with
      | Err e => ret (None, Some e)
      | Ok p =>
          shares' <- lift (for_byte_le fuel 1 n (append_share p) shares) ;;
          Split_loop fuel n k secret' shares'
      end
  end.

Definition Split (fuel : nat) (n k : Z) (secret : list Z) : M split_ret :=
  if k <=? 1 then ret (None, Some ErrInvalidThreshold)
  else if n <? k then ret (None, Some ErrInvalidCount)
  else Split_loop fuel n k secret ∅.

(** [Compute]: one share from the row-major coefficient buffer.  [Compute]
    is exported, so [p] can be a slice with spare capacity, which the rows
    [p[next:next+k]] can reach: [spare] lists the bytes of the backing array
    after [p]. *)
Definition Compute (lenSecret k nIndex : Z) (p spare : list Z) : exec (list Z) :=
  let* share := of_option (make 0 lenSecret) in
  for_lt 0 lenSecret
    (fun i share =>
       let next := i * k in
       let* row := of_option (slice p spare next (next + k)) in
       of_option (store share i (eval row nIndex))) share.

Definition SplitNew (fuel : nat) (n k : Z) (secret : list Z) : M split_ret :=
  if k <=? 1 then ret (None, Some ErrInvalidThreshold)
  else if n <? k then ret (None, Some ErrInvalidCount)
  else
    g <- generateRand fuel k secret ;;
    match g with
    | Err e => ret (None, Some e)
    | Ok p =>
        shares <- lift (for_byte_le fuel 1 n
                     (fun x shares =>
                        let* share := Compute (len secret) k x p [] in
                        Done (<[x := share]> shares)) (∅ : shares_map)) ;;
        ret (Some shares, None)
    end.

(** Channels.  Only the length of a channel slice is observable here: the
    worker behind [sendChan[j]] is live and answers on [resultChan[j]]
    ([RunParallel]), and every [send[c]] is served by a live
    [SplitParallelLoop]. *)
Definition chan : Type := nat.

Record Comp : Type := mkComp { lenSecret : Z; Comp_k : Z; Comp_x : Z; Comp_p : list Z }.

(** [RunParallel]: the answer to one message. *)
Definition RunParallel (m : Comp) : exec (list Z) :=
  Compute (lenSecret m) (Comp_k m) (Comp_x m) (Comp_p m) [].

Definition SplitNewConcur (fuel : nat) (n k : Z) (secret : list Z)
    (sendChan resultChan : list chan) : M split_ret :=
  if k <=? 1 then ret (None, Some ErrInvalidThreshold)
  else if n <? k then ret (None, Some ErrInvalidCount)
  else
    g <- generateRand fuel k secret ;;
    match g with
    | Err e => ret (None, Some e)
    | Ok p =>
        sent <- lift (for_byte_le fuel 1 n
                  (fun x (sent : list (Z * Comp)) =>
                     let* _ := of_option (index sendChan (to_byte (x - 1))) in
                     Done (sent ++ [(to_byte (x - 1), mkComp (len secret) k x p)]))
                  []) ;;
        shares <- lift (for_byte_le fuel 1 n
                    (fun x (shares : shares_map) =>
                       let* _ := of_option (index resultChan (to_byte (x - 1))) in
                       match find (fun jm => fst jm =? to_byte (x - 1)) sent with
                       | None => Spin
                       | Some (_, m) =>
                           let* share := RunParallel m in
                           Done (<[x := share]> shares)
                       end) ∅) ;;
        ret (Some shares, None)
    end.

Record Result : Type := mkResult { Shares : list (list Z); Index : Z; Result_N : Z }.

Record Input : Type :=
  mkInput { Polys : list (list Z); Secrets : list Z; Input_N : Z; Start : Z; End_ : Z }.

(** The order in which concurrent answers reach a shared channel is any
    permutation of them. *)
Record shuffle (A : Type) : Type :=
  mkShuffle { permute : list A -> list A;
              permute_perm : forall l, permute l ≡ₚ l }.
Arguments permute {A} _ _.
Arguments permute_perm {A} _ _.

Fixpoint exec_mapM {A B} (f : A -> exec B) (l : list A) : exec (list B) :=
  match l with
  | [] => Done []
  | a :: l' => let* b := f a in let* bs := exec_mapM f l' in Done (b :: bs)
  end.

(** [SplitParallelLoop]: the answer to one unit of work. *)
Definition SplitParallelLoop (fuel : nat) (m : Input) : exec Result :=
  let* shares := of_option (make ([] : list Z) (len (Secrets m))) in
  let* shares :=
    for_lt 0 (len (Secrets m))
      (fun i shares =>
         let* row := of_option (make 0 (Input_N m)) in
         let* row := for_byte_le fuel 1 (Input_N m)
                       (fun x row =>
                          let* p := of_option (index (Polys m) i) in
                          of_option (store row (x - 1) (eval p x))) row in
         of_option (store shares i row)) shares in
  Done (mkResult shares (Start m) (len (Secrets m))).

(** The dispatch loop of [SplitParallel].  [p] comes from [make] and the
    bounds used on [secret] do not exceed its length, so no slice expression
    here reaches spare capacity. *)
Fixpoint SplitParallel_dispatch (fuel : nat) (i count cpus n : Z)
    (p : list (list Z)) (secret : list Z) (send : list chan) (sent : list Input)
  : exec (list Input) :=
  match fuel with
  | O => Spin
  | Datatypes.S fuel' =>
      if i <? len secret
      then
        let* m :=
          if i + cpus >=? len secret
          then
            let* _ := of_option (index send count) in
            let* polys := of_option (slice p [] i (len p)) in
            let* secs := of_option (slice secret [] i (len secret)) in
            Done (mkInput polys secs n i (len secret - 1))
          else
            let* _ := of_option (index send count) in
            let* polys := of_option (slice p [] i (i + cpus)) in
            let* secs := of_option (slice secret [] i (i + cpus)) in
            Done (mkInput polys secs n i (i + cpus - 1)) in
        SplitParallel_dispatch fuel' (i + cpus) (count + 1) cpus n p secret send
                               (sent ++ [m])
      else Done sent
  end.

Fixpoint SplitParallel_collect (fuel : nat) (n : Z) (arrived : list Result)
    (shares : shares_map) : exec shares_map :=
  match arrived with
  | [] => Done shares
  | res :: arrived' =>
      let* shares' :=
        for_byte_le fuel 1 n
          (fun j shares =>
             for_lt 0 (Result_N res)
               (fun i (shares : shares_map) =>
                  let* src := of_option (index (Shares res) i) in
                  let* v := of_option (index src (j - 1)) in
                  let* row := of_option (store (default [] (shares !! j)) (i + Index res) v) in
                  Done (<[j := row]> shares)) shares) shares in
      SplitParallel_collect fuel n arrived' shares'
  end.

(** [SplitParallel].  The workers run as soon as their input is sent, and a
    panic in a worker ends the program whatever the caller is doing: their
    answers are computed before the caller's next loop, and reach the
    caller in the order [ret_order]. *)
Definition SplitParallel (fuel : nat) (n k : Z) (secret : list Z)
    (send : list chan) (ret_order : shuffle Result) (cpus : Z) : M split_ret :=
  if k <=? 1 then ret (None, Some ErrInvalidThreshold)
  else if n <? k then ret (None, Some ErrInvalidCount)
  else
    g <- generatePolys fuel (to_byte (k - 1)) secret ;;
    match g with
    | Err e => ret (None, Some e)
    | Ok p =>
        sent <- lift (SplitParallel_dispatch fuel 0 0 cpus n p secret send []) ;;
        results <- lift (exec_mapM (SplitParallelLoop fuel) sent) ;;
        shares <- lift (for_byte_le fuel 1 n
                    (fun i (shares : shares_map) =>
                       let* row := of_option (make 0 (len secret)) in
                       Done (<[i := row]> shares)) ∅) ;;
        shares <- lift (SplitParallel_collect fuel n (permute ret_order results) shares) ;;
        ret (Some shares, None)
    end.

(** Go enumerates a map in an unspecified order, possibly a different one at
    every [range] statement: [visit t] is the order of the [t]-th one. *)
Record map_order : Type :=
  mkOrder { visit : nat -> list (Z * list Z) -> list (Z * list Z);
            visit_perm : forall t l, visit t l ≡ₚ l }.

Definition range_map (ord : map_order) (t : nat) (shares : shares_map)
  : list (Z * list Z) :=
  visit ord t (map_to_list shares).

Definition Combine (ord : map_order) (shares : shares_map) : exec (list Z) :=
  let secret :=
    match range_map ord 0 shares with
    | [] => []
    | (_, v) :: _ => replicate (length v) 0
    end in
  for_lt 0 (len secret)
    (fun i secret =>
       let* points := exec_mapM
                        (fun kv => let* y := of_option (index (snd kv) i) in
                                   Done (mkxy (fst kv) y))
                        (range_map ord (Datatypes.S (Z.to_nat i)) shares) in
       let* value := of_option (interpolate points 0) in
       of_option (store secret i value)) secret.

Record Data : Type := mkData { Secret : list Z; Data_Index : Z }.

Definition CombineConcur (shares : list (list Z)) (index_ : Z) (indices : list Z)
  : exec Data :=
  let* secret := of_option (make 0 (len shares)) in
  let* secret :=
    for_lt 0 (len secret)
      (fun i secret =>
         let* row := of_option (index shares i) in
         let* points0 := of_option (make (mkxy 0 0) (len row)) in
         let* points :=
           for_lt 0 (len row)
             (fun j points =>
                let* ix := of_option (index indices j) in
                let* y := of_option (index row j) in
                of_option (store points j (mkxy (to_byte ix) y))) points0 in
         let* value := of_option (interpolate points 0) in
         of_option (store secret i value)) secret in
  Done (mkData secret index_).

Fixpoint CombineParallel_dispatch (fuel : nat) (i cpus : Z) (secret : list Z)
    (newShares : list (list Z)) (indices : list Z) (started : list Data)
  : exec (list Data) :=
  match fuel with
  | O => Spin
  | Datatypes.S fuel' =>
      if i <? len secret
      then
        let* share :=
          if i + cpus >=? len secret
          then of_option (make ([] : list Z) (len secret - i))
          else of_option (make ([] : list Z) cpus) in
        let* share :=
          for_lt 0 (len share)
            (fun j share =>
               let* row := of_option (make 0 (len newShares)) in
               let* row :=
                 for_lt 0 (len newShares)
                   (fun k row =>
                      let* src := of_option (index newShares k) in
                      let* v := of_option (index src (i + j)) in
                      of_option (store row k v)) row in
               of_option (store share j row)) share in
        let* d := CombineConcur share i indices in
        CombineParallel_dispatch fuel' (i + cpus) cpus secret newShares indices
                                 (started ++ [d])
      else Done started
  end.

Fixpoint CombineParallel_collect (arrived : list Data) (secret : list Z)
  : exec (list Z) :=
  match arrived with
  | [] => Done secret
  | res :: arrived' =>
      let* secret' :=
        for_lt 0 (len (Secret res))
          (fun i secret =>
             let* v := of_option (index (Secret res) i) in
             of_option (store secret (i + Data_Index res) v)) secret in
      CombineParallel_collect arrived' secret'
  end.

(** [CombineParallel], on a machine with [NumCPU] logical CPUs. *)
Definition CombineParallel (fuel : nat) (NumCPU : Z) (ord : map_order)
    (ret_order : shuffle Data) (shares : shares_map) : exec (list Z) :=
  let entries := range_map ord 0 shares in
  let newShares := map snd entries in
  let indices := map fst entries in
  let secret :=
    match range_map ord 1 shares with
    | [] => replicate (size shares) 0
    | (_, v) :: _ => replicate (length v) 0
    end in
  let cpus := NumCPU + 10 in
  let* started := CombineParallel_dispatch fuel 0 cpus secret newShares indices [] in
  CombineParallel_collect (permute ret_order started) secret.

(** Two enumeration orders and an arrival order used in the examples. *)
Definition id_order : map_order :=
  mkOrder (fun _ l => l) (fun _ l => Permutation_refl l).

Definition rev_order : map_order :=
  mkOrder (fun _ l => rev l) (fun _ l => Permutation_sym (Permutation_rev l)).

Definition id_shuffle {A} : shuffle A :=
  mkShuffle A (fun l => l) (fun l => Permutation_refl l).

Definition rev_shuffle {A} : shuffle A :=
  mkShuffle A (fun l => rev l) (fun l => Permutation_sym (Permutation_rev l)).

(** A random stream and the shares [Split 3 2] draws from it for the secret
    [42; 43]. *)
Definition demo_stream : reader :=
  map Byte [7; 0; 9; 200; 13; 0; 0; 5; 77; 1; 2; 3].

Definition demo_shares : shares_map :=
  list_to_map [(1, [45; 34]); (2, [36; 57]); (3, [35; 48])].

(** Two shares of unequal length. *)
Definition uneven_shares : shares_map := list_to_map [(1, [1; 2]); (2, [3])].

(** * Verification *)

(** ** Byte-valued data *)

Definition bytes (l : list Z) : Prop := Forall is_byte l.

Lemma is_byte_0 : is_byte 0.
Proof. unfold is_byte. lia. Qed.

Lemma is_byte_1 : is_byte 1.
Proof. unfold is_byte. lia. Qed.

Create HintDb gf discriminated.
#[local] Hint Resolve is_byte_0 is_byte_1 add_is_byte mul_is_byte to_byte_is_byte : gf.
#[local] Hint Extern 1 (is_byte _) => assumption : gf.

Ltac gf := auto 8 with gf.

(** ** Sums, products and powers in the field *)

Definition gsum (l : list Z) : Z := fold_right add 0 l.
Definition gprod (l : list Z) : Z := fold_right mul 1 l.

Fixpoint gpow (x : Z) (n : nat) : Z :=
  match n with
  | O => 1
  | Datatypes.S n' => mul x (gpow x n')
  end.

Lemma gsum_is_byte l : bytes l -> is_byte (gsum l).
Proof. induction 1; simpl; gf. Qed.

Lemma gprod_is_byte l : bytes l -> is_byte (gprod l).
Proof. induction 1; simpl; gf. Qed.

Lemma gpow_is_byte x n : is_byte x -> is_byte (gpow x n).
Proof. intros Hx. induction n; simpl; gf. Qed.

#[local] Hint Resolve gsum_is_byte gprod_is_byte gpow_is_byte : gf.

Lemma gsum_app l1 l2 : gsum (l1 ++ l2) = add (gsum l1) (gsum l2).
Proof.
  induction l1 as [|a l1 IH]; simpl.
  - symmetry. apply add_0_l.
  - rewrite IH. apply add_assoc.
Qed.

Lemma gprod_app l1 l2 :
  bytes l1 -> bytes l2 -> gprod (l1 ++ l2) = mul (gprod l1) (gprod l2).
Proof.
  intros H1 H2. induction H1 as [|a l1 Ha H1 IH]; simpl.
  - symmetry. apply mul_1_l. gf.
  - rewrite IH. apply mul_assoc; gf.
Qed.

Lemma gsum_perm l1 l2 : l1 ≡ₚ l2 -> gsum l1 = gsum l2.
Proof.
  induction 1 as [|a l1 l2 _ IH|a b l|l1 l2 l3 _ IH1 _ IH2]; simpl.
  - reflexivity.
  - now rewrite IH.
  - rewrite !add_assoc. f_equal. apply add_comm.
  - now rewrite IH1.
Qed.

Lemma gprod_perm l1 l2 : bytes l1 -> l1 ≡ₚ l2 -> gprod l1 = gprod l2.
Proof.
  intros Hb HP. induction HP as [|a l1 l2 HP IH|a b l|l1 l2 l3 HP1 IH1 HP2 IH2]; simpl.
  - reflexivity.
  - inversion Hb; subst. now rewrite IH.
  - inversion Hb as [|? ? Hy Hb']; subst. inversion Hb' as [|? ? Hx Hl]; subst.
    rewrite !mul_assoc by gf. f_equal. apply mul_comm; gf.
  - rewrite IH1 by assumption. apply IH2.
    unfold bytes. rewrite <- HP1. exact Hb.
Qed.

Lemma mul_gsum c l : is_byte c -> mul c (gsum l) = gsum (map (mul c) l).
Proof.
  intros Hc. induction l as [|a l IH]; simpl.
  - apply mul_0_r, Hc.
  - rewrite mul_add_distr_l, IH. reflexivity.
Qed.

Lemma gsum_add_map {A} (f g : A -> Z) l :
  gsum (map (fun a => add (f a) (g a)) l) = add (gsum (map f l)) (gsum (map g l)).
Proof.
  induction l as [|a l IH]; simpl.
  - symmetry. apply add_0_l.
  - rewrite IH. unfold add. rewrite !Z.lxor_assoc. f_equal.
    rewrite <- !Z.lxor_assoc. f_equal. apply Z.lxor_comm.
Qed.

Lemma gsum_zero {A} (f : A -> Z) l :
  (forall a, a ∈ l -> f a = 0) -> gsum (map f l) = 0.
Proof.
  induction l as [|a l IH]; simpl; intros H; [reflexivity|].
  rewrite H by set_solver. rewrite IH by (intros; apply H; set_solver).
  apply add_0_l.
Qed.

Lemma gprod_zero l : bytes l -> 0 ∈ l -> gprod l = 0.
Proof.
  induction 1 as [|a l Ha Hl IH]; simpl; intros H0.
  - inversion H0.
  - apply elem_of_cons in H0 as [<-|I].
    + apply mul_0_l. gf.
    + rewrite IH by assumption. apply mul_0_r, Ha.
Qed.

Lemma bytes_map {A} (f : A -> Z) l :
  (forall a, a ∈ l -> is_byte (f a)) -> bytes (map f l).
Proof.
  intros H. induction l as [|a l IH]; simpl; constructor.
  - apply H. set_solver.
  - apply IH. intros; apply H; set_solver.
Qed.

(** ** Horner's scheme *)

Fixpoint horner (p : list Z) (x : Z) : Z :=
  match p with
  | [] => 0
  | c :: q => add (mul (horner q x) x) c
  end.

Lemma fold_left_map_seq {A B} (g : A -> B -> A) (h : nat -> B) l r0 :
  fold_left (fun r i => g r (h i)) l r0 = fold_left g (map h l) r0.
Proof.
  revert r0. induction l as [|i l IH]; intros r0; simpl; [reflexivity|apply IH].
Qed.

Lemma coefficients_downwards (p : list Z) :
  map (fun i => nth (length p - i) p 0) (seq 1 (length p)) = rev p.
Proof.
  set (h := fun i => nth (length p - i) p 0).
  apply (nth_ext _ _ 0 0).
  - rewrite length_map, length_seq, length_rev. reflexivity.
  - intros j Hj. rewrite length_map, length_seq in Hj.
    rewrite (nth_indep _ 0 (h O))
      by (rewrite length_map, length_seq; exact Hj).
    rewrite map_nth, seq_nth by exact Hj.
    rewrite rev_nth by exact Hj. reflexivity.
Qed.

Lemma eval_fold p x :
  eval p x = fold_left (fun result c => add (mul result x) c) (rev p) 0.
Proof.
  unfold eval.
  rewrite (fold_left_map_seq (fun r c => add (mul r x) c)
             (fun i => nth (length p - i) p 0)).
  rewrite coefficients_downwards. reflexivity.
Qed.

Lemma eval_horner p x : eval p x = horner p x.
Proof.
  rewrite eval_fold. induction p as [|c q IH]; simpl; [reflexivity|].
  rewrite fold_left_app. simpl. rewrite IH. reflexivity.
Qed.

Lemma eval_cost_fold p x l r0 n0 :
  fold_left (fun '(result, muls) i =>
               (add (mul result x) (nth (length p - i) p 0), Datatypes.S muls))
            l (r0, n0) =
  (fold_left (fun result i => add (mul result x) (nth (length p - i) p 0)) l r0,
   (n0 + length l)%nat).
Proof.
  revert r0 n0. induction l as [|i l IH]; intros r0 n0; simpl.
  - f_equal. lia.
  - rewrite IH. f_equal. lia.
Qed.

Lemma eval_cost_spec p x : eval_cost p x = (eval p x, length p).
Proof.
  unfold eval_cost. rewrite eval_cost_fold, length_seq. reflexivity.
Qed.

Lemma horner_is_byte p x : bytes p -> is_byte x -> is_byte (horner p x).
Proof. intros Hp Hx. induction Hp; simpl; gf. Qed.

#[local] Hint Resolve horner_is_byte : gf.

Lemma horner_cons c q x :
  bytes q -> is_byte x -> horner (c :: q) x = add c (mul x (horner q x)).
Proof.
  intros Hq Hx. simpl. rewrite add_comm. f_equal. apply mul_comm; gf.
Qed.

Lemma horner_at_0 p : bytes p -> horner p 0 = nth 0 p 0.
Proof.
  intros Hp. destruct Hp as [|c q Hc Hq]; simpl; [reflexivity|].
  rewrite mul_0_r by gf. apply add_0_l.
Qed.

Lemma horner_terms p x i :
  bytes p -> is_byte x ->
  gsum (imap (fun j c => mul c (gpow x (i + j))) p) = mul (gpow x i) (horner p x).
Proof.
  intros Hp Hx. revert i. induction Hp as [|c q Hc Hq IH]; intros i.
  - simpl. symmetry. apply mul_0_r. gf.
  - rewrite imap_cons. cbn [gsum fold_right].
    change (fold_right add 0) with gsum.
    rewrite (imap_ext _ (fun j c => mul c (gpow x (Datatypes.S i + j)))).
    2:{ intros j y _. unfold compose.
        replace (i + Datatypes.S j)%nat with (Datatypes.S i + j)%nat by lia.
        reflexivity. }
    rewrite IH. rewrite Nat.add_0_r. simpl horner. simpl gpow.
    rewrite mul_add_distr_l. rewrite add_comm. f_equal.
    + rewrite (mul_comm x (gpow x i)) by gf. rewrite <- mul_assoc by gf.
      f_equal. apply mul_comm; gf.
    + apply mul_comm; gf.
Qed.

Lemma horner_sum p x :
  bytes p -> is_byte x ->
  horner p x = gsum (imap (fun i c => mul c (gpow x i)) p).
Proof.
  intros Hp Hx. pose proof (horner_terms p x 0 Hp Hx) as E.
  cbn [Nat.add gpow] in E. rewrite E. symmetry. apply mul_1_l. gf.
Qed.

(** ** Polynomials as coefficient lists *)

(** Equations that hold by associativity, commutativity and nilpotence of
    xor alone. *)
Ltac xor_ac :=
  unfold add; apply Z.bits_inj'; intros ?n _;
  rewrite ?Z.lxor_spec, ?Z.bits_0;
  repeat match goal with
         | |- context [Z.testbit ?x ?n] => destruct (Z.testbit x n)
         end;
  reflexivity.

Fixpoint padd (p q : list Z) : list Z :=
  match p, q with
  | [], _ => q
  | _, [] => p
  | a :: p', b :: q' => add a b :: padd p' q'
  end.

Definition pscale (c : Z) (p : list Z) : list Z := map (mul c) p.

(** Multiplication by the linear factor [X + r]. *)
Definition pmulx (r : Z) (p : list Z) : list Z := padd (0 :: p) (pscale r p).

(** Quotient of the division by [X + r]. *)
Fixpoint pdiv (r : Z) (p : list Z) : list Z :=
  match p with
  | [] => []
  | _ :: q =>
      match q with
      | [] => []
      | _ :: _ => horner q r :: pdiv r q
      end
  end.

Lemma padd_bytes p q : bytes p -> bytes q -> bytes (padd p q).
Proof.
  intros Hp. revert q. induction Hp as [|a p Ha Hp IH]; intros q Hq; simpl.
  - exact Hq.
  - destruct Hq as [|b q Hb Hq]; constructor; gf. apply IH, Hq.
Qed.

Lemma pscale_bytes c p : is_byte c -> bytes p -> bytes (pscale c p).
Proof. intros Hc Hp. induction Hp; simpl; constructor; gf. Qed.

Lemma pmulx_bytes r p : is_byte r -> bytes p -> bytes (pmulx r p).
Proof.
  intros Hr Hp. apply padd_bytes; [constructor; gf|apply pscale_bytes; gf].
Qed.

Lemma pdiv_bytes r p : is_byte r -> bytes p -> bytes (pdiv r p).
Proof.
  intros Hr Hp. induction Hp as [|c q Hc Hq IH]; simpl; [constructor|].
  destruct q; [constructor|]. constructor; gf.
Qed.

Lemma padd_length p q : length (padd p q) = Nat.max (length p) (length q).
Proof.
  revert q. induction p as [|a p IH]; intros q; simpl; [reflexivity|].
  destruct q; simpl; [reflexivity|]. now rewrite IH.
Qed.

Lemma pmulx_length r p : length (pmulx r p) = Datatypes.S (length p).
Proof.
  unfold pmulx, pscale. rewrite padd_length, length_map. simpl. lia.
Qed.

Lemma pdiv_length r p : length (pdiv r p) = Nat.pred (length p).
Proof.
  induction p as [|c q IH]; simpl; [reflexivity|].
  destruct q; [reflexivity|]. simpl in *. now rewrite IH.
Qed.

Lemma horner_padd p q x :
  bytes p -> bytes q -> is_byte x ->
  horner (padd p q) x = add (horner p x) (horner q x).
Proof.
  intros Hp. revert q. induction Hp as [|a p Ha Hp IH]; intros q Hq Hx.
  - simpl. symmetry. apply add_0_l.
  - destruct Hq as [|b q Hb Hq].
    + simpl. symmetry. apply add_0_r.
    + simpl. rewrite IH by assumption.
      rewrite mul_add_distr_r by gf. xor_ac.
Qed.

Lemma horner_pscale c p x :
  is_byte c -> bytes p -> is_byte x ->
  horner (pscale c p) x = mul c (horner p x).
Proof.
  intros Hc Hp Hx. induction Hp as [|a p Ha Hp IH]; simpl.
  - symmetry. apply mul_0_r, Hc.
  - fold (pscale c p). rewrite IH, mul_add_distr_l.
    rewrite mul_assoc by gf. reflexivity.
Qed.

Lemma horner_pmulx r p x :
  is_byte r -> bytes p -> is_byte x ->
  horner (pmulx r p) x = mul (add x r) (horner p x).
Proof.
  intros Hr Hp Hx. unfold pmulx.
  assert (B0 : bytes (0 :: p)) by (constructor; gf).
  assert (B1 : bytes (pscale r p)) by (apply pscale_bytes; assumption).
  rewrite horner_padd by assumption.
  rewrite horner_pscale by assumption. simpl. rewrite add_0_r.
  rewrite mul_add_distr_r by gf. f_equal. apply mul_comm; gf.
Qed.

Lemma pdiv_spec r p x :
  is_byte r -> bytes p -> is_byte x ->
  horner p x = add (horner p r) (mul (add x r) (horner (pdiv r p) x)).
Proof.
  intros Hr Hp Hx. induction Hp as [|c q Hc Hq IH].
  - simpl. rewrite mul_0_r by gf. reflexivity.
  - destruct q as [|c' q'].
    + simpl. rewrite !mul_0_l, mul_0_r by gf. xor_ac.
    + assert (Bd : bytes (pdiv r (c' :: q'))) by (apply pdiv_bytes; assumption).
      change (pdiv r (c :: c' :: q'))
        with (horner (c' :: q') r :: pdiv r (c' :: q')).
      set (q := c' :: q') in *.
      change (horner (c :: q) x) with (add (mul (horner q x) x) c).
      change (horner (c :: q) r) with (add (mul (horner q r) r) c).
      change (horner (horner q r :: pdiv r q) x)
        with (add (mul (horner (pdiv r q) x) x) (horner q r)).
      rewrite IH at 1.
      set (Hr' := horner q r) in *. set (D := horner (pdiv r q) x) in *.
      assert (is_byte Hr') by (subst Hr'; gf).
      assert (is_byte D) by (subst D; gf).
      rewrite !mul_add_distr_l, !mul_add_distr_r by gf.
      rewrite (mul_comm r Hr'), (mul_comm x Hr') by gf.
      rewrite (mul_assoc x D x), (mul_assoc r D x) by gf.
      xor_ac.
Qed.

(** A polynomial with fewer coefficients than distinct roots vanishes
    everywhere. *)
Lemma roots_bound rs : forall p,
  bytes p -> bytes rs -> NoDup rs -> (length p <= length rs)%nat ->
  (forall r, r ∈ rs -> horner p r = 0) ->
  forall x, is_byte x -> horner p x = 0.
Proof.
  induction rs as [|r rs IH]; intros p Hp Hrs Hnd Hlen Hroot x Hx.
  - destruct p; [reflexivity|simpl in Hlen; lia].
  - apply Forall_cons in Hrs as [Hr Hrs]. apply NoDup_cons in Hnd as [Hnin Hnd].
    assert (Hq : bytes (pdiv r p)) by (apply pdiv_bytes; assumption).
    assert (Z0 : forall y, is_byte y -> horner (pdiv r p) y = 0).
    { apply IH; try assumption.
      - rewrite pdiv_length. simpl in Hlen. lia.
      - intros r' Hr'.
        assert (Br' : is_byte r') by (eapply Forall_forall in Hrs; eauto).
        pose proof (pdiv_spec r p r' Hr Hp Br') as E.
        rewrite (Hroot r), (Hroot r'), add_0_l in E by set_solver.
        symmetry in E. apply mul_eq_0 in E as [E|E]; gf.
        apply (proj1 (add_eq_0 _ _)) in E. subst r'. contradiction. }
    rewrite (pdiv_spec r p x Hr Hp Hx), (Hroot r), Z0, add_0_l by set_solver.
    apply mul_0_r. gf.
Qed.

(** Functions on the field given by a polynomial with at most [m]
    coefficients. *)
Definition polyfun (m : nat) (f : Z -> Z) : Prop :=
  exists p, bytes p /\ (length p <= m)%nat /\
            forall x, is_byte x -> f x = horner p x.

Lemma polyfun_horner p : bytes p -> polyfun (length p) (horner p).
Proof. intros Hp. exists p. split; [exact Hp|]. split; [lia|reflexivity]. Qed.

Lemma polyfun_zero m : polyfun m (fun _ => 0).
Proof.
  exists []. split; [constructor|]. split; [simpl; lia|]. intros; reflexivity.
Qed.

Lemma polyfun_const c : is_byte c -> polyfun 1 (fun _ => c).
Proof.
  intros Hc. exists [c]. split; [constructor; [exact Hc|constructor]|].
  split; [reflexivity|].
  intros x Hx. simpl. rewrite mul_0_l by gf. symmetry. apply add_0_l.
Qed.

Lemma polyfun_mono m m' f : (m <= m')%nat -> polyfun m f -> polyfun m' f.
Proof.
  intros Hle (p & Hp & Hl & E). exists p.
  split; [exact Hp|]. split; [lia|exact E].
Qed.

Lemma polyfun_ext m f g :
  (forall x, is_byte x -> f x = g x) -> polyfun m f -> polyfun m g.
Proof.
  intros Hfg (p & Hp & Hl & E). exists p.
  split; [exact Hp|]. split; [exact Hl|].
  intros x Hx. rewrite <- Hfg by assumption. auto.
Qed.

Lemma polyfun_add m f g :
  polyfun m f -> polyfun m g -> polyfun m (fun x => add (f x) (g x)).
Proof.
  intros (p & Hp & Hlp & Ep) (q & Hq & Hlq & Eq).
  exists (padd p q). split; [apply padd_bytes; assumption|].
  split; [rewrite padd_length; lia|].
  intros x Hx. rewrite horner_padd, Ep, Eq by assumption. reflexivity.
Qed.

Lemma polyfun_scale m c f :
  is_byte c -> polyfun m f -> polyfun m (fun x => mul c (f x)).
Proof.
  intros Hc (p & Hp & Hl & E). exists (pscale c p).
  split; [apply pscale_bytes; assumption|].
  split; [unfold pscale; rewrite length_map; exact Hl|].
  intros x Hx. rewrite horner_pscale, E by assumption. reflexivity.
Qed.

Lemma polyfun_mulx m r f :
  is_byte r -> polyfun m f ->
  polyfun (Datatypes.S m) (fun x => mul (add x r) (f x)).
Proof.
  intros Hr (p & Hp & Hl & E). exists (pmulx r p).
  split; [apply pmulx_bytes; assumption|].
  split; [rewrite pmulx_length; lia|].
  intros x Hx. rewrite horner_pmulx, E by assumption. reflexivity.
Qed.

Lemma polyfun_roots m f rs :
  polyfun m f -> bytes rs -> NoDup rs -> (m <= length rs)%nat ->
  (forall r, r ∈ rs -> f r = 0) ->
  forall x, is_byte x -> f x = 0.
Proof.
  intros (p & Hp & Hl & E) Hrs Hnd Hm Hroot x Hx.
  rewrite E by assumption. apply (roots_bound rs); auto; [lia|].
  intros r Hr. rewrite <- E; [auto|]. eapply Forall_forall in Hrs; eauto.
Qed.

(** ** Lagrange interpolation *)

Definition finv (b : Z) : Z := default 0 (inverse b).
Definition fdiv (a b : Z) : Z := mul a (finv b).

Lemma finv_is_byte b : is_byte b -> is_byte (finv b).
Proof.
  intros Hb. unfold finv. destruct (Z.eq_dec b 0) as [->|Nb].
  - rewrite inverse_zero. gf.
  - destruct (inverse_spec b Hb Nb) as (c & -> & Hc & _). exact Hc.
Qed.

#[local] Hint Resolve finv_is_byte : gf.

Lemma fdiv_is_byte a b : is_byte a -> is_byte b -> is_byte (fdiv a b).
Proof. unfold fdiv. gf. Qed.

#[local] Hint Resolve fdiv_is_byte : gf.

Lemma mul_finv b : is_byte b -> b <> 0 -> mul b (finv b) = 1.
Proof.
  intros Hb Nb. unfold finv.
  destruct (inverse_spec b Hb Nb) as (c & -> & _ & _ & E). exact E.
Qed.

Lemma div_fdiv a b : is_byte b -> b <> 0 -> div a b = Some (fdiv a b).
Proof.
  intros Hb Nb. unfold div, fdiv, finv.
  destruct (inverse_spec b Hb Nb) as (c & -> & _). reflexivity.
Qed.

Lemma fdiv_self b : is_byte b -> b <> 0 -> fdiv b b = 1.
Proof. intros. unfold fdiv. now apply mul_finv. Qed.

Lemma fdiv_0_l b : is_byte b -> fdiv 0 b = 0.
Proof. intros. unfold fdiv. apply mul_0_l. gf. Qed.

Definition point_ok (a : xy) : Prop := is_byte (px a) /\ is_byte (py a).
Definition points_ok (pts : list xy) : Prop := Forall point_ok pts.

Lemma point_ok_px a : point_ok a -> is_byte (px a).
Proof. now intros []. Qed.

Lemma point_ok_py a : point_ok a -> is_byte (py a).
Proof. now intros []. Qed.

#[local] Hint Resolve point_ok_px point_ok_py : gf.

Lemma points_ok_elem pts a : points_ok pts -> a ∈ pts -> point_ok a.
Proof. intros H Ha. eapply Forall_forall in H; eauto. Qed.

(** The points other than [a], told apart by their abscissa. *)
Definition others (a : xy) (pts : list xy) : list xy :=
  filter (fun b => px b <> px a) pts.

Definition lfactor (x : Z) (a b : xy) : Z :=
  fdiv (add x (px b)) (add (px a) (px b)).

Definition lbasis (pts : list xy) (a : xy) (x : Z) : Z :=
  gprod (map (lfactor x a) (others a pts)).

Definition lagrange (pts : list xy) (x : Z) : Z :=
  gsum (map (fun a => mul (lbasis pts a x) (py a)) pts).

Lemma others_ok a pts : points_ok pts -> points_ok (others a pts).
Proof.
  intros H. apply Forall_forall. intros b Hb.
  apply list_elem_of_filter in Hb as [_ Hb]. eapply points_ok_elem; eauto.
Qed.

Lemma lfactor_is_byte x a b :
  is_byte x -> point_ok a -> point_ok b -> is_byte (lfactor x a b).
Proof. intros Hx Ha Hb. unfold lfactor. gf. Qed.

Lemma lfactors_bytes x a l :
  is_byte x -> point_ok a -> points_ok l -> bytes (map (lfactor x a) l).
Proof.
  intros Hx Ha Hl. apply bytes_map. intros b Hb.
  apply lfactor_is_byte; auto. eapply points_ok_elem; eauto.
Qed.

Lemma lbasis_is_byte pts a x :
  is_byte x -> point_ok a -> points_ok pts -> is_byte (lbasis pts a x).
Proof.
  intros Hx Ha Hp. unfold lbasis.
  apply gprod_is_byte, lfactors_bytes; auto using others_ok.
Qed.

Lemma lagrange_is_byte pts x :
  is_byte x -> points_ok pts -> is_byte (lagrange pts x).
Proof.
  intros Hx Hp. unfold lagrange. apply gsum_is_byte, bytes_map.
  intros a Ha. pose proof (points_ok_elem _ _ Hp Ha).
  apply mul_is_byte; gf. apply lbasis_is_byte; auto.
Qed.

(** The code computes Lagrange's formula. *)
Lemma interpolate_weight_spec x a i suffix : forall j w,
  is_byte x -> point_ok a -> points_ok suffix -> is_byte w ->
  (forall t b, suffix !! t = Some b -> (i = j + t)%nat <-> px b = px a) ->
  interpolate_weight x a i j suffix w =
  Some (mul w (gprod (map (lfactor x a) (others a suffix)))).
Proof.
  induction suffix as [|b rest IH]; intros j w Hx Ha Hs Hw Hidx.
  - simpl. rewrite mul_1_r by assumption. reflexivity.
  - apply Forall_cons in Hs as [Hb Hrest].
    assert (Hnext : forall t c, rest !! t = Some c ->
                      (i = Datatypes.S j + t)%nat <-> px c = px a).
    { intros t c Ht. rewrite <- (Hidx (Datatypes.S t) c Ht). lia. }
    pose proof (Hidx O b eq_refl) as H0. rewrite Nat.add_0_r in H0.
    cbn [interpolate_weight]. unfold others. rewrite filter_cons.
    destruct (Nat.eqb_spec i j) as [Eij|Nij]; cbn [negb].
    + destruct (decide (px b <> px a)) as [N|_]; [tauto|].
      apply IH; assumption.
    + destruct (decide (px b <> px a)) as [N|E]; [|exfalso; apply Nij, H0; tauto].
      rewrite div_fdiv; [|gf|].
      2:{ intros E. apply (proj1 (add_eq_0 _ _)) in E. congruence. }
      fold (lfactor x a b). fold (others a rest).
      rewrite IH; auto using mul_is_byte, lfactor_is_byte.
      cbn [map gprod fold_right]. f_equal. symmetry. apply mul_assoc.
      * exact Hw.
      * apply lfactor_is_byte; assumption.
      * apply gprod_is_byte, lfactors_bytes; auto using others_ok.
Qed.

Lemma interpolate_loop_spec x points : forall todo i value,
  is_byte x -> points_ok points -> NoDup (map px points) ->
  todo = drop i points -> is_byte value ->
  interpolate_loop x points i todo value =
  Some (add value (gsum (map (fun a => mul (lbasis points a x) (py a)) todo))).
Proof.
  induction todo as [|a todo IH]; intros i value Hx Hp Hnd Hdrop Hv.
  - simpl. rewrite add_0_r. reflexivity.
  - assert (Hi : points !! i = Some a).
    { rewrite <- (Nat.add_0_r i), <- lookup_drop, <- Hdrop. reflexivity. }
    assert (Ha : point_ok a).
    { eapply points_ok_elem; eauto. eapply list_elem_of_lookup_2; eauto. }
    cbn [interpolate_loop].
    rewrite (interpolate_weight_spec x a i points 0 1); auto; gf.
    2:{ intros t b Ht. simpl. split.
        - intros ->. congruence.
        - intros E. eapply NoDup_lookup; [exact Hnd| |].
          + rewrite list_lookup_fmap, Hi. reflexivity.
          + rewrite list_lookup_fmap, Ht. simpl. now rewrite E. }
    rewrite mul_1_l by (apply gprod_is_byte, lfactors_bytes; auto using others_ok).
    fold (lbasis points a x).
    rewrite (IH (Datatypes.S i)); auto.
    + cbn [map gsum fold_right]. f_equal. symmetry. apply add_assoc.
    + pose proof (drop_drop points 1 i) as E. rewrite <- Hdrop in E.
      rewrite Nat.add_1_r in E. rewrite <- E. reflexivity.
    + apply add_is_byte; auto. apply mul_is_byte; gf. apply lbasis_is_byte; auto.
Qed.

Lemma interpolate_lagrange points x :
  is_byte x -> points_ok points -> NoDup (map px points) ->
  interpolate points x = Some (lagrange points x).
Proof.
  intros Hx Hp Hnd. unfold interpolate.
  rewrite (interpolate_loop_spec x points points 0 0) by (auto; gf).
  rewrite add_0_l. reflexivity.
Qed.

(** Lagrange's formula does not depend on the order of the points. *)
Lemma lbasis_perm pts pts' a x :
  is_byte x -> point_ok a -> points_ok pts -> pts ≡ₚ pts' ->
  lbasis pts a x = lbasis pts' a x.
Proof.
  intros Hx Ha Hp HP. unfold lbasis. apply gprod_perm.
  - apply lfactors_bytes; auto using others_ok.
  - apply Permutation_map. unfold others. now rewrite HP.
Qed.

Lemma lagrange_perm pts pts' x :
  is_byte x -> points_ok pts -> pts ≡ₚ pts' ->
  lagrange pts x = lagrange pts' x.
Proof.
  intros Hx Hp HP. unfold lagrange.
  rewrite (gsum_perm _ _ (Permutation_map _ HP)).
  f_equal. apply map_ext_in. intros a Ha. f_equal.
  apply lbasis_perm; auto.
  apply list_elem_of_In in Ha. rewrite <- HP in Ha.
  eapply points_ok_elem; eauto.
Qed.

Lemma gprod_ones l : (forall y, y ∈ l -> y = 1) -> gprod l = 1.
Proof.
  induction l as [|y l IH]; intros H; simpl; [reflexivity|].
  rewrite (H y) by (apply elem_of_cons; auto).
  rewrite IH by (intros; apply H, elem_of_cons; auto).
  apply mul_1_l. gf.
Qed.

Lemma lbasis_at_own_node pts a :
  point_ok a -> points_ok pts -> lbasis pts a (px a) = 1.
Proof.
  intros Ha Hp. unfold lbasis. apply gprod_ones. intros y Hy.
  apply list_elem_of_In, in_map_iff in Hy as (b & <- & Hb).
  apply list_elem_of_In, list_elem_of_filter in Hb as [Nb Hb].
  pose proof (points_ok_elem _ _ Hp Hb) as Ob.
  unfold lfactor. apply fdiv_self; [gf|].
  intros E. apply (proj1 (add_eq_0 _ _)) in E. congruence.
Qed.

Lemma lbasis_at_other_node pts a c :
  point_ok a -> point_ok c -> points_ok pts -> a ∈ pts -> px c <> px a ->
  lbasis pts c (px a) = 0.
Proof.
  intros Ha Hc Hp Hin Hne. unfold lbasis. apply gprod_zero.
  - apply lfactors_bytes; auto using others_ok. gf.
  - apply list_elem_of_In, in_map_iff. exists a. split.
    + unfold lfactor. rewrite add_self. apply fdiv_0_l. gf.
    + apply list_elem_of_In, list_elem_of_filter. split; [congruence|exact Hin].
Qed.

Lemma lagrange_node pts a :
  points_ok pts -> NoDup (map px pts) -> a ∈ pts ->
  lagrange pts (px a) = py a.
Proof.
  intros Hp Hnd Hin. pose proof (points_ok_elem _ _ Hp Hin) as Ha.
  destruct (list_elem_of_split _ _ Hin) as (l1 & l2 & E).
  assert (Hother : forall c, c ∈ l1 ++ l2 ->
            mul (lbasis pts c (px a)) (py c) = 0).
  { intros c Hc.
    assert (Hcin : c ∈ pts) by (rewrite E; set_solver).
    pose proof (points_ok_elem _ _ Hp Hcin) as Oc.
    rewrite lbasis_at_other_node; auto; [apply mul_0_l; gf|].
    intros Epx. rewrite E, map_app in Hnd. simpl in Hnd.
    apply NoDup_app in Hnd as (_ & Hdisj & Hnd2).
    apply NoDup_cons in Hnd2 as [Hnin _].
    apply elem_of_app in Hc as [Hc|Hc].
    - apply (Hdisj (px c)).
      + apply list_elem_of_In, in_map, list_elem_of_In, Hc.
      + rewrite Epx. set_solver.
    - apply Hnin. rewrite <- Epx.
      apply list_elem_of_In, in_map, list_elem_of_In, Hc. }
  unfold lagrange.
  set (T := fun c => mul (lbasis pts c (px a)) (py c)) in *.
  rewrite E, map_app, gsum_app. cbn [map gsum fold_right].
  change (fold_right add 0) with gsum.
  rewrite !gsum_zero
    by (intros c Hc; apply Hother; apply elem_of_app; auto).
  unfold T. rewrite lbasis_at_own_node by assumption.
  rewrite add_0_l, add_0_r. apply mul_1_l. gf.
Qed.

(** As a function of the evaluation point, Lagrange's formula is a
    polynomial with at most as many coefficients as there are points. *)
Lemma polyfun_gsum {A} m (T : A -> Z -> Z) l :
  (forall a, a ∈ l -> polyfun m (T a)) ->
  polyfun m (fun x => gsum (map (fun a => T a x) l)).
Proof.
  induction l as [|a l IH]; intros H; simpl.
  - apply polyfun_zero.
  - apply polyfun_add; [apply H; set_solver|apply IH].
    intros; apply H; set_solver.
Qed.

Lemma lfactors_polyfun a l :
  point_ok a -> points_ok l ->
  polyfun (Datatypes.S (length l)) (fun x => gprod (map (lfactor x a) l)).
Proof.
  intros Ha Hl. induction Hl as [|b l Hb Hl IH]; simpl.
  - apply polyfun_const. gf.
  - apply (polyfun_ext _
             (fun x => mul (add x (px b))
                         (mul (finv (add (px a) (px b)))
                              (gprod (map (lfactor x a) l))))).
    + intros x Hx.
      assert (is_byte (gprod (map (lfactor x a) l)))
        by (apply gprod_is_byte, lfactors_bytes; auto).
      unfold lfactor at 2, fdiv. apply mul_assoc; gf.
    + apply polyfun_mulx; [gf|]. apply polyfun_scale; [gf|exact IH].
Qed.

Lemma lagrange_polyfun pts :
  points_ok pts -> polyfun (length pts) (lagrange pts).
Proof.
  intros Hp. unfold lagrange.
  apply (polyfun_gsum _ (fun a x => mul (lbasis pts a x) (py a))).
  intros a Ha. pose proof (points_ok_elem _ _ Hp Ha) as Oa.
  apply (polyfun_ext _ (fun x => mul (py a) (lbasis pts a x))).
  { intros x Hx. apply mul_comm; gf. apply lbasis_is_byte; auto. }
  apply polyfun_scale; [gf|].
  apply (polyfun_mono (Datatypes.S (length (others a pts)))).
  - apply (length_filter_lt (fun b => px b <> px a) pts a Ha). tauto.
  - apply lfactors_polyfun; auto using others_ok.
Qed.

(** Interpolating through at least as many distinct points of a polynomial
    as it has coefficients recovers the polynomial, at every point. *)
Theorem lagrange_exact pts p x :
  points_ok pts -> NoDup (map px pts) -> bytes p ->
  (length p <= length pts)%nat ->
  (forall a, a ∈ pts -> py a = horner p (px a)) ->
  is_byte x -> lagrange pts x = horner p x.
Proof.
  intros Hp Hnd Hb Hlen Hy Hx.
  apply add_eq_0.
  apply (polyfun_roots (length pts)
           (fun x => add (lagrange pts x) (horner p x)) (map px pts)); auto.
  - apply polyfun_add; [apply lagrange_polyfun; assumption|].
    apply (polyfun_mono (length p)); [exact Hlen|apply polyfun_horner, Hb].
  - apply bytes_map. intros a Ha. eapply point_ok_px, points_ok_elem; eauto.
  - rewrite length_map. lia.
  - intros r Hr. apply list_elem_of_In, in_map_iff in Hr as (a & <- & Ha).
    apply list_elem_of_In in Ha.
    rewrite lagrange_node, (Hy a Ha) by assumption. apply add_self.
Qed.

Lemma interpolate_exact pts p x :
  points_ok pts -> NoDup (map px pts) -> bytes p ->
  (length p <= length pts)%nat ->
  (forall a, a ∈ pts -> py a = horner p (px a)) ->
  is_byte x -> interpolate pts x = Some (horner p x).
Proof.
  intros. rewrite interpolate_lagrange by assumption.
  f_equal. now apply lagrange_exact.
Qed.

(** ** Loops *)

Lemma exec_bind_Done {A B} (c : exec A) (k : A -> exec B) b :
  exec_bind c k = Done b -> exists a, c = Done a /\ k a = Done b.
Proof. destruct c; simpl; intros H; try discriminate. eauto. Qed.

Lemma of_option_Done {A} (o : option A) a : of_option o = Done a -> o = Some a.
Proof. destruct o; simpl; intros H; inversion H; reflexivity. Qed.

(** Below 255 a byte counter does not wrap: the loop is the counted one. *)
Lemma for_byte_le_count {S} (body : Z -> S -> exec S) n : forall fuel x s,
  0 <= x <= n + 1 -> n < 255 -> (Z.to_nat (n + 1 - x) < fuel)%nat ->
  for_byte_le fuel x n body s = iter_from (Z.to_nat (n + 1 - x)) x body s.
Proof.
  induction fuel as [|fuel IH]; intros x s Hx Hn Hf; [lia|].
  cbn [for_byte_le]. destruct (Z.leb_spec x n) as [Hle|Hgt].
  - replace (Z.to_nat (n + 1 - x)) with (Datatypes.S (Z.to_nat (n + 1 - (x + 1))))
      by lia.
    cbn [iter_from]. destruct (body x s) as [s'| |]; simpl; try reflexivity.
    rewrite to_byte_id by (unfold is_byte; lia).
    apply IH; lia.
  - replace (Z.to_nat (n + 1 - x)) with O by lia. reflexivity.
Qed.

Lemma for_byte_le_Done {S} (body : Z -> S -> exec S) n : forall fuel x s r,
  for_byte_le fuel x n body s = Done r -> 0 <= x <= n + 1 -> n < 255 ->
  iter_from (Z.to_nat (n + 1 - x)) x body s = Done r.
Proof.
  induction fuel as [|fuel IH]; intros x s r H Hx Hn; [discriminate|].
  cbn [for_byte_le] in H. destruct (Z.leb_spec x n) as [Hle|Hgt].
  - replace (Z.to_nat (n + 1 - x)) with (Datatypes.S (Z.to_nat (n + 1 - (x + 1))))
      by lia.
    cbn [iter_from]. destruct (body x s) as [s'| |]; simpl in *; try discriminate.
    rewrite to_byte_id in H by (unfold is_byte; lia).
    apply IH; [exact H|lia|lia].
  - replace (Z.to_nat (n + 1 - x)) with O by lia. exact H.
Qed.

Lemma for_byte_le_for_lt {S} (body : Z -> S -> exec S) n fuel s :
  0 <= n < 255 -> (Z.to_nat n < fuel)%nat ->
  for_byte_le fuel 1 n body s = for_lt 1 (n + 1) body s.
Proof.
  intros Hn Hf. unfold for_lt. rewrite for_byte_le_count by lia.
  f_equal; lia.
Qed.

(** With the bound 255 the counter wraps to 0 and the loop never exits. *)
Lemma for_byte_le_255 {S} (body : Z -> S -> exec S) : forall fuel x s r,
  is_byte x -> for_byte_le fuel x 255 body s <> Done r.
Proof.
  induction fuel as [|fuel IH]; intros x s r Hx; cbn [for_byte_le]; [discriminate|].
  destruct (Z.leb_spec x 255) as [_|Hgt]; [|unfold is_byte in Hx; lia].
  destruct (body x s) as [s'| |]; simpl; try discriminate.
  apply IH, to_byte_is_byte.
Qed.

Lemma for_byte_le_Done_lt {S} (body : Z -> S -> exec S) fuel n s r :
  is_byte n -> for_byte_le fuel 1 n body s = Done r -> n < 255.
Proof.
  intros Hn H. destruct (Z.eq_dec n 255) as [->|].
  - exfalso. eapply for_byte_le_255; [|exact H]. unfold is_byte; lia.
  - unfold is_byte in Hn. lia.
Qed.

Lemma for_byte_le_fuel_irrelevant {S} (body : Z -> S -> exec S) n :
  forall fuel x s r,
  for_byte_le fuel x n body s = Done r ->
  forall fuel', (fuel <= fuel')%nat -> for_byte_le fuel' x n body s = Done r.
Proof.
  induction fuel as [|fuel IH]; intros x s r H fuel' Hle; [discriminate|].
  destruct fuel' as [|fuel']; [lia|]. cbn [for_byte_le] in *.
  destruct (x <=? n); [|exact H].
  destruct (body x s) as [s'| |]; simpl in *; try discriminate.
  eapply IH; [exact H|lia].
Qed.

(** Counted loops whose body always returns. *)
Fixpoint iter_pure {S} (count : nat) (i : Z) (g : Z -> S -> S) (s : S) : S :=
  match count with
  | O => s
  | Datatypes.S count' => iter_pure count' (i + 1) g (g i s)
  end.

Lemma iter_from_pure {S} (body : Z -> S -> exec S) (g : Z -> S -> S) :
  forall count i s,
  (forall j t, i <= j < i + Z.of_nat count -> body j t = Done (g j t)) ->
  iter_from count i body s = Done (iter_pure count i g s).
Proof.
  induction count as [|count IH]; intros i s H; [reflexivity|].
  cbn [iter_from iter_pure]. rewrite H by lia. simpl.
  apply IH. intros; apply H; lia.
Qed.

(** A counted loop that stores [f i] at index [i] of a slice. *)
Lemma iter_from_store {A} (body : Z -> list A -> exec (list A)) (f : Z -> A) :
  forall count i s,
  0 <= i -> i + Z.of_nat count <= len s ->
  (forall j t, i <= j < i + Z.of_nat count -> length t = length s ->
               body j t = of_option (store t j (f j))) ->
  exists s', iter_from count i body s = Done s' /\ length s' = length s /\
    forall j : nat, s' !! j =
      if decide (i <= Z.of_nat j < i + Z.of_nat count)
      then Some (f (Z.of_nat j)) else s !! j.
Proof.
  induction count as [|count IH]; intros i s Hi Hlen Hbody.
  - exists s. split; [reflexivity|]. split; [reflexivity|].
    intros j. destruct (decide _); [lia|reflexivity].
  - cbn [iter_from]. rewrite Hbody by (try reflexivity; lia).
    unfold store, len in *.
    destruct (Z.leb_spec 0 i); [|lia]. destruct (Z.ltb_spec i (Z.of_nat (length s))); [|lia].
    cbn [andb of_option exec_bind].
    destruct (IH (i + 1) (<[Z.to_nat i := f i]> s)) as (s' & E & L & Hs').
    + lia.
    + rewrite length_insert. lia.
    + intros j t Hj Ht. rewrite length_insert in Ht. apply Hbody; [lia|exact Ht].
    + exists s'. split; [exact E|]. rewrite length_insert in L. split; [exact L|].
      intros j. rewrite Hs'.
      destruct (decide (i + 1 <= Z.of_nat j < i + 1 + Z.of_nat count)) as [D|D];
        destruct (decide (i <= Z.of_nat j < i + Z.of_nat (Datatypes.S count))) as [D'|D'];
        try reflexivity; try lia.
      * assert (j = Z.to_nat i) as -> by lia.
        rewrite list_lookup_insert_eq by lia. f_equal. f_equal. lia.
      * apply list_lookup_insert_ne. lia.
Qed.

(** ** The random source *)

Definition event_ok (ev : read_event) : Prop :=
  match ev with
  | Byte b => is_byte b
  | Fault _ => True
  end.

(** Every byte a reader delivers is a byte. *)
Definition reader_ok (ran : reader) : Prop := Forall event_ok ran.

Lemma bind_Done {A B} (c : M A) (k : A -> M B) ran b ran' :
  bind c k ran = Done (b, ran') ->
  exists a ran1, c ran = Done (a, ran1) /\ k a ran1 = Done (b, ran').
Proof.
  unfold bind. destruct (c ran) as [[a ran1]| |]; intros H; try discriminate.
  eauto.
Qed.

Lemma lift_Done {A} (c : exec A) ran a ran' :
  lift c ran = Done (a, ran') -> c = Done a /\ ran' = ran.
Proof.
  unfold lift. destruct c; intros H; inversion H; subst. auto.
Qed.

Lemma ret_Done {A} (a b : A) ran ran' :
  ret a ran = Done (b, ran') -> b = a /\ ran' = ran.
Proof. unfold ret. intros H; inversion H; auto. Qed.

Lemma ReadFull_from_inl n : forall got ran bs ran',
  ReadFull_from got n ran = (inl bs, ran') ->
  ran = map Byte bs ++ ran' /\ length bs = n.
Proof.
  induction n as [|n IH]; intros got ran bs ran' H; simpl in H.
  - inversion H; subst. auto.
  - destruct ran as [|[b|e] ran]; try discriminate.
    destruct (ReadFull_from (Datatypes.S got) n ran) as [[bs1|e1] r1] eqn:E;
      inversion H; subst.
    destruct (IH _ _ _ _ E) as [-> <-]. auto.
Qed.

Lemma ReadFull_inl n ran bs ran' :
  ReadFull n ran = (inl bs, ran') ->
  ran = map Byte bs ++ ran' /\ length bs = Z.to_nat n.
Proof. apply ReadFull_from_inl. Qed.

Lemma reader_ok_app bs ran :
  reader_ok (map Byte bs ++ ran) <-> bytes bs /\ reader_ok ran.
Proof.
  unfold reader_ok, bytes. rewrite Forall_app. split; intros [H1 H2]; split; auto.
  - induction bs; inversion H1; constructor; auto.
  - induction H1; constructor; auto.
Qed.

Lemma ReadFull_from_ok n : forall got ran res ran',
  ReadFull_from got n ran = (res, ran') -> reader_ok ran -> reader_ok ran'.
Proof.
  induction n as [|n IH]; intros got ran res ran' H Hok; simpl in H.
  - inversion H; subst. exact Hok.
  - destruct ran as [|[b|e] ran].
    + inversion H. constructor.
    + apply Forall_cons in Hok as [_ Hok].
      destruct (ReadFull_from (Datatypes.S got) n ran) as [[bs1|e1] r1] eqn:E;
        inversion H; subst; eapply IH; eauto.
    + apply Forall_cons in Hok as [_ Hok]. inversion H; subst. exact Hok.
Qed.

Lemma ReadFull_ok n ran res ran' :
  ReadFull n ran = (res, ran') -> reader_ok ran -> reader_ok ran'.
Proof. apply ReadFull_from_ok. Qed.

Lemma read_full_Done n ran rd ran' :
  read_full n ran = Done (rd, ran') -> ReadFull n ran = (rd, ran').
Proof. unfold read_full. intros H; inversion H. reflexivity. Qed.

(** Reading one byte. *)
Lemma ReadFull_one ran :
  ReadFull 1 ran =
  match ran with
  | [] => (inr EOF, [])
  | Byte b :: ran' => (inl [b], ran')
  | Fault e :: ran' => (inr e, ran')
  end.
Proof.
  unfold ReadFull. simpl. destruct ran as [|[b|e] ran]; try reflexivity.
  destruct e; reflexivity.
Qed.

(** ** Slices *)

Lemma index_Some {A} (l : list A) i v :
  index l i = Some v -> 0 <= i /\ l !! Z.to_nat i = Some v.
Proof.
  unfold index. destruct (Z.ltb_spec i 0); [discriminate|]. auto.
Qed.

Lemma index_lookup {A} (l : list A) (j : nat) : index l (Z.of_nat j) = l !! j.
Proof.
  unfold index. destruct (Z.ltb_spec (Z.of_nat j) 0); [lia|].
  now rewrite Nat2Z.id.
Qed.

Lemma index_in_range {A} (l : list A) i :
  0 <= i < len l -> exists v, index l i = Some v.
Proof.
  intros H. unfold index, len in *. destruct (Z.ltb_spec i 0); [lia|].
  destruct (lookup_lt_is_Some_2 l (Z.to_nat i)) as [v Hv]; [lia|]. eauto.
Qed.

Lemma store_Some {A} (l : list A) i v l' :
  store l i v = Some l' -> 0 <= i < len l /\ l' = <[Z.to_nat i := v]> l.
Proof.
  unfold store, len.
  destruct (Z.leb_spec 0 i); destruct (Z.ltb_spec i (Z.of_nat (length l)));
    simpl; intros E; inversion E; auto with lia.
Qed.

Lemma store_in_range {A} (l : list A) i v :
  0 <= i < len l -> store l i v = Some (<[Z.to_nat i := v]> l).
Proof.
  intros H. unfold store, len in *.
  destruct (Z.leb_spec 0 i); [|lia].
  destruct (Z.ltb_spec i (Z.of_nat (length l))); [|lia]. reflexivity.
Qed.

Lemma make_Some {A} (z : A) n :
  0 <= n -> make z n = Some (replicate (Z.to_nat n) z).
Proof. intros H. unfold make. destruct (Z.ltb_spec n 0); [lia|reflexivity]. Qed.

Lemma bytes_insert l i v : bytes l -> is_byte v -> bytes (<[i := v]> l).
Proof. intros Hl Hv. apply Forall_insert; assumption. Qed.

Lemma bytes_replicate n : bytes (replicate n 0).
Proof. apply Forall_replicate, is_byte_0. Qed.

Lemma bytes_lookup l (i : nat) v : bytes l -> l !! i = Some v -> is_byte v.
Proof. intros Hl Hi. eapply Forall_lookup_1; eauto. Qed.

(** ** [generate] *)

Lemma generate_lead_step fuel degree result ran :
  generate_lead (Datatypes.S fuel) degree result ran =
  match ran with
  | [] => Done (Err (ErrRead EOF), [])
  | Fault e :: ran' => Done (Err (ErrRead e), ran')
  | Byte b :: ran' =>
      if negb (b =? 0)
      then match store result degree b with
           | Some result' => Done (Ok result', ran')
           | None => Panic
           end
      else generate_lead fuel degree result ran'
  end.
Proof.
  cbn [generate_lead]. unfold bind, read_full. rewrite ReadFull_one.
  destruct ran as [|[b|e] ran']; try reflexivity.
  unfold bind, lift, ret, index. change (Z.to_nat 0) with O. cbn.
  destruct (negb (b =? 0)); [|reflexivity].
  destruct (store result degree b); reflexivity.
Qed.

Lemma generate_lead_Ok : forall fuel degree result ran p ran',
  generate_lead fuel degree result ran = Done (Ok p, ran') -> reader_ok ran ->
  exists b, is_byte b /\ b <> 0 /\ store result degree b = Some p /\ reader_ok ran'.
Proof.
  induction fuel as [|fuel IH]; intros degree result ran p ran' H Hok;
    [discriminate|].
  rewrite generate_lead_step in H. destruct ran as [|[b|e] ran1]; try discriminate.
  apply Forall_cons in Hok as [Hb Hok]. simpl in Hb.
  destruct (Z.eqb_spec b 0) as [->|Nb]; cbn [negb] in H.
  - eapply IH; eauto.
  - destruct (store result degree b) as [r|] eqn:E; inversion H; subst.
    exists b. auto.
Qed.

(** The polynomial [generate] returns for a degree between 1 and 254. *)
Lemma generate_Ok fuel degree x ran p ran' :
  generate fuel degree x ran = Done (Ok p, ran') ->
  1 <= degree <= 254 -> is_byte x -> reader_ok ran ->
  len p = degree + 1 /\ index p 0 = Some x /\
  (exists b, index p degree = Some b /\ b <> 0) /\
  bytes p /\ reader_ok ran'.
Proof.
  intros H Hd Hx Hok. unfold generate in H.
  rewrite !to_byte_id in H by (unfold is_byte; lia).
  rewrite make_Some in H by lia.
  apply bind_Done in H as (r0 & ran0 & H0 & H).
  apply lift_Done in H0 as [H0 ->]. inversion H0; subst r0; clear H0.
  apply bind_Done in H as (r1 & ran1 & H1 & H).
  apply lift_Done in H1 as [H1 ->]. apply of_option_Done, store_Some in H1 as [_ ->].
  apply bind_Done in H as (rd & ran2 & H2 & H).
  apply read_full_Done in H2. pose proof (ReadFull_ok _ _ _ _ H2 Hok) as Hok2.
  destruct rd as [buf|e]; [|apply ret_Done in H as [H _]; discriminate].
  apply ReadFull_inl in H2 as [-> Lbuf].
  apply reader_ok_app in Hok as [Bbuf _].
  apply bind_Done in H as (r3 & ran3 & H3 & H).
  apply lift_Done in H3 as [H3 ->].
  set (r1 := <[Z.to_nat 0 := x]> (replicate (Z.to_nat (degree + 1)) 0)) in *.
  assert (L1 : length r1 = Z.to_nat (degree + 1))
    by (unfold r1; rewrite length_insert, length_replicate; reflexivity).
  assert (B1 : bytes r1) by (apply bytes_insert; auto using bytes_replicate).
  unfold for_lt in H3.
  destruct (iter_from_store
              (fun i result =>
                 let* v := of_option (index buf (to_byte (i - 1))) in
                 of_option (store result i v))
              (fun i => nth (Z.to_nat (i - 1)) buf 0)
              (Z.to_nat (degree - 1)) 1 r1) as (r3' & E3 & L3 & Hr3).
  { lia. }
  { unfold len. lia. }
  { intros j t Hj Ht. rewrite to_byte_id by (unfold is_byte; lia).
    destruct (index_in_range buf (j - 1)) as [v Hv]; [unfold len; lia|].
    rewrite Hv. simpl. do 2 f_equal.
    apply index_Some in Hv as [_ Hv]. symmetry. now apply nth_lookup_Some. }
  rewrite E3 in H3. inversion H3; subst r3'; clear H3.
  destruct (generate_lead_Ok _ _ _ _ _ _ H Hok2) as (b & Hb & Nb & Hst & Hok').
  apply store_Some in Hst as [Hrange ->].
  assert (B3 : bytes r3).
  { apply Forall_lookup. intros j v Hv. rewrite Hr3 in Hv.
    destruct (decide _).
    - inversion Hv; subst.
      destruct (nth_in_or_default (Z.to_nat (Z.of_nat j - 1)) buf 0) as [I | ->]; gf.
      eapply Forall_forall in Bbuf; [exact Bbuf|]. apply list_elem_of_In, I.
    - eapply bytes_lookup; eauto. }
  split; [unfold len; rewrite length_insert; lia|].
  split.
  { rewrite (index_lookup _ 0), list_lookup_insert_ne by lia.
    rewrite (Hr3 O). destruct (decide _); [lia|].
    unfold r1. apply list_lookup_insert_eq. rewrite length_replicate. lia. }
  split.
  { exists b. split; [|exact Nb]. unfold index.
    destruct (Z.ltb_spec degree 0); [lia|].
    apply list_lookup_insert_eq. unfold len in Hrange. lia. }
  split; [apply bytes_insert; assumption|exact Hok'].
Qed.

(** ** [Split] *)

(** The share of party [x]: the value at [x] of each byte's polynomial. *)
Definition share_for (polys : list (list Z)) (x : Z) : list Z :=
  map (fun p => eval p x) polys.

(** The share map built from the polynomials [ps] for the parties 1..n. *)
Definition shares_inv (n : Z) (ps : list (list Z)) (sh : shares_map) : Prop :=
  forall y, sh !! y =
    if decide (1 <= y <= n /\ ps <> []) then Some (share_for ps y) else None.

Definition append_pure (p : list Z) (x : Z) (sh : shares_map) : shares_map :=
  <[x := default [] (sh !! x) ++ [eval p x]]> sh.

Lemma append_pure_lookup p : forall count lo (sh : shares_map) y,
  iter_pure count lo (append_pure p) sh !! y =
  if decide (lo <= y < lo + Z.of_nat count)
  then Some (default [] (sh !! y) ++ [eval p y]) else sh !! y.
Proof.
  induction count as [|count IH]; intros lo sh y; cbn [iter_pure].
  - destruct (decide _); [lia|reflexivity].
  - rewrite IH. unfold append_pure.
    destruct (decide (lo + 1 <= y < lo + 1 + Z.of_nat count));
      destruct (decide (lo <= y < lo + Z.of_nat (Datatypes.S count))); try lia.
    + rewrite lookup_insert_ne by lia. reflexivity.
    + assert (y = lo) as -> by lia. apply lookup_insert_eq.
    + apply lookup_insert_ne. lia.
Qed.

Lemma shares_inv_empty n : shares_inv n [] ∅.
Proof.
  intros y. rewrite lookup_empty. destruct (decide _) as [[_ H]|]; [|reflexivity].
  contradiction.
Qed.

Lemma shares_inv_step n ps p sh :
  0 <= n -> shares_inv n ps sh ->
  shares_inv n (ps ++ [p]) (iter_pure (Z.to_nat n) 1 (append_pure p) sh).
Proof.
  intros Hn Hinv y. rewrite append_pure_lookup, (Hinv y).
  destruct (decide (1 <= y < 1 + Z.of_nat (Z.to_nat n))) as [D|D].
  - destruct (decide (1 <= y <= n /\ ps ++ [p] <> [])) as [_|N].
    2:{ exfalso. apply N. split; [lia|]. destruct ps; discriminate. }
    f_equal. unfold share_for. rewrite map_app. simpl.
    destruct (decide (1 <= y <= n /\ ps <> [])) as [_|N]; [reflexivity|].
    destruct ps as [|q ps]; [reflexivity|]. exfalso. apply N. split; [lia|discriminate].
  - destruct (decide (1 <= y <= n /\ ps <> [])) as [[? _]|_]; [lia|].
    destruct (decide (1 <= y <= n /\ ps ++ [p] <> [])) as [[? _]|_]; [lia|reflexivity].
Qed.

Lemma share_loop_Done fuel n p sh sh' :
  is_byte n ->
  for_byte_le fuel 1 n (append_share p) sh = Done sh' ->
  n < 255 /\ sh' = iter_pure (Z.to_nat n) 1 (append_pure p) sh.
Proof.
  intros Hn H. pose proof (for_byte_le_Done_lt _ _ _ _ _ Hn H) as Hlt.
  split; [exact Hlt|].
  apply for_byte_le_Done in H; [|unfold is_byte in Hn; lia|exact Hlt].
  rewrite (iter_from_pure _ (append_pure p)) in H by reflexivity.
  inversion H. f_equal. lia.
Qed.

(** What is known of the polynomial drawn for the secret byte [b]. *)
Definition poly_for (k b : Z) (p : list Z) : Prop :=
  bytes p /\ len p = k /\ index p 0 = Some b /\
  exists lead, index p (k - 1) = Some lead /\ lead <> 0.

Lemma Split_loop_Some : forall secret fuel n k ps sh ran m ran',
  Split_loop fuel n k secret sh ran = Done ((Some m, None), ran') ->
  is_byte n -> 2 <= k <= 255 -> bytes secret -> reader_ok ran ->
  shares_inv n ps sh ->
  exists polys, Forall2 (poly_for k) secret polys /\
                shares_inv n (ps ++ polys) m /\ reader_ok ran' /\
                (secret <> [] -> n < 255).
Proof.
  induction secret as [|b secret IH];
    intros fuel n k ps sh ran m ran' H Hn Hk Hs Hok Hinv.
  - apply ret_Done in H as [H ->]. inversion H; subst.
    exists []. rewrite app_nil_r. repeat split; auto. congruence.
  - cbn [Split_loop] in H. apply Forall_cons in Hs as [Hb Hs].
    apply bind_Done in H as (g & ran1 & Hg & H).
    destruct g as [p|e]; [|apply ret_Done in H as [H _]; discriminate].
    rewrite to_byte_id in Hg by (unfold is_byte; lia).
    apply generate_Ok in Hg as (Lp & P0 & Plead & Bp & Hok1); auto; [|lia].
    apply bind_Done in H as (sh1 & ran2 & Hl & H).
    apply lift_Done in Hl as [Hl ->].
    apply share_loop_Done in Hl as [Hlt ->]; [|exact Hn].
    eapply IH in H as (polys & HF & Hinv' & Hok' & _); eauto.
    2:{ apply shares_inv_step; [unfold is_byte in Hn; lia|exact Hinv]. }
    exists (p :: polys). rewrite <- app_assoc in Hinv'.
    split; [|auto].
    constructor; [|exact HF].
    unfold poly_for. replace (k - 1 + 1) with k in Lp by lia. auto.
Qed.

Lemma Split_Some fuel n k secret ran m ran' :
  Split fuel n k secret ran = Done ((Some m, None), ran') ->
  is_byte n -> is_byte k -> bytes secret -> reader_ok ran ->
  2 <= k <= n /\
  exists polys, Forall2 (poly_for k) secret polys /\ shares_inv n polys m /\
                reader_ok ran' /\ (secret <> [] -> n < 255).
Proof.
  intros H Hn Hk Hs Hok. unfold Split in H.
  destruct (Z.leb_spec k 1); [apply ret_Done in H as [H _]; discriminate|].
  destruct (Z.ltb_spec n k); [apply ret_Done in H as [H _]; discriminate|].
  split; [lia|].
  eapply (Split_loop_Some _ _ _ _ []) in H; eauto using shares_inv_empty.
  unfold is_byte in Hk. lia.
Qed.

(** ** [Combine] *)

(** The points of byte position [i], in the order of the enumeration [e]. *)
Definition column (e : list (Z * list Z)) (i : nat) : list xy :=
  map (fun kv => mkxy (fst kv) (nth i (snd kv) 0)) e.

(** A share set: byte keys, byte sequences of one length [L]. *)
Definition share_set (m : shares_map) (L : nat) : Prop :=
  forall y v, m !! y = Some v -> is_byte y /\ bytes v /\ length v = L.

(** The value of [Combine] on a share set. *)
Definition combined (m : shares_map) (L : nat) : list Z :=
  map (fun i => lagrange (column (map_to_list m) i) 0) (seq 0 L).

Lemma range_map_perm ord t (m : shares_map) : range_map ord t m ≡ₚ map_to_list m.
Proof. apply visit_perm. Qed.

Lemma range_map_elem ord t (m : shares_map) y v :
  (y, v) ∈ range_map ord t m <-> m !! y = Some v.
Proof. rewrite range_map_perm. apply elem_of_map_to_list. Qed.

Lemma exec_mapM_column (e : list (Z * list Z)) (i : nat) :
  (forall kv, kv ∈ e -> (i < length (snd kv))%nat) ->
  exec_mapM (fun kv => let* y := of_option (index (snd kv) (Z.of_nat i)) in
                       Done (mkxy (fst kv) y)) e = Done (column e i).
Proof.
  induction e as [|kv e IH]; intros H; [reflexivity|].
  cbn [exec_mapM column map]. rewrite index_lookup.
  destruct (lookup_lt_is_Some_2 (snd kv) i) as [y Hy];
    [apply H; apply elem_of_cons; auto|].
  rewrite Hy. cbn [of_option exec_bind].
  rewrite IH by (intros; apply H, elem_of_cons; auto).
  cbn [exec_bind]. fold (column e i). do 3 f_equal.
  symmetry. now apply nth_lookup_Some.
Qed.

Lemma exec_mapM_column_Z (e : list (Z * list Z)) (i : Z) :
  0 <= i ->
  (forall kv, kv ∈ e -> (Z.to_nat i < length (snd kv))%nat) ->
  exec_mapM (fun kv => let* y := of_option (index (snd kv) i) in
                       Done (mkxy (fst kv) y)) e = Done (column e (Z.to_nat i)).
Proof.
  intros Hi H. rewrite <- (exec_mapM_column e (Z.to_nat i) H).
  rewrite Z2Nat.id by exact Hi. reflexivity.
Qed.

Lemma column_perm e e' i : e ≡ₚ e' -> column e i ≡ₚ column e' i.
Proof. intros H. unfold column. now apply Permutation_map. Qed.

Lemma column_px e i : map px (column e i) = map fst e.
Proof. unfold column. rewrite map_map. reflexivity. Qed.

Lemma column_length e i : length (column e i) = length e.
Proof. unfold column. apply length_map. Qed.

Lemma column_ok (m : shares_map) L e i :
  share_set m L -> e ≡ₚ map_to_list m -> (i < L)%nat ->
  points_ok (column e i) /\ NoDup (map px (column e i)).
Proof.
  intros Hm He Hi. split.
  - apply Forall_forall. intros a Ha.
    apply list_elem_of_In, in_map_iff in Ha as ([y v] & <- & Hkv).
    apply list_elem_of_In in Hkv. rewrite He in Hkv.
    apply elem_of_map_to_list in Hkv. destruct (Hm _ _ Hkv) as (Hy & Hv & Hl).
    split; simpl; [exact Hy|].
    destruct (nth_in_or_default i v 0) as [I | ->]; [|apply is_byte_0].
    eapply Forall_forall in Hv; [exact Hv|]. apply list_elem_of_In, I.
  - rewrite column_px.
    change (map fst e) with (e.*1). rewrite He. apply NoDup_fst_map_to_list.
Qed.

Lemma Combine_empty ord : Combine ord ∅ = Done [].
Proof.
  unfold Combine.
  assert (E : range_map ord 0 (∅ : shares_map) = []).
  { apply Permutation_nil. symmetry.
    rewrite range_map_perm, map_to_list_empty. reflexivity. }
  rewrite E. reflexivity.
Qed.

Lemma first_enumerated ord t (m : shares_map) :
  m <> ∅ -> exists y v e, range_map ord t m = (y, v) :: e /\ m !! y = Some v.
Proof.
  intros Hne. destruct (range_map ord t m) as [|[y v] e] eqn:E.
  - exfalso. apply Hne, map_to_list_empty_iff, Permutation_nil.
    rewrite <- E. apply range_map_perm.
  - exists y, v, e. split; [reflexivity|].
    apply (range_map_elem ord t). rewrite E. apply elem_of_cons; auto.
Qed.

(** On a share set, [Combine] interpolates every byte position, whatever
    the enumeration orders. *)
Theorem Combine_share_set ord (m : shares_map) L :
  share_set m L -> m <> ∅ -> Combine ord m = Done (combined m L).
Proof.
  intros Hm Hne. unfold Combine.
  destruct (first_enumerated ord 0 m Hne) as (y0 & v0 & e0 & -> & H0).
  destruct (Hm _ _ H0) as (_ & _ & L0). rewrite L0.
  unfold for_lt, len. rewrite length_replicate.
  replace (Z.to_nat (Z.of_nat L - 0)) with L by lia.
  destruct (iter_from_store
    (fun i secret =>
       let* points := exec_mapM
                        (fun kv => let* y := of_option (index (snd kv) i) in
                                   Done (mkxy (fst kv) y))
                        (range_map ord (Datatypes.S (Z.to_nat i)) m) in
       let* value := of_option (interpolate points 0) in
       of_option (store secret i value))
    (fun i => lagrange (column (map_to_list m) (Z.to_nat i)) 0)
    L 0 (replicate L 0)) as (s' & E & Ls & Hs).
  - lia.
  - unfold len. rewrite length_replicate. lia.
  - intros j t Hj _. cbv beta.
    rewrite exec_mapM_column_Z; [|lia|].
    2:{ intros [y v] Hkv. apply range_map_elem in Hkv.
        destruct (Hm _ _ Hkv) as (_ & _ & Hl). simpl. lia. }
    cbn [exec_bind].
    destruct (column_ok m L (range_map ord (Datatypes.S (Z.to_nat j)) m) (Z.to_nat j))
      as [Hok Hnd]; [exact Hm|apply range_map_perm|lia|].
    rewrite interpolate_lagrange by (auto using is_byte_0).
    cbn [of_option exec_bind].
    rewrite (lagrange_perm _ (column (map_to_list m) (Z.to_nat j)));
      auto using is_byte_0, column_perm, range_map_perm.
  - rewrite E. f_equal. apply list_eq. intros j. rewrite Hs.
    unfold combined. rewrite length_replicate in Ls.
    destruct (decide (0 <= Z.of_nat j < 0 + Z.of_nat L)) as [D|D].
    + rewrite list_lookup_fmap, lookup_seq_lt by lia. simpl.
      rewrite Nat2Z.id. reflexivity.
    + rewrite (proj1 (lookup_replicate_None L 0 j)) by lia.
      symmetry. apply lookup_ge_None. rewrite length_map, length_seq. lia.
Qed.

Lemma combined_length m L : length (combined m L) = L.
Proof. unfold combined. now rewrite length_map, length_seq. Qed.

(** Concrete byte lists and readers are checked element by element. *)
Ltac bytes_tac :=
  repeat (apply Forall_cons; split;
          [first [exact I | simpl; unfold is_byte; lia]|]);
  apply Forall_nil_2.

(** ** Shares produced by [Split] *)

Lemma shares_inv_lookup n polys (m : shares_map) y v :
  shares_inv n polys m -> m !! y = Some v ->
  1 <= y <= n /\ polys <> [] /\ v = share_for polys y.
Proof.
  intros Hinv Hy. rewrite (Hinv y) in Hy.
  destruct (decide _) as [[? ?]|]; inversion Hy; auto.
Qed.

Lemma poly_for_bytes k secret polys :
  Forall2 (poly_for k) secret polys -> Forall bytes polys.
Proof. induction 1 as [|b p s ps (Hb & _) _ IH]; constructor; auto. Qed.

Lemma share_for_bytes polys y :
  Forall bytes polys -> is_byte y -> bytes (share_for polys y).
Proof.
  intros Hp Hy. unfold share_for. induction Hp; simpl; constructor; auto.
  rewrite eval_horner. gf.
Qed.

Lemma shares_inv_share_set n k secret polys (m sub : shares_map) :
  is_byte n -> Forall2 (poly_for k) secret polys -> shares_inv n polys m ->
  sub ⊆ m -> share_set sub (length secret).
Proof.
  intros Hn HF Hinv Hsub y v Hy.
  eapply lookup_weaken in Hy; [|exact Hsub].
  destruct (shares_inv_lookup _ _ _ _ _ Hinv Hy) as (Hr & _ & ->).
  assert (By : is_byte y) by (unfold is_byte in *; lia).
  split; [exact By|]. split.
  - apply share_for_bytes; [eapply poly_for_bytes; eauto|exact By].
  - unfold share_for. rewrite length_map. symmetry. eapply Forall2_length; eauto.
Qed.

Lemma combined_roundtrip n k secret polys (m sub : shares_map) :
  is_byte n -> 2 <= k -> Forall2 (poly_for k) secret polys ->
  shares_inv n polys m -> sub ⊆ m -> (Z.to_nat k <= size sub)%nat ->
  combined sub (length secret) = secret.
Proof.
  intros Hn Hk HF Hinv Hsub Hsize.
  pose proof (shares_inv_share_set _ _ _ _ _ _ Hn HF Hinv Hsub) as Hset.
  apply list_eq. intros i. unfold combined.
  rewrite list_lookup_fmap.
  destruct (decide (i < length secret)%nat) as [Hi|Hi].
  2:{ rewrite lookup_seq_ge by lia. symmetry. apply lookup_ge_None. lia. }
  rewrite lookup_seq_lt by lia. simpl.
  destruct (lookup_lt_is_Some_2 secret i Hi) as [b Hb]. rewrite Hb. f_equal.
  destruct (Forall2_lookup_l _ _ _ _ _ HF Hb) as (p & Hp & Bp & Lp & P0 & _).
  destruct (column_ok sub (length secret) (map_to_list sub) i Hset
              (reflexivity _) Hi) as [Hok Hnd].
  rewrite (lagrange_exact _ p); auto using is_byte_0.
  - rewrite horner_at_0 by exact Bp.
    apply index_Some in P0 as [_ P0]. now apply nth_lookup_Some.
  - rewrite column_length, length_map_to_list. unfold len in Lp. lia.
  - intros a Ha. apply list_elem_of_In, in_map_iff in Ha as ([y v] & <- & Hkv).
    apply list_elem_of_In, elem_of_map_to_list in Hkv. simpl.
    eapply lookup_weaken in Hkv; [|exact Hsub].
    destruct (shares_inv_lookup _ _ _ _ _ Hinv Hkv) as (_ & _ & ->).
    unfold share_for.
    rewrite (nth_indep _ 0 (eval [] y)) by (rewrite length_map; apply lookup_lt_Some in Hp; lia).
    rewrite (map_nth (fun p => eval p y)), eval_horner.
    f_equal. now apply nth_lookup_Some.
Qed.

(** X16. Whenever [Split n k S] returns a share map, [Combine] of every
    sub-map with at least [k] shares returns exactly [S], whichever shares
    are chosen and in whatever order Go enumerates them. *)
Theorem Split_Combine_roundtrip fuel n k secret ran m ran' (sub : shares_map) ord :
  is_byte n -> is_byte k -> bytes secret -> reader_ok ran ->
  Split fuel n k secret ran = Done ((Some m, None), ran') ->
  sub ⊆ m -> (Z.to_nat k <= size sub)%nat ->
  Combine ord sub = Done secret.
Proof.
  intros Hn Hk Hs Hok HS Hsub Hsize.
  destruct (Split_Some _ _ _ _ _ _ _ HS Hn Hk Hs Hok)
    as (Hkn & polys & HF & Hinv & _ & _).
  assert (Hne : sub <> ∅).
  { intros ->. rewrite map_size_empty in Hsize. lia. }
  rewrite (Combine_share_set ord sub (length secret)).
  - f_equal. apply (combined_roundtrip n k secret polys m sub); auto. lia.
  - apply (shares_inv_share_set n k secret polys m sub); auto.
  - exact Hne.
Qed.

Lemma demo_stream_ok : reader_ok demo_stream.
Proof. unfold reader_ok, demo_stream. simpl. bytes_tac. Qed.

Lemma Split_Combine_roundtrip_witness :
  Combine rev_order (delete 2 demo_shares) = Done [42; 43].
Proof.
  apply (Split_Combine_roundtrip 10 3 2 [42; 43] demo_stream demo_shares
           (map Byte [200; 13; 0; 0; 5; 77; 1; 2; 3])).
  - unfold is_byte. lia.
  - unfold is_byte. lia.
  - unfold bytes. bytes_tac.
  - exact demo_stream_ok.
  - vm_compute. reflexivity.
  - apply delete_subseteq.
  - vm_compute. lia.
Defined.

(** ** Validation *)

Lemma generate_lead_Err : forall fuel degree result ran e ran',
  generate_lead fuel degree result ran = Done (Err e, ran') ->
  exists io, e = ErrRead io.
Proof.
  induction fuel as [|fuel IH]; intros degree result ran e ran' H; [discriminate|].
  rewrite generate_lead_step in H. destruct ran as [|[c|io] ran1].
  - inversion H. eauto.
  - destruct (negb (c =? 0)); [|eauto].
    destruct (store result degree c); inversion H.
  - inversion H. eauto.
Qed.

Lemma generate_Err fuel degree x ran e ran' :
  generate fuel degree x ran = Done (Err e, ran') -> exists io, e = ErrRead io.
Proof.
  unfold generate. intros H.
  apply bind_Done in H as (r0 & ran0 & _ & H).
  apply bind_Done in H as (r1 & ran1 & _ & H).
  apply bind_Done in H as (rd & ran2 & _ & H).
  destruct rd as [buf|io].
  - apply bind_Done in H as (r3 & ran3 & _ & H).
    eapply generate_lead_Err; eauto.
  - apply ret_Done in H as [H _]. inversion H. eauto.
Qed.

Lemma Split_loop_errors : forall secret fuel n k sh ran mo e ran',
  Split_loop fuel n k secret sh ran = Done ((mo, Some e), ran') ->
  mo = None /\ exists io, e = ErrRead io.
Proof.
  induction secret as [|b secret IH]; intros fuel n k sh ran mo e ran' H.
  - apply ret_Done in H as [H _]. discriminate.
  - cbn [Split_loop] in H.
    apply bind_Done in H as (g & ran1 & Hg & H). destruct g as [p|e0].
    + apply bind_Done in H as (sh1 & ran2 & _ & H). eapply IH; eauto.
    + apply ret_Done in H as [H _]. inversion H; subst. split; [reflexivity|].
      eapply generate_Err; eauto.
Qed.

(** C3. [Split] returns [ErrInvalidThreshold] exactly when [k <= 1] and,
    for [k > 1], [ErrInvalidCount] exactly when [n < k]; both are returned
    with a nil share map and with the random source untouched. *)
Theorem Split_validation fuel n k secret ran :
  (k <= 1 <->
   exists mo ran', Split fuel n k secret ran = Done ((mo, Some ErrInvalidThreshold), ran'))
  /\ (1 < k ->
      (n < k <->
       exists mo ran', Split fuel n k secret ran = Done ((mo, Some ErrInvalidCount), ran')))
  /\ (forall mo e ran',
        Split fuel n k secret ran = Done ((mo, Some e), ran') -> mo = None)
  /\ (forall mo e ran',
        Split fuel n k secret ran = Done ((mo, Some e), ran') ->
        e = ErrInvalidThreshold \/ e = ErrInvalidCount -> ran' = ran).
Proof.
  unfold Split.
  destruct (Z.leb_spec k 1) as [Hk|Hk]; [|destruct (Z.ltb_spec n k) as [Hn|Hn]].
  - split; [split; [eauto|lia]|]. split; [lia|].
    split; intros mo e ran' H; apply ret_Done in H as [H ->]; inversion H; auto.
  - split.
    { split; [lia|]. intros (mo & ran' & H). apply ret_Done in H as [H _].
      discriminate. }
    split; [intros _; split; [eauto|lia]|].
    split; intros mo e ran' H; apply ret_Done in H as [H ->]; inversion H; auto.
  - split.
    { split; [lia|]. intros (mo & ran' & H).
      apply Split_loop_errors in H as (_ & io & ?). discriminate. }
    split.
    { intros _. split; [lia|]. intros (mo & ran' & H).
      apply Split_loop_errors in H as (_ & io & ?). discriminate. }
    split; intros mo e ran' H.
    + now apply Split_loop_errors in H as (-> & _).
    + apply Split_loop_errors in H as (_ & io & ->). intros [?|?]; discriminate.
Qed.

(** ** Horner's scheme *)

(** C7. For a non-empty coefficient list, [eval] runs Horner's scheme from
    the highest coefficient down to the constant term, its value is the sum
    of the [p[i] * x^i], and it calls [mul] once per coefficient. *)
Theorem eval_horner_scheme p x :
  p <> [] -> bytes p -> is_byte x ->
  eval p x = fold_left (fun result c => add (mul result x) c) (rev p) 0
  /\ eval p x = gsum (imap (fun i c => mul c (gpow x i)) p)
  /\ eval_cost p x = (eval p x, length p).
Proof.
  intros _ Hp Hx. split; [apply eval_fold|].
  split; [|apply eval_cost_spec].
  rewrite eval_horner. now apply horner_sum.
Qed.

Lemma eval_horner_scheme_witness :
  eval [1; 2; 3] 2 = fold_left (fun result c => add (mul result 2) c) (rev [1; 2; 3]) 0
  /\ eval [1; 2; 3] 2 = gsum (imap (fun i c => mul c (gpow 2 i)) [1; 2; 3])
  /\ eval_cost [1; 2; 3] 2 = (eval [1; 2; 3] 2, 3%nat).
Proof.
  apply (eval_horner_scheme [1; 2; 3] 2).
  - discriminate.
  - unfold bytes. bytes_tac.
  - unfold is_byte. lia.
Defined.

(** ** Order of the shares *)

(** C6. Interpolation over points with distinct share IDs returns the same
    value for every permutation of the points, and so [Combine] returns the
    same bytes under every enumeration order of a share set. *)
Theorem interpolate_order_independent pts pts' x (m : shares_map) L ord ord' :
  pts ≡ₚ pts' -> points_ok pts -> NoDup (map px pts) -> is_byte x ->
  share_set m L ->
  (exists v, interpolate pts x = Some v /\ interpolate pts' x = Some v)
  /\ Combine ord m = Combine ord' m.
Proof.
  intros HP Hok Hnd Hx Hm. split.
  - exists (lagrange pts x). split; [now apply interpolate_lagrange|].
    rewrite interpolate_lagrange; auto.
    + f_equal. symmetry. now apply lagrange_perm.
    + unfold points_ok. now rewrite <- HP.
    + now rewrite <- HP.
  - destruct (decide (m = ∅)) as [->|Hne].
    + now rewrite !Combine_empty.
    + now rewrite !(Combine_share_set _ m L).
Qed.

Lemma interpolate_order_independent_witness :
  (exists v, interpolate [mkxy 1 45; mkxy 3 35] 0 = Some v /\
             interpolate [mkxy 3 35; mkxy 1 45] 0 = Some v)
  /\ Combine id_order demo_shares = Combine rev_order demo_shares.
Proof.
  apply (interpolate_order_independent
           [mkxy 1 45; mkxy 3 35] [mkxy 3 35; mkxy 1 45] 0 demo_shares 2).
  - apply perm_swap.
  - unfold points_ok, point_ok. repeat (apply Forall_cons; split;
      [simpl; unfold is_byte; lia|]). apply Forall_nil_2.
  - simpl. apply NoDup_cons. split; [|apply NoDup_singleton].
    intros H. apply list_elem_of_singleton in H. discriminate.
  - unfold is_byte. lia.
  - intros y v H. apply elem_of_map_to_list in H.
    vm_compute in H.
    repeat (apply elem_of_cons in H as [H|H];
            [inversion H; subst; unfold is_byte, bytes; split; [lia|];
             split; [bytes_tac|reflexivity]|]).
    inversion H.
Defined.

(** ** Shape of the share map *)

Lemma shares_inv_shape n polys (m : shares_map) :
  0 <= n -> polys <> [] -> shares_inv n polys m ->
  (forall x, is_Some (m !! x) <-> 1 <= x <= n) /\ size m = Z.to_nat n.
Proof.
  intros Hn Hne Hinv.
  assert (Hdom : forall x, is_Some (m !! x) <-> 1 <= x <= n).
  { intros x. rewrite (Hinv x). destruct (decide _) as [[? _]|N].
    - split; [auto|eauto].
    - split; [intros [? H]; discriminate|intros; exfalso; apply N; auto]. }
  split; [exact Hdom|].
  rewrite <- (size_dom (D := gset Z)).
  assert (E : dom m = list_to_set (seqZ 1 n)).
  { apply set_eq. intros x.
    rewrite elem_of_dom, elem_of_list_to_set, elem_of_seqZ, Hdom. lia. }
  rewrite E, size_list_to_set by apply NoDup_seqZ. apply length_seqZ.
Qed.

(** X17. For a non-empty secret, the map [Split] returns has exactly the
    keys 1..n, each holding [len(S)] bytes; for the empty secret it is the
    empty map. *)
Theorem Split_share_map_shape fuel n k secret ran m ran' :
  is_byte n -> is_byte k -> bytes secret -> reader_ok ran ->
  Split fuel n k secret ran = Done ((Some m, None), ran') ->
  (secret <> [] ->
   (forall x, is_Some (m !! x) <-> 1 <= x <= n) /\ size m = Z.to_nat n /\
   forall x v, m !! x = Some v -> length v = length secret)
  /\ (secret = [] -> m = ∅).
Proof.
  intros Hn Hk Hs Hok HS.
  destruct (Split_Some _ _ _ _ _ _ _ HS Hn Hk Hs Hok)
    as (Hkn & polys & HF & Hinv & _ & _).
  pose proof (Forall2_length _ _ _ HF) as Hlen. split.
  - intros Hne.
    assert (Hp : polys <> []) by (destruct polys, secret; simpl in *; congruence).
    destruct (shares_inv_shape n polys m) as [Hdom Hsize]; auto; [lia|].
    split; [exact Hdom|]. split; [exact Hsize|].
    intros x v Hx. destruct (shares_inv_lookup _ _ _ _ _ Hinv Hx) as (_ & _ & ->).
    unfold share_for. rewrite length_map. lia.
  - intros ->. apply map_empty. intros x. rewrite (Hinv x).
    destruct polys; [|discriminate].
    destruct (decide _) as [[_ N]|]; [contradiction|reflexivity].
Qed.

Lemma Split_share_map_shape_witness :
  ([42; 43] <> [] ->
   (forall x, is_Some (demo_shares !! x) <-> 1 <= x <= 3) /\
   size demo_shares = Z.to_nat 3 /\
   forall x v, demo_shares !! x = Some v -> length v = length [42; 43])
  /\ ([42; 43] = [] -> demo_shares = ∅).
Proof.
  apply (Split_share_map_shape 10 3 2 [42; 43] demo_stream demo_shares
           (map Byte [200; 13; 0; 0; 5; 77; 1; 2; 3])).
  - unfold is_byte. lia.
  - unfold is_byte. lia.
  - unfold bytes. bytes_tac.
  - exact demo_stream_ok.
  - vm_compute. reflexivity.
Defined.

(** ** [Split] with 255 shares, [Split] of the empty secret *)

Lemma for_byte_le_255_Spin {S} (body : Z -> S -> exec S) :
  (forall j t, exists t', body j t = Done t') ->
  forall fuel x s, is_byte x -> for_byte_le fuel x 255 body s = Spin.
Proof.
  intros Hbody. induction fuel as [|fuel IH]; intros x s Hx; [reflexivity|].
  cbn [for_byte_le]. destruct (Z.leb_spec x 255) as [_|Hgt]; [|unfold is_byte in Hx; lia].
  destruct (Hbody x s) as [t' ->]. cbn [exec_bind]. apply IH, to_byte_is_byte.
Qed.

Lemma Split_255_demo fuel : Split fuel 255 2 [42] demo_stream = Spin.
Proof.
  destruct fuel as [|fuel]; [reflexivity|].
  unfold Split. cbn [Z.leb Z.ltb Z.compare Pos.compare Pos.compare_cont Split_loop].
  assert (G : generate (Datatypes.S fuel) (to_byte (2 - 1)) 42 demo_stream
              = Done (Ok [42; 7], map Byte [0; 9; 200; 13; 0; 0; 5; 77; 1; 2; 3])).
  { unfold generate, bind, lift, read_full.
    change (to_byte (2 - 1)) with 1. change (to_byte (1 + 1)) with 2.
    change (to_byte (1 - 1)) with 0.
    cbv -[generate_lead]. rewrite generate_lead_step. reflexivity. }
  unfold bind at 1. rewrite G. unfold bind, lift.
  rewrite for_byte_le_255_Spin; [reflexivity| |unfold is_byte; lia].
  intros j t. unfold append_share. eauto.
Qed.

Lemma Split_255_no_map fuel k secret ran m e ran' :
  secret <> [] -> Split fuel 255 k secret ran <> Done ((Some m, e), ran').
Proof.
  intros Hne H. unfold Split in H.
  destruct (k <=? 1); [apply ret_Done in H as [H _]; discriminate|].
  destruct (255 <? k); [apply ret_Done in H as [H _]; discriminate|].
  destruct secret as [|b secret]; [contradiction|]. cbn [Split_loop] in H.
  apply bind_Done in H as (g & ran1 & _ & H).
  destruct g as [p|e0]; [|apply ret_Done in H as [H _]; discriminate].
  apply bind_Done in H as (sh & ran2 & L & _). apply lift_Done in L as [L _].
  eapply for_byte_le_255; [|exact L]. unfold is_byte. lia.
Qed.

(** C1 (the code at the failing input). With [n = 255], a share count that
    the doc comment of [Split] allows ("share IDs (1-255)"), the byte
    counter of the share loop wraps from 255 to 0 and the loop cannot end:
    [Split] does not return, whatever the threshold, the non-empty secret
    and the random source, so there is no share to combine. *)
Theorem Split_255_never_returns :
  (forall fuel, Split fuel 255 2 [42] demo_stream = Spin)
  /\ (forall fuel k secret ran m e ran',
        secret <> [] -> Split fuel 255 k secret ran <> Done ((Some m, e), ran')).
Proof.
  split; [exact Split_255_demo|].
  intros fuel k secret ran m e ran'. apply Split_255_no_map.
Qed.

(** C2 (the code at the failing inputs). For the empty secret [Split]
    returns a map without any key, where its siblings [SplitNew] and
    [SplitParallel] return the keys 1..n with empty shares; and with
    [n = 255] and a non-empty secret [Split] does not return a map at all. *)
Theorem Split_empty_secret_and_255 :
  (forall fuel n k ran,
     1 < k -> k <= n -> Split fuel n k [] ran = Done ((Some ∅, None), ran))
  /\ SplitNew 10 3 2 [] demo_stream
     = Done ((Some (list_to_map [(1, []); (2, []); (3, [])]), None), demo_stream)
  /\ SplitParallel 10 3 2 [] [] id_shuffle 1 demo_stream
     = Done ((Some (list_to_map [(1, []); (2, []); (3, [])]), None), demo_stream)
  /\ (forall fuel, Split fuel 255 2 [42] demo_stream = Spin).
Proof.
  split.
  { intros fuel n k ran Hk Hn. unfold Split.
    destruct (Z.leb_spec k 1); [lia|]. destruct (Z.ltb_spec n k); [lia|].
    reflexivity. }
  split; [vm_compute; reflexivity|]. split; [vm_compute; reflexivity|].
  exact Split_255_demo.
Qed.

(** ** Share lengths *)

Lemma demo_shares_set : share_set demo_shares 2.
Proof.
  intros y v H. apply elem_of_map_to_list in H. vm_compute in H.
  repeat (apply elem_of_cons in H as [H|H];
          [inversion H; subst; unfold is_byte, bytes; split; [lia|];
           split; [bytes_tac|reflexivity]|]).
  inversion H.
Qed.

(** C9. On a non-empty map whose shares all have length [L], [Combine]
    returns (no index goes out of range) a sequence of length [L]; on the
    empty map it returns the empty sequence; with shares of unequal length
    the outcome depends on the share enumerated first: a short first share
    gives a short result, a long one runs off the end of a shorter share. *)
Theorem Combine_equal_length ord (m : shares_map) L :
  share_set m L -> m <> ∅ ->
  (exists out, Combine ord m = Done out /\ length out = L)
  /\ Combine ord ∅ = Done []
  /\ (exists out, Combine id_order uneven_shares = Done out /\ length out = 1%nat)
  /\ Combine rev_order uneven_shares = Panic.
Proof.
  intros Hm Hne. split.
  - exists (combined m L). split; [now apply Combine_share_set|apply combined_length].
  - split; [apply Combine_empty|]. split.
    + exists [246]. split; [vm_compute|]; reflexivity.
    + vm_compute. reflexivity.
Qed.

Lemma Combine_equal_length_witness :
  (exists out, Combine rev_order demo_shares = Done out /\ length out = 2%nat)
  /\ Combine rev_order ∅ = Done []
  /\ (exists out, Combine id_order uneven_shares = Done out /\ length out = 1%nat)
  /\ Combine rev_order uneven_shares = Panic.
Proof.
  apply (Combine_equal_length rev_order demo_shares 2).
  - exact demo_shares_set.
  - intros E. apply (f_equal size) in E. vm_compute in E. discriminate.
Defined.

(** ** [generateRand] *)

Lemma generateRand_lead_step fuel nextDegree result ran :
  generateRand_lead (Datatypes.S fuel) nextDegree result ran =
  match index result nextDegree with
  | None => Panic
  | Some v =>
      if negb (v =? 0) then Done (Ok result, ran)
      else
        match slice result [] nextDegree (nextDegree + 1) with
        | None => Panic
        | Some _ =>
            match ran with
            | [] => Done (Err (ErrRead EOF), [])
            | Fault e :: ran' => Done (Err (ErrRead e), ran')
            | Byte b :: ran' =>
                match store result nextDegree b with
                | None => Panic
                | Some result' => generateRand_lead fuel nextDegree result' ran'
                end
            end
        end
  end.
Proof.
  cbn [generateRand_lead]. unfold bind, lift, ret, read_full.
  destruct (index result nextDegree) as [v|]; [|reflexivity].
  cbn [of_option]. destruct (negb (v =? 0)); [reflexivity|].
  destruct (slice result [] nextDegree (nextDegree + 1)); [|reflexivity].
  cbn [of_option]. rewrite ReadFull_one.
  destruct ran as [|[b|e] ran']; try reflexivity.
  unfold index. change (Z.to_nat 0) with O. cbn.
  destruct (store result nextDegree b); reflexivity.
Qed.

Lemma generateRand_lead_Ok : forall fuel nd result ran p ran',
  generateRand_lead fuel nd result ran = Done (Ok p, ran') ->
  bytes result -> reader_ok ran ->
  length p = length result /\ bytes p /\ reader_ok ran' /\
  (exists l, index p nd = Some l /\ l <> 0) /\
  (forall j : nat, j <> Z.to_nat nd -> p !! j = result !! j).
Proof.
  induction fuel as [|fuel IH]; intros nd result ran p ran' H Hb Hok;
    [discriminate|].
  rewrite generateRand_lead_step in H.
  destruct (index result nd) as [v|] eqn:Ev; [|discriminate].
  destruct (Z.eqb_spec v 0) as [->|Nv]; cbn [negb] in H.
  - destruct (slice result [] nd (nd + 1)); [|discriminate].
    destruct ran as [|[b|e] ran1]; try discriminate.
    apply Forall_cons in Hok as [Hbb Hok]. simpl in Hbb.
    destruct (store result nd b) as [r1|] eqn:Es; [|discriminate].
    apply store_Some in Es as [Hr ->].
    apply IH in H as (L & B & O & N & Hj); auto using bytes_insert.
    rewrite length_insert in L. repeat split; auto.
    intros j Hne. rewrite Hj by exact Hne. now apply list_lookup_insert_ne.
  - inversion H; subst. repeat split; auto. eauto.
Qed.

Lemma generateRand_rows_Ok k : forall secret fuel start result ran p ran',
  generateRand_rows fuel k (k - 1) secret start result ran = Done (Ok p, ran') ->
  2 <= k -> 0 <= start -> bytes secret -> bytes result -> reader_ok ran ->
  length p = length result /\ bytes p /\ reader_ok ran' /\
  (forall j : nat, Z.of_nat j < start -> p !! j = result !! j) /\
  (forall (i : nat) b, secret !! i = Some b ->
     index p (start + Z.of_nat i * k) = Some b /\
     exists l, index p (start + Z.of_nat i * k + k - 1) = Some l /\ l <> 0).
Proof.
  induction secret as [|b secret IH];
    intros fuel start result ran p ran' H Hk Hs Hsec Hb Hok.
  - apply ret_Done in H as [H ->]. inversion H; subst.
    split; [reflexivity|]. split; [exact Hb|]. split; [exact Hok|].
    split; [reflexivity|]. intros i c Hi. inversion Hi.
  - cbn [generateRand_rows] in H. apply Forall_cons in Hsec as [Hbb Hsec].
    apply bind_Done in H as (r1 & ran1 & H1 & H).
    apply lift_Done in H1 as [H1 ->]. apply of_option_Done, store_Some in H1 as [Hr ->].
    apply bind_Done in H as (g & ran2 & H2 & H).
    destruct g as [r2|e]; [|apply ret_Done in H as [H _]; discriminate].
    apply generateRand_lead_Ok in H2 as (L2 & B2 & O2 & (l & Hl & Nl) & Hj2);
      auto using bytes_insert.
    rewrite length_insert in L2.
    apply IH in H as (L & B & O & Hlow & Hrows); auto; [|lia].
    split; [lia|]. split; [exact B|]. split; [exact O|]. split.
    + intros j Hj. rewrite Hlow by lia. rewrite Hj2 by lia.
      apply list_lookup_insert_ne. lia.
    + intros [|i] c Hi.
      * inversion Hi; subst c. simpl (Z.of_nat 0 * k). rewrite Z.add_0_r.
        split.
        -- unfold index. destruct (Z.ltb_spec start 0); [lia|].
           rewrite Hlow by lia. rewrite Hj2 by lia.
           apply list_lookup_insert_eq. unfold len in Hr. lia.
        -- exists l. split; [|exact Nl].
           apply index_Some in Hl as [Hl0 Hl]. unfold index.
           replace (start + (k - 1)) with (start + k - 1) in * by lia.
           destruct (Z.ltb_spec (start + k - 1) 0); [lia|].
           rewrite Hlow by lia. exact Hl.
      * destruct (Hrows i c Hi) as [Hc Hlead].
        replace (start + Z.of_nat (Datatypes.S i) * k)
          with (start + k + Z.of_nat i * k) by lia.
        split; [exact Hc|exact Hlead].
Qed.

Lemma generateRand_Ok fuel k secret ran p ran' :
  generateRand fuel k secret ran = Done (Ok p, ran') ->
  2 <= k <= 255 -> bytes secret -> reader_ok ran ->
  len p = k * len secret /\ bytes p /\ reader_ok ran' /\
  forall (i : nat) b, secret !! i = Some b ->
    index p (Z.of_nat i * k) = Some b /\
    exists l, index p (Z.of_nat i * k + k - 1) = Some l /\ l <> 0.
Proof.
  intros H Hk Hs Hok. unfold generateRand in H.
  rewrite to_byte_id in H by (unfold is_byte; lia).
  apply bind_Done in H as (rd & ran1 & H1 & H).
  apply read_full_Done in H1. pose proof (ReadFull_ok _ _ _ _ H1 Hok) as Hok1.
  destruct rd as [buf|e]; [|apply ret_Done in H as [H _]; discriminate].
  apply ReadFull_inl in H1 as [-> Lbuf]. apply reader_ok_app in Hok as [Bbuf _].
  apply generateRand_rows_Ok in H as (L & B & O & _ & Hrows); auto; try lia.
  split; [unfold len in *; lia|]. split; [exact B|]. split; [exact O|].
  intros i b Hi. destruct (Hrows i b Hi) as [H1 H2].
  rewrite Z.add_0_l in H1, H2. auto.
Qed.

(** C8. The generators are called with a threshold [2 <= k <= 255] only
    (every caller returns [ErrInvalidThreshold] first), so [generate] gets a
    degree [k-1] between 1 and 254.  A polynomial returned by [generate] has
    [degree+1] coefficients, the constant term at index 0 and a nonzero
    coefficient at index [degree]; the buffer returned by [generateRand]
    has, in every row [i], [secret[i]] at index [i*k] and a nonzero byte at
    index [i*k+k-1]. *)
Theorem generators_shape fuel degree x k secret ran p ran' q ran'' :
  is_byte x -> bytes secret -> reader_ok ran ->
  1 <= degree <= 254 -> 2 <= k <= 255 ->
  (generate fuel degree x ran = Done (Ok p, ran') ->
   len p = degree + 1 /\ index p 0 = Some x /\
   exists lead, index p degree = Some lead /\ lead <> 0)
  /\ (generateRand fuel k secret ran = Done (Ok q, ran'') ->
      len q = k * len secret /\
      forall (i : nat) b, secret !! i = Some b ->
        index q (Z.of_nat i * k) = Some b /\
        exists lead, index q (Z.of_nat i * k + k - 1) = Some lead /\ lead <> 0).
Proof.
  intros Hx Hs Hok Hd Hk. split; intros H.
  - apply generate_Ok in H as (L & P0 & Pl & _); auto.
  - apply generateRand_Ok in H as (L & _ & _ & Hrows); auto.
Qed.

Lemma generators_shape_witness :
  (generate 10 2 42 demo_stream =
     Done (Ok [42; 7; 9], map Byte [200; 13; 0; 0; 5; 77; 1; 2; 3]) ->
   len [42; 7; 9] = 2 + 1 /\ index [42; 7; 9] 0 = Some 42 /\
   exists lead, index [42; 7; 9] 2 = Some lead /\ lead <> 0)
  /\ (generateRand 10 2 [42; 43] demo_stream =
        Done (Ok [42; 13; 43; 200], map Byte [0; 0; 5; 77; 1; 2; 3]) ->
      len [42; 13; 43; 200] = 2 * len [42; 43] /\
      forall (i : nat) b, [42; 43] !! i = Some b ->
        index [42; 13; 43; 200] (Z.of_nat i * 2) = Some b /\
        exists lead, index [42; 13; 43; 200] (Z.of_nat i * 2 + 2 - 1) = Some lead
                     /\ lead <> 0).
Proof.
  apply (generators_shape 10 2 42 2 [42; 43] demo_stream).
  - unfold is_byte. lia.
  - unfold bytes. bytes_tac.
  - exact demo_stream_ok.
  - lia.
  - lia.
Defined.

(** The runs the witness is about do happen. *)
Example generate_demo :
  generate 10 2 42 demo_stream =
  Done (Ok [42; 7; 9], map Byte [200; 13; 0; 0; 5; 77; 1; 2; 3]).
Proof. vm_compute. reflexivity. Qed.

Example generateRand_demo :
  generateRand 10 2 [42; 43] demo_stream =
  Done (Ok [42; 13; 43; 200], map Byte [0; 0; 5; 77; 1; 2; 3]).
Proof. vm_compute. reflexivity. Qed.

(** Outside these calls: at degree 0, which no caller passes, the leading
    coefficient is the constant term, and [generate] overwrites the constant
    term 5 with the nonzero byte it draws (after the 255 bytes that the
    wrapped length [degree-1] makes it read). *)
Lemma generate_degree_0_overwrites :
  generate 10 0 5 (replicate 255 (Byte 0) ++ [Byte 9]) = Done (Ok [9], [])
  /\ index [9] 0 <> Some 5.
Proof. split; [vm_compute; reflexivity|discriminate]. Qed.

(** Likewise with [k = 1], a zero secret byte is replaced by a drawn byte
    (a nonzero one is kept). *)
Lemma generateRand_k_1_overwrites :
  generateRand 10 1 [0] (map Byte [0; 9]) = Done (Ok [9], [])
  /\ index [9] (0 * 1) <> Some 0.
Proof. split; [vm_compute; reflexivity|discriminate]. Qed.

(** ** Read errors in [generatePolys] *)

Lemma generatePolys_lead_exhausted : forall fuel i degree x results,
  i < len x -> generatePolys_lead fuel i degree x results [] = Spin.
Proof.
  induction fuel as [|fuel IH]; intros i degree x results Hi; [reflexivity|].
  cbn [generatePolys_lead]. destruct (Z.ltb_spec i (len x)); [|lia].
  unfold bind, read_full. rewrite ReadFull_one.
  replace (i - 1 + 1) with i by lia. apply IH, Hi.
Qed.

(** C4 (the code at the failing input). In [generatePolys], the generator
    of [SplitParallel], a read that fails while the leading coefficients are
    drawn is not reported: the loop reads again, so a transient error is
    swallowed and an exhausted source keeps the call from ever returning. *)
Theorem generatePolys_retries_failed_reads :
  generatePolys 10 1 [42] [Byte 7; Fault (ErrDevice 5); Byte 9]
    = Done (Ok [[42; 9]], [])
  /\ (forall fuel, generatePolys fuel 1 [42] [Byte 7] = Spin)
  /\ (forall fuel, SplitParallel fuel 3 2 [42] [0%nat] id_shuffle 1 [Byte 7] = Spin)
  /\ generate 10 1 42 [Fault (ErrDevice 5); Byte 9]
       = Done (Err (ErrRead (ErrDevice 5)), [Byte 9])
  /\ generateRand 10 2 [42] [Byte 7; Byte 0; Fault (ErrDevice 5); Byte 9]
       = Done (Err (ErrRead (ErrDevice 5)), [Byte 9]).
Proof.
  assert (G : forall fuel, generatePolys fuel 1 [42] [Byte 7] = Spin).
  { intros [|[|fuel]]; [reflexivity|reflexivity|].
    unfold generatePolys, bind, lift, read_full.
    change (ReadFull (1 * len [42]) [Byte 7]) with (inl [7] : list Z + io_error, @nil read_event).
    cbn -[generatePolys_lead].
    apply generatePolys_lead_exhausted. reflexivity. }
  split; [vm_compute; reflexivity|]. split; [exact G|].
  split; [|split; vm_compute; reflexivity].
  intros fuel. unfold SplitParallel. cbn [Z.leb Z.ltb Z.compare Pos.compare Pos.compare_cont].
  unfold bind. change (to_byte (2 - 1)) with 1. rewrite G. reflexivity.
Qed.

(** ** More on loops *)

(** A loop that fills a whole slice, index by index. *)
Lemma for_lt_fill {A} (body : Z -> list A -> exec (list A)) (f : Z -> A) s :
  (forall j t, 0 <= j < len s -> length t = length s ->
               body j t = of_option (store t j (f j))) ->
  for_lt 0 (len s) body s = Done (map (fun j => f (Z.of_nat j)) (seq 0 (length s))).
Proof.
  intros Hbody. unfold for_lt, len in *.
  replace (Z.to_nat (Z.of_nat (length s) - 0)) with (length s) by lia.
  destruct (iter_from_store body f (length s) 0 s) as (s' & E & L & Hs).
  - lia.
  - unfold len. lia.
  - intros j t Hj Ht. apply Hbody; [lia|exact Ht].
  - rewrite E. f_equal. apply list_eq. intros j. rewrite Hs.
    destruct (decide (0 <= Z.of_nat j < 0 + Z.of_nat (length s))) as [D|D].
    + rewrite list_lookup_fmap, lookup_seq_lt by lia. reflexivity.
    + rewrite (proj2 (lookup_ge_None s j)) by lia.
      symmetry. apply lookup_ge_None. rewrite length_map, length_seq. lia.
Qed.

Lemma iter_from_Done_each {S} (body : Z -> S -> exec S) : forall count i s r,
  iter_from count i body s = Done r ->
  forall j, i <= j < i + Z.of_nat count -> exists t t', body j t = Done t'.
Proof.
  induction count as [|count IH]; intros i s r H j Hj; [lia|].
  cbn [iter_from] in H. apply exec_bind_Done in H as (s' & Hb & H).
  destruct (Z.eq_dec j i) as [->|Hne]; [eauto|].
  eapply IH; [exact H|lia].
Qed.

Lemma iter_from_inv {S} (P : S -> Prop) (body : Z -> S -> exec S) :
  forall count i s r,
  (forall j t t', i <= j < i + Z.of_nat count -> P t -> body j t = Done t' -> P t') ->
  P s -> iter_from count i body s = Done r -> P r.
Proof.
  induction count as [|count IH]; intros i s r Hstep Hs H.
  - inversion H; subst. exact Hs.
  - cbn [iter_from] in H. apply exec_bind_Done in H as (s' & Hb & H).
    eapply (IH (i + 1)); [|eapply Hstep; [|exact Hs|exact Hb]; lia|exact H].
    intros j t t' Hj. apply Hstep. lia.
Qed.

Lemma nth_map_seq {A} (f : nat -> A) d start n j :
  (j < n)%nat -> nth j (map f (seq start n)) d = f (start + j)%nat.
Proof.
  intros Hj. rewrite (nth_indep _ d (f O)) by (rewrite length_map, length_seq; lia).
  rewrite map_nth, seq_nth by lia. reflexivity.
Qed.

Lemma for_lt_fill_n {A} (body : Z -> list A -> exec (list A)) (f : Z -> A) s n :
  n = len s ->
  (forall j t, 0 <= j < n -> length t = length s ->
               body j t = of_option (store t j (f j))) ->
  for_lt 0 n body s = Done (map (fun j => f (Z.of_nat j)) (seq 0 (length s))).
Proof. intros ->. apply for_lt_fill. Qed.

Lemma map_nth_all {A B} (g : A -> B) (l : list A) d :
  map (fun k => g (nth k l d)) (seq 0 (length l)) = map g l.
Proof.
  apply (nth_ext _ _ (g d) (g d)).
  - now rewrite !length_map, length_seq.
  - intros j Hj. rewrite length_map, length_seq in Hj.
    rewrite (nth_map_seq (fun k => g (nth k l d))) by exact Hj.
    now rewrite (map_nth g).
Qed.

(** ** [CombineParallel] *)

Section CombineParallel.

Variable m : shares_map.
Variable L : nat.
Hypothesis Hm : share_set m L.
Variable entries : list (Z * list Z).
Hypothesis Hentries : entries ≡ₚ map_to_list m.

Let newShares : list (list Z) := map snd entries.
Let indices : list Z := map fst entries.

(** Byte position [t] of every share, in the order of [entries]. *)
Definition across (es : list (Z * list Z)) (t : nat) : list Z :=
  map (fun src => nth t src 0) (map snd es).

Definition cval (t : nat) : Z := lagrange (column (map_to_list m) t) 0.

Lemma entries_elem kv : kv ∈ entries -> is_byte (fst kv) /\ length (snd kv) = L.
Proof.
  intros H. rewrite Hentries in H. destruct kv as [y v].
  apply elem_of_map_to_list in H. destruct (Hm _ _ H) as (? & _ & ?). auto.
Qed.

Lemma gather_row {B} (K : list Z -> exec B) (i j : Z) :
  0 <= i + j < Z.of_nat L ->
  (let* row := of_option (make 0 (len newShares)) in
   let* row := for_lt 0 (len newShares)
     (fun k row =>
        let* src := of_option (index newShares k) in
        let* v := of_option (index src (i + j)) in
        of_option (store row k v)) row in
   K row)
  = K (across entries (Z.to_nat (i + j))).
Proof.
  intros Hij. rewrite make_Some by (unfold len; lia). cbn [of_option exec_bind].
  rewrite (for_lt_fill_n _
             (fun k => nth (Z.to_nat (i + j)) (nth (Z.to_nat k) newShares []) 0)).
  - cbn [exec_bind]. rewrite length_replicate. unfold len. rewrite Nat2Z.id. f_equal.
    rewrite (map_ext _ (fun k => (fun src => nth (Z.to_nat (i + j)) src 0)
                                   (nth k newShares [])))
      by (intros k; now rewrite Nat2Z.id).
    rewrite (map_nth_all (fun src => nth (Z.to_nat (i + j)) src 0)).
    reflexivity.
  - unfold len. rewrite length_replicate. lia.
  - intros k t Hk _. unfold len in Hk.
    destruct (index_in_range newShares k) as [src Hsrc]; [unfold len; lia|].
    rewrite Hsrc. cbn [of_option exec_bind].
    pose proof Hsrc as Hsrc'. apply index_Some in Hsrc' as [_ Hl].
    assert (Hlen : length src = L).
    { apply list_elem_of_lookup_2 in Hl.
      apply list_elem_of_In, in_map_iff in Hl as (kv & <- & Hkv).
      apply list_elem_of_In in Hkv. now apply entries_elem. }
    destruct (index_in_range src (i + j)) as [v Hv]; [unfold len; lia|].
    rewrite Hv. cbn [of_option exec_bind]. do 2 f_equal.
    apply index_Some in Hv as [_ Hv].
    rewrite (nth_lookup_Some _ _ [] _ Hl). symmetry. now apply nth_lookup_Some.
Qed.

(** The rows handed to one worker: positions [i .. i+rows-1]. *)
Definition chunk_rows (es : list (Z * list Z)) (i : Z) (rows : nat) : list (list Z) :=
  map (fun j => across es (Z.to_nat (i + Z.of_nat j))) (seq 0 rows).

Lemma gather_chunk (i : Z) (rows : nat) :
  0 <= i -> i + Z.of_nat rows <= Z.of_nat L ->
  for_lt 0 (len (replicate rows ([] : list Z)))
    (fun j share =>
       let* row := of_option (make 0 (len newShares)) in
       let* row :=
         for_lt 0 (len newShares)
           (fun k row =>
              let* src := of_option (index newShares k) in
              let* v := of_option (index src (i + j)) in
              of_option (store row k v)) row in
       of_option (store share j row)) (replicate rows [])
  = Done (chunk_rows entries i rows).
Proof.
  intros Hi Hr.
  rewrite (for_lt_fill _ (fun j => across entries (Z.to_nat (i + j)))).
  - rewrite length_replicate. reflexivity.
  - intros j t Hj _. unfold len in Hj. rewrite length_replicate in Hj.
    apply (gather_row (fun row => of_option (store t j row))). lia.
Qed.

Lemma across_length t : length (across entries t) = length entries.
Proof. unfold across. now rewrite !length_map. Qed.

Lemma points_of_row (t : nat) :
  map (fun j => mkxy (to_byte (nth j indices 0)) (nth j (across entries t) 0))
      (seq 0 (length entries))
  = column entries t.
Proof.
  unfold indices, across, column.
  set (d := (0, []) : Z * list Z).
  rewrite <- (map_nth_all (fun kv => mkxy (fst kv) (nth t (snd kv) 0)) entries d).
  apply map_ext_in. intros j Hj. apply in_seq in Hj.
  assert (Hin : nth j entries d ∈ entries)
    by (apply list_elem_of_In, nth_In; lia).
  destruct (entries_elem _ Hin) as [Hb _].
  assert (E1 : nth j (map fst entries) 0 = fst (nth j entries d))
    by apply (map_nth fst entries d j).
  assert (E2 : nth j (map (fun src => nth t src 0) (map snd entries)) 0
               = nth t (snd (nth j entries d)) 0).
  { rewrite map_map.
    rewrite (nth_indep _ 0 ((fun kv : Z * list Z => nth t (snd kv) 0) d))
      by (rewrite length_map; lia).
    apply (map_nth (fun kv : Z * list Z => nth t (snd kv) 0)). }
  rewrite E1, E2, to_byte_id by exact Hb. reflexivity.
Qed.

Lemma CombineConcur_chunk (i : Z) (rows : nat) :
  0 <= i -> i + Z.of_nat rows <= Z.of_nat L ->
  CombineConcur (chunk_rows entries i rows) i indices
  = Done (mkData (map (fun r => cval (Z.to_nat (i + Z.of_nat r))) (seq 0 rows)) i).
Proof.
  intros Hi Hr. unfold CombineConcur.
  assert (Lc : length (chunk_rows entries i rows) = rows)
    by (unfold chunk_rows; now rewrite length_map, length_seq).
  rewrite make_Some by (unfold len; lia). cbn [of_option exec_bind].
  rewrite (for_lt_fill _ (fun r => cval (Z.to_nat (i + r)))).
  - cbn [exec_bind]. unfold len. rewrite Nat2Z.id, length_replicate, Lc. reflexivity.
  - intros r t Hrr _. unfold len in Hrr. rewrite Nat2Z.id, length_replicate, Lc in Hrr.
    replace (index (chunk_rows entries i rows) r)
      with (Some (across entries (Z.to_nat (i + r)))).
    2:{ symmetry. rewrite <- (Z2Nat.id r) at 1 by lia. rewrite index_lookup.
        unfold chunk_rows. rewrite list_lookup_fmap, lookup_seq_lt by lia.
        simpl. now rewrite Z2Nat.id by lia. }
    cbn [of_option exec_bind].
    rewrite make_Some by (unfold len; lia). cbn [of_option exec_bind].
    rewrite (for_lt_fill_n _
               (fun j => mkxy (to_byte (nth (Z.to_nat j) indices 0))
                              (nth (Z.to_nat j) (across entries (Z.to_nat (i + r))) 0))).
    + cbn [exec_bind]. rewrite length_replicate. unfold len.
      rewrite Nat2Z.id, across_length.
      rewrite (map_ext _ (fun j => mkxy (to_byte (nth j indices 0))
                                     (nth j (across entries (Z.to_nat (i + r))) 0)))
        by (intros j; now rewrite Nat2Z.id).
      rewrite points_of_row.
      destruct (column_ok m L entries (Z.to_nat (i + r)) Hm Hentries ltac:(lia))
        as [Hok Hnd].
      rewrite interpolate_lagrange by (auto using is_byte_0).
      cbn [of_option exec_bind]. unfold cval.
      rewrite (lagrange_perm _ (column (map_to_list m) (Z.to_nat (i + r))));
        auto using is_byte_0, column_perm.
    + unfold len. rewrite length_replicate. lia.
    + intros j pts Hj _. unfold len in Hj. rewrite across_length in Hj.
      destruct (index_in_range indices j) as [ix Hix];
        [unfold len, indices; rewrite length_map; lia|].
      destruct (index_in_range (across entries (Z.to_nat (i + r))) j) as [y Hy];
        [unfold len; rewrite across_length; lia|].
      rewrite Hix, Hy. cbn [of_option exec_bind].
      apply index_Some in Hix as [_ Hix]. apply index_Some in Hy as [_ Hy].
      rewrite (nth_lookup_Some _ _ 0 _ Hix), (nth_lookup_Some _ _ 0 _ Hy).
      reflexivity.
Qed.


(** The start positions of the chunks and the answer to each. *)
Fixpoint chunk_starts (fuel : nat) (i cpus Lz : Z) : list Z :=
  match fuel with
  | O => []
  | Datatypes.S fuel' =>
      if i <? Lz then i :: chunk_starts fuel' (i + cpus) cpus Lz else []
  end.

Definition rows_at (cpus Lz i : Z) : nat :=
  Z.to_nat (if i + cpus >=? Lz then Lz - i else cpus).

Definition chunk_of (cpus : Z) (i : Z) : Data :=
  mkData (map (fun r => cval (Z.to_nat (i + Z.of_nat r)))
              (seq 0 (rows_at cpus (Z.of_nat L) i))) i.

Lemma rows_at_bound cpus i :
  0 < cpus -> 0 <= i < Z.of_nat L ->
  i + Z.of_nat (rows_at cpus (Z.of_nat L) i) <= Z.of_nat L /\
  (0 < rows_at cpus (Z.of_nat L) i)%nat.
Proof.
  intros Hc Hi. unfold rows_at.
  destruct (Z.geb_spec (i + cpus) (Z.of_nat L)); lia.
Qed.

Lemma CombineParallel_dispatch_spec cpus : forall fuel i started,
  0 < cpus -> 0 <= i -> (Z.to_nat (Z.of_nat L - i) < fuel)%nat ->
  CombineParallel_dispatch fuel i cpus (replicate L 0) newShares indices started
  = Done (started ++ map (chunk_of cpus) (chunk_starts fuel i cpus (Z.of_nat L))).
Proof.
  induction fuel as [|fuel IH]; intros i started Hc Hi Hf; [lia|].
  cbn [CombineParallel_dispatch chunk_starts].
  unfold len at 1. rewrite length_replicate.
  destruct (Z.ltb_spec i (Z.of_nat L)) as [Hlt|Hge].
  2:{ now rewrite app_nil_r. }
  destruct (rows_at_bound cpus i Hc ltac:(lia)) as [Hb Hpos].
  replace (if i + cpus >=? len (replicate L 0)
           then of_option (make ([] : list Z) (len (replicate L 0) - i))
           else of_option (make ([] : list Z) cpus))
    with (Done (replicate (rows_at cpus (Z.of_nat L) i) ([] : list Z))).
  2:{ unfold rows_at, len. rewrite length_replicate.
      destruct (Z.geb_spec (i + cpus) (Z.of_nat L));
        rewrite make_Some by lia; reflexivity. }
  cbn [exec_bind].
  rewrite gather_chunk by lia. cbn [exec_bind].
  rewrite CombineConcur_chunk by lia. cbn [exec_bind].
  rewrite IH by lia. rewrite <- app_assoc. reflexivity.
Qed.

Lemma chunk_starts_elem cpus : forall fuel i s,
  0 < cpus -> 0 <= i -> s ∈ chunk_starts fuel i cpus (Z.of_nat L) ->
  i <= s < Z.of_nat L.
Proof.
  induction fuel as [|fuel IH]; intros i s Hc Hi Hs; cbn [chunk_starts] in Hs.
  - inversion Hs.
  - destruct (Z.ltb_spec i (Z.of_nat L)); [|inversion Hs].
    apply elem_of_cons in Hs as [->|Hs]; [lia|].
    apply IH in Hs; lia.
Qed.

Lemma chunk_starts_cover cpus : forall fuel i (t : nat),
  0 < cpus -> 0 <= i <= Z.of_nat t -> (t < L)%nat ->
  (Z.to_nat (Z.of_nat L - i) < fuel)%nat ->
  exists s, s ∈ chunk_starts fuel i cpus (Z.of_nat L) /\
            s <= Z.of_nat t < s + Z.of_nat (rows_at cpus (Z.of_nat L) s).
Proof.
  induction fuel as [|fuel IH]; intros i t Hc Hi Ht Hf; [lia|].
  cbn [chunk_starts]. destruct (Z.ltb_spec i (Z.of_nat L)); [|lia].
  destruct (decide (Z.of_nat t < i + Z.of_nat (rows_at cpus (Z.of_nat L) i))) as [D|D].
  - exists i. split; [apply elem_of_cons; auto|lia].
  - assert (Hr : rows_at cpus (Z.of_nat L) i = Z.to_nat cpus).
    { unfold rows_at in *. destruct (Z.geb_spec (i + cpus) (Z.of_nat L)); lia. }
    destruct (IH (i + cpus) t) as (s & Hs & Hcov); try lia.
    exists s. split; [apply elem_of_cons; auto|exact Hcov].
Qed.

(** A chunk that holds the right values for the positions it names. *)
Definition chunk_ok (d : Data) : Prop :=
  0 <= Data_Index d /\ Data_Index d + len (Secret d) <= Z.of_nat L /\
  forall r : nat, (r < length (Secret d))%nat ->
    Secret d !! r = Some (cval (Z.to_nat (Data_Index d + Z.of_nat r))).

Definition in_chunk (t : nat) (d : Data) : Prop :=
  Data_Index d <= Z.of_nat t < Data_Index d + len (Secret d).

Lemma chunk_of_ok cpus i : 0 < cpus -> 0 <= i < Z.of_nat L -> chunk_ok (chunk_of cpus i).
Proof.
  intros Hc Hi. destruct (rows_at_bound cpus i Hc Hi) as [Hb _].
  unfold chunk_ok, chunk_of, len. cbn [Data_Index Secret].
  rewrite length_map, length_seq. split; [lia|]. split; [lia|].
  intros r Hr. rewrite list_lookup_fmap, lookup_seq_lt by lia. reflexivity.
Qed.

End CombineParallel.

(** A counted loop that stores [f i] at index [i + off] of a slice. *)
Lemma iter_from_store_off {A} (body : Z -> list A -> exec (list A)) (f : Z -> A) off :
  forall count i s,
  0 <= i + off -> i + off + Z.of_nat count <= len s ->
  (forall j t, i <= j < i + Z.of_nat count -> length t = length s ->
               body j t = of_option (store t (j + off) (f j))) ->
  exists s', iter_from count i body s = Done s' /\ length s' = length s /\
    forall u : nat, s' !! u =
      if decide (i + off <= Z.of_nat u < i + off + Z.of_nat count)
      then Some (f (Z.of_nat u - off)) else s !! u.
Proof.
  induction count as [|count IH]; intros i s Hi Hlen Hbody.
  - exists s. split; [reflexivity|]. split; [reflexivity|].
    intros u. destruct (decide _); [lia|reflexivity].
  - cbn [iter_from]. rewrite Hbody by (try reflexivity; lia).
    rewrite store_in_range by lia. cbn [of_option exec_bind].
    destruct (IH (i + 1) (<[Z.to_nat (i + off) := f i]> s)) as (s' & E & Ls & Hs').
    + lia.
    + unfold len in *. rewrite length_insert. lia.
    + intros j t Hj Ht. rewrite length_insert in Ht. apply Hbody; [lia|exact Ht].
    + exists s'. split; [exact E|]. rewrite length_insert in Ls. split; [exact Ls|].
      intros u. rewrite Hs'. unfold len in *.
      destruct (decide (i + 1 + off <= Z.of_nat u < i + 1 + off + Z.of_nat count));
        destruct (decide (i + off <= Z.of_nat u
                          < i + off + Z.of_nat (Datatypes.S count)));
        try reflexivity; try lia.
      * assert (u = Z.to_nat (i + off)) as -> by lia.
        rewrite list_lookup_insert_eq by lia. do 2 f_equal. lia.
      * apply list_lookup_insert_ne. lia.
Qed.

Lemma CombineParallel_collect_spec (m : shares_map) (L : nat) :
  forall arrived s,
  length s = L -> Forall (chunk_ok m L) arrived ->
  exists s', CombineParallel_collect arrived s = Done s' /\ length s' = L /\
    forall t : nat,
      (Exists (in_chunk t) arrived -> s' !! t = Some (cval m t)) /\
      (~ Exists (in_chunk t) arrived -> s' !! t = s !! t).
Proof.
  induction arrived as [|d arrived IH]; intros s Hs Hok.
  - exists s. split; [reflexivity|]. split; [exact Hs|].
    intros t. split; [intros H; inversion H|reflexivity].
  - apply Forall_cons in Hok as [(H0 & Hb & Hv) Hok].
    cbn [CombineParallel_collect]. unfold for_lt.
    destruct (iter_from_store_off
                (fun i secret =>
                   let* v := of_option (index (Secret d) i) in
                   of_option (store secret (i + Data_Index d) v))
                (fun i => cval m (Z.to_nat (Data_Index d + i)))
                (Data_Index d) (Z.to_nat (len (Secret d) - 0)) 0 s)
      as (s1 & E1 & L1 & Hs1).
    + lia.
    + unfold len in *. lia.
    + intros j t Hj Ht. unfold len in Hj.
      rewrite <- (Z2Nat.id j) at 1 by lia. rewrite index_lookup.
      rewrite Hv by lia. cbn [of_option exec_bind].
      rewrite Z2Nat.id by lia. reflexivity.
    + rewrite E1. cbn [exec_bind].
      destruct (IH s1) as (s' & E & Ls & Hs'); [lia|exact Hok|].
      exists s'. split; [exact E|]. split; [exact Ls|].
      intros t. destruct (Hs' t) as [Hin Hout].
      assert (Hd : in_chunk t d -> s1 !! t = Some (cval m t)).
      { intros Hc. unfold in_chunk, len in *. rewrite Hs1.
        destruct (decide _) as [_|N]; [|lia]. do 2 f_equal. lia. }
      assert (Hnd : ~ in_chunk t d -> s1 !! t = s !! t).
      { intros Hc. unfold in_chunk, len in *. rewrite Hs1.
        destruct (decide _) as [D|_]; [|reflexivity]. exfalso. apply Hc. lia. }
      split.
      * intros Hex. destruct (decide (Exists (in_chunk t) arrived)) as [D|D].
        -- now apply Hin.
        -- rewrite Hout by exact D. apply Hd.
           apply Exists_cons in Hex as [?|?]; [assumption|contradiction].
      * intros Hnex. rewrite Hout, Hnd; [reflexivity| |];
          intros ?; apply Hnex; apply Exists_cons; auto.
Qed.

Lemma CombineParallel_share_set fuel NumCPU ord ret_order (m : shares_map) L :
  share_set m L -> m <> ∅ -> (L < fuel)%nat -> 0 < NumCPU + 10 ->
  CombineParallel fuel NumCPU ord ret_order m = Done (combined m L).
Proof.
  intros Hm Hne Hf Hc. unfold CombineParallel.
  destruct (first_enumerated ord 1 m Hne) as (y0 & v0 & e0 & -> & H0).
  destruct (Hm _ _ H0) as (_ & _ & L0). rewrite L0.
  pose proof (range_map_perm ord 0 m) as Hperm.
  rewrite (CombineParallel_dispatch_spec m L Hm _ Hperm) by lia.
  cbn [exec_bind app].
  set (chunks := map (chunk_of m L (NumCPU + 10))
                     (chunk_starts fuel 0 (NumCPU + 10) (Z.of_nat L))).
  pose proof (permute_perm ret_order chunks) as Harr.
  destruct (CombineParallel_collect_spec m L (permute ret_order chunks)
              (replicate L 0)) as (s' & E & Ls & Hs').
  - apply length_replicate.
  - rewrite Harr. apply Forall_forall. intros d Hd.
    apply list_elem_of_In, in_map_iff in Hd as (s & <- & Hs).
    apply list_elem_of_In, chunk_starts_elem in Hs; [|lia|lia].
    apply chunk_of_ok; lia.
  - rewrite E. f_equal. apply list_eq. intros t. unfold combined.
    destruct (decide (t < L)%nat) as [Ht|Ht].
    + rewrite list_lookup_fmap, lookup_seq_lt by lia. simpl.
      apply (Hs' t). rewrite Harr.
      destruct (chunk_starts_cover L (NumCPU + 10) fuel 0 t) as (s & Hs & Hcov);
        try lia.
      apply Exists_exists. exists (chunk_of m L (NumCPU + 10) s). split.
      * apply list_elem_of_In, in_map, list_elem_of_In, Hs.
      * unfold in_chunk, chunk_of, len. cbn [Data_Index Secret].
        rewrite length_map, length_seq. exact Hcov.
    + rewrite (proj2 (lookup_ge_None s' t)) by lia.
      symmetry. apply lookup_ge_None. rewrite length_map, length_seq. lia.
Qed.

Lemma CombineParallel_empty fuel NumCPU ord ret_order :
  CombineParallel (Datatypes.S fuel) NumCPU ord ret_order ∅ = Done [].
Proof.
  unfold CombineParallel.
  assert (E : forall t, range_map ord t (∅ : shares_map) = []).
  { intros t. apply Permutation_nil. symmetry.
    rewrite range_map_perm, map_to_list_empty. reflexivity. }
  rewrite !E. rewrite map_size_empty.
  assert (P : permute ret_order (@nil Data) = []).
  { apply Permutation_nil. symmetry. apply permute_perm. }
  cbn [CombineParallel_dispatch replicate map].
  change (0 <? len (@nil Z)) with false. cbn [exec_bind].
  rewrite P. reflexivity.
Qed.

(** The parallel combine returns what [Combine] returns. *)
Lemma CombineParallel_Combine fuel NumCPU ord ord' ret_order (m : shares_map) L :
  share_set m L -> (L < fuel)%nat -> 0 < NumCPU ->
  CombineParallel fuel NumCPU ord ret_order m = Combine ord' m.
Proof.
  intros Hm Hf Hc. destruct (decide (m = ∅)) as [->|Hne].
  - destruct fuel as [|fuel]; [lia|].
    now rewrite CombineParallel_empty, Combine_empty.
  - rewrite (CombineParallel_share_set _ _ _ _ m L), (Combine_share_set _ m L);
      auto. lia.
Qed.

(** ** Channel capacities *)







Lemma SplitParallel_dispatch_nonpositive cpus n p secret send :
  forall fuel i count sent r,
  cpus <= 0 -> 0 <= i < len secret ->
  SplitParallel_dispatch fuel i count cpus n p secret send sent <> Done r.
Proof.
  induction fuel as [|fuel IH]; intros i count sent r Hc Hi; [discriminate|].
  cbn [SplitParallel_dispatch].
  destruct (Z.ltb_spec i (len secret)); [|lia].
  destruct (Z.geb_spec (i + cpus) (len secret)); [lia|].
  destruct (index send count); [|discriminate]. cbn [of_option exec_bind].
  destruct (slice p [] i (i + cpus)) as [polys|] eqn:Es; [|discriminate].
  cbn [of_option exec_bind].
  destruct (slice secret [] i (i + cpus)); [|discriminate].
  cbn [of_option exec_bind].
  assert (cpus = 0).
  { unfold slice in Es. destruct (Z.leb_spec i (i + cpus)); [lia|].
    rewrite andb_false_r in Es. discriminate. }
  subst cpus. apply IH; lia.
Qed.



Lemma bind_ext {A B} (c : M A) (k1 k2 : A -> M B) ran :
  (forall a ran1, c ran = Done (a, ran1) -> k1 a ran1 = k2 a ran1) ->
  bind c k1 ran = bind c k2 ran.
Proof.
  intros H. unfold bind. destruct (c ran) as [[a ran1]| |]; auto.
Qed.




(** ** Loops that return: invariants indexed by the counter *)

Lemma iter_from_hoare {S} (I : Z -> S -> Prop) (body : Z -> S -> exec S) :
  forall count i s r,
  (forall j t t', i <= j < i + Z.of_nat count -> I j t -> body j t = Done t' ->
                  I (j + 1) t') ->
  I i s -> iter_from count i body s = Done r -> I (i + Z.of_nat count) r.
Proof.
  induction count as [|count IH]; intros i s r Hstep Hs H.
  - inversion H; subst. replace (i + Z.of_nat 0) with i by lia. exact Hs.
  - cbn [iter_from] in H. apply exec_bind_Done in H as (s' & Hb & H).
    replace (i + Z.of_nat (Datatypes.S count)) with (i + 1 + Z.of_nat count) by lia.
    eapply (IH (i + 1)); [| |exact H].
    + intros j t t' Hj. apply Hstep. lia.
    + eapply Hstep; [|exact Hs|exact Hb]. lia.
Qed.

Lemma for_lt_hoare {S} (I : Z -> S -> Prop) (body : Z -> S -> exec S) lo hi s r :
  lo <= hi ->
  (forall j t t', lo <= j < hi -> I j t -> body j t = Done t' -> I (j + 1) t') ->
  I lo s -> for_lt lo hi body s = Done r -> I hi r.
Proof.
  unfold for_lt. intros Hle Hstep Hs H.
  cut (I (lo + Z.of_nat (Z.to_nat (hi - lo))) r).
  { intros Hr. replace (lo + Z.of_nat (Z.to_nat (hi - lo))) with hi in Hr by lia.
    exact Hr. }
  eapply iter_from_hoare; [|exact Hs|exact H].
  intros j t t' Hj. apply Hstep. lia.
Qed.

Lemma for_byte_le_hoare {S} (I : Z -> S -> Prop) (body : Z -> S -> exec S) fuel n s r :
  is_byte n ->
  (forall j t t', 1 <= j <= n -> I j t -> body j t = Done t' -> I (j + 1) t') ->
  I 1 s -> for_byte_le fuel 1 n body s = Done r -> I (n + 1) r /\ n < 255.
Proof.
  intros Hn Hstep Hs H.
  pose proof (for_byte_le_Done_lt _ _ _ _ _ Hn H) as Hlt.
  split; [|exact Hlt]. unfold is_byte in Hn.
  apply for_byte_le_Done in H; [|lia|exact Hlt].
  cut (I (1 + Z.of_nat (Z.to_nat (n + 1 - 1))) r).
  { intros Hr. replace (1 + Z.of_nat (Z.to_nat (n + 1 - 1))) with (n + 1) in Hr by lia.
    exact Hr. }
  eapply iter_from_hoare; [|exact Hs|exact H].
  intros j t t' Hj. apply Hstep. lia.
Qed.

Lemma for_byte_le_inv {S} (P : S -> Prop) (body : Z -> S -> exec S) fuel n s r :
  is_byte n ->
  (forall j t t', 1 <= j <= n -> P t -> body j t = Done t' -> P t') ->
  P s -> for_byte_le fuel 1 n body s = Done r -> P r.
Proof.
  intros Hn Hstep Hs H.
  apply (for_byte_le_hoare (fun _ => P) body fuel n s r Hn Hstep Hs H).
Qed.

Lemma for_lt_inv {S} (P : S -> Prop) (body : Z -> S -> exec S) hi s r :
  (forall j t t', 0 <= j < hi -> P t -> body j t = Done t' -> P t') ->
  P s -> for_lt 0 hi body s = Done r -> P r.
Proof.
  intros Hstep Hs H. unfold for_lt in H.
  eapply iter_from_inv; [|exact Hs|exact H].
  intros j t t' Hj. apply Hstep. lia.
Qed.

(** ** [generatePolys] *)

Lemma Forall2_update {A B} (R : A -> B -> Prop) (x : list A) (t : list B) i row :
  Forall2 R x t -> (forall b, x !! i = Some b -> R b row) ->
  Forall2 R x (<[i := row]> t).
Proof.
  intros HF Hrow. apply Forall2_same_length_lookup in HF as [HL HF].
  apply Forall2_same_length_lookup. split; [now rewrite length_insert|].
  intros u b r Hb Hr. destruct (decide (i = u)) as [->|Hne].
  - rewrite list_lookup_insert_eq in Hr
      by (rewrite <- HL; eapply lookup_lt_Some; exact Hb).
    inversion Hr; subst. auto.
  - rewrite list_lookup_insert_ne in Hr by exact Hne. eauto.
Qed.

(** A row of [generatePolys] before its leading coefficient is redrawn. *)
Definition row_for (degree b : Z) (row : list Z) : Prop :=
  bytes row /\ len row = degree + 1 /\ index row 0 = Some b.

Lemma generatePolys_lead_step fuel i degree x results :
  generatePolys_lead (Datatypes.S fuel) i degree x results =
  if i <? len x
  then
    rd <- read_full 1 ;;
    match rd with
    | inr _ => generatePolys_lead fuel (i - 1 + 1) degree x results
    | inl buf =>
        b <- lift (of_option (index buf 0)) ;;
        if negb (b =? 0)
        then
          row <- lift (of_option (index results i)) ;;
          row' <- lift (of_option (store row degree b)) ;;
          results' <- lift (of_option (store results i row')) ;;
          generatePolys_lead fuel (i + 1) degree x results'
        else generatePolys_lead fuel (i - 1 + 1) degree x results
    end
  else ret (Ok results).
Proof. reflexivity. Qed.

Lemma generatePolys_lead_Ok : forall fuel i degree x results ran polys ran',
  generatePolys_lead fuel i degree x results ran = Done (Ok polys, ran') ->
  0 <= i -> reader_ok ran ->
  length polys = length results /\ reader_ok ran' /\
  forall u : nat,
    (~ (i <= Z.of_nat u < len x) /\ polys !! u = results !! u) \/
    (i <= Z.of_nat u < len x /\
     exists row b, results !! u = Some row /\ is_byte b /\ b <> 0 /\
                   0 <= degree < len row /\
                   polys !! u = Some (<[Z.to_nat degree := b]> row)).
Proof.
  induction fuel as [|fuel IH]; intros i degree x results ran polys ran' H Hi Hok;
    [discriminate|].
  rewrite generatePolys_lead_step in H.
  destruct (Z.ltb_spec i (len x)) as [Hlt|Hge].
  2:{ apply ret_Done in H as [H ->]. inversion H; subst.
      split; [reflexivity|]. split; [exact Hok|].
      intros u. left. split; [lia|reflexivity]. }
  replace (i - 1 + 1) with i in H by lia.
  apply bind_Done in H as (rd & ran1 & Hrd & H).
  apply read_full_Done in Hrd. pose proof (ReadFull_ok _ _ _ _ Hrd Hok) as Hok1.
  rewrite ReadFull_one in Hrd.
  destruct ran as [|[b|e] ran0]; inversion Hrd; subst; clear Hrd.
  - eapply IH; eauto.
  - apply Forall_cons in Hok as [Hb _]. simpl in Hb.
    apply bind_Done in H as (b' & ran2 & Hb' & H).
    apply lift_Done in Hb' as [Hb' ->]. inversion Hb'; subst b'; clear Hb'.
    destruct (Z.eqb_spec b 0) as [->|Nb]; cbn [negb] in H.
    { eapply IH; eauto. }
    apply bind_Done in H as (row & ran3 & Hrow & H).
    apply lift_Done in Hrow as [Hrow ->]. apply of_option_Done in Hrow.
    apply bind_Done in H as (row' & ran4 & Hrow' & H).
    apply lift_Done in Hrow' as [Hrow' ->].
    apply of_option_Done, store_Some in Hrow' as [Hd ->].
    apply bind_Done in H as (res' & ran5 & Hres & H).
    apply lift_Done in Hres as [Hres ->].
    apply of_option_Done, store_Some in Hres as [Hir ->].
    apply index_Some in Hrow as [_ Hrow].
    destruct (IH _ _ _ _ _ _ _ H ltac:(lia) Hok1) as (HL & Hok' & Hu).
    rewrite length_insert in HL. split; [exact HL|]. split; [exact Hok'|].
    intros u. destruct (Hu u) as [[Hout E]|[Hin (r & c & Hr & Hc)]].
    + destruct (decide (u = Z.to_nat i)) as [->|Hne].
      * right. split; [lia|]. exists row, b.
        rewrite E, list_lookup_insert_eq by (unfold len in Hir; lia). auto.
      * left. split; [lia|]. rewrite E, list_lookup_insert_ne by lia. reflexivity.
    + right. split; [lia|]. exists r, c.
      rewrite list_lookup_insert_ne in Hr by lia. auto.
  - eapply IH; eauto.
Qed.

Lemma generatePolys_Ok fuel degree x ran polys ran' :
  generatePolys fuel degree x ran = Done (Ok polys, ran') ->
  1 <= degree <= 254 -> bytes x -> len x <= 255 -> reader_ok ran ->
  Forall2 (poly_for (degree + 1)) x polys /\ reader_ok ran'.
Proof.
  intros H Hd Hx Hlen Hok. unfold generatePolys in H.
  assert (Hlx : 0 <= len x) by (unfold len; lia).
  rewrite (to_byte_id (len x)) in H by (unfold is_byte; lia).
  rewrite (to_byte_id (degree + 1)) in H by (unfold is_byte; lia).
  rewrite make_Some in H by lia.
  apply bind_Done in H as (r0 & ran0 & H0 & H).
  apply lift_Done in H0 as [H0 ->]. inversion H0; subst r0; clear H0.
  apply bind_Done in H as (r1 & ran1 & H1 & H).
  apply lift_Done in H1 as [H1 ->].
  set (f := fun j : Z => <[O := nth (Z.to_nat j) x 0]> (replicate (Z.to_nat (degree + 1)) 0)).
  rewrite (for_lt_fill_n _ f) in H1.
  2:{ unfold len. rewrite length_replicate. lia. }
  2:{ intros j t Hj Ht. rewrite make_Some by lia. cbn [of_option exec_bind].
      destruct (index_in_range x j) as [v Hv]; [lia|]. rewrite Hv.
      cbn [of_option exec_bind].
      rewrite store_in_range by (unfold len; rewrite length_replicate; lia).
      cbn [of_option exec_bind]. unfold f. do 3 f_equal.
      apply index_Some in Hv as [_ Hv]. symmetry. now apply nth_lookup_Some. }
  inversion H1; subst r1; clear H1. rewrite length_replicate in H.
  apply bind_Done in H as (rd & ran2 & H2 & H).
  apply read_full_Done in H2. pose proof (ReadFull_ok _ _ _ _ H2 Hok) as Hok2.
  destruct rd as [buf|e]; [|apply ret_Done in H as [H _]; discriminate].
  apply ReadFull_inl in H2 as [-> Lbuf].
  apply reader_ok_app in Hok as [Bbuf _].
  apply bind_Done in H as (r3 & ran3 & H3 & H).
  apply lift_Done in H3 as [H3 ->].
  assert (Hinit : Forall2 (row_for degree) x
                    (map (fun j : nat => f (Z.of_nat j)) (seq 0 (Z.to_nat (len x))))).
  { apply Forall2_same_length_lookup. split.
    { rewrite length_map, length_seq. unfold len. lia. }
    intros u b row Hb Hrow. rewrite list_lookup_fmap in Hrow.
    pose proof (lookup_lt_Some _ _ _ Hb) as Hu.
    rewrite lookup_seq_lt in Hrow by (unfold len; lia).
    simpl in Hrow. inversion Hrow; subst row; clear Hrow. unfold f.
    rewrite Nat2Z.id. rewrite (nth_lookup_Some _ _ _ _ Hb).
    split; [|split].
    - apply bytes_insert; [apply bytes_replicate|].
      exact (bytes_lookup _ _ _ Hx Hb).
    - unfold len. rewrite length_insert, length_replicate. lia.
    - rewrite (index_lookup _ 0). apply list_lookup_insert_eq.
      rewrite length_replicate. lia. }
  assert (Hfill : Forall2 (row_for degree) x r3).
  { revert H3. apply for_lt_inv; [|exact Hinit].
    intros i t t' Hi Ht. apply for_byte_le_inv; [unfold is_byte; lia| |exact Ht].
    clear t t' Ht. intros j t t' Hj Ht Hb.
    apply exec_bind_Done in Hb as (v & Hv & Hb). apply of_option_Done in Hv.
    apply exec_bind_Done in Hb as (row & Hrow & Hb). apply of_option_Done in Hrow.
    apply exec_bind_Done in Hb as (row' & Hrow' & Hb).
    apply of_option_Done, store_Some in Hrow' as [Hjr ->].
    apply of_option_Done, store_Some in Hb as [Hir ->].
    apply index_Some in Hv as [_ Hv]. apply index_Some in Hrow as [_ Hrow].
    apply Forall2_update; [exact Ht|]. intros b Hxb.
    destruct (Forall2_lookup_l _ _ _ _ _ Ht Hxb) as (row2 & Hrow2 & Br & Lr & R0).
    rewrite Hrow in Hrow2. inversion Hrow2; subst row2; clear Hrow2.
    split; [|split].
    - apply bytes_insert; [exact Br|]. exact (bytes_lookup _ _ _ Bbuf Hv).
    - unfold len in *. rewrite length_insert. exact Lr.
    - rewrite (index_lookup _ 0) in *. rewrite list_lookup_insert_ne by lia.
      exact R0. }
  destruct (generatePolys_lead_Ok _ _ _ _ _ _ _ _ H ltac:(lia) Hok2)
    as (HL & Hok' & Hu).
  split; [|exact Hok'].
  pose proof (Forall2_length _ _ _ Hfill) as HLx.
  apply Forall2_same_length_lookup. split; [lia|].
  intros u b p Hb Hp. pose proof (lookup_lt_Some _ _ _ Hb) as Hlt.
  destruct (Hu u) as [[Hout _]|[_ (row & c & Hr & Hc & Nc & Hdr & E)]];
    [unfold len in Hout; lia|].
  rewrite Hp in E. inversion E; subst p; clear E.
  destruct (Forall2_lookup_l _ _ _ _ _ Hfill Hb) as (row2 & Hrow2 & Br & Lr & R0).
  rewrite Hr in Hrow2. inversion Hrow2; subst row2; clear Hrow2.
  split; [|split; [|split]].
  - apply bytes_insert; assumption.
  - unfold len in *. rewrite length_insert. exact Lr.
  - rewrite (index_lookup _ 0) in *. rewrite list_lookup_insert_ne by lia. exact R0.
  - exists c. split; [|exact Nc].
    replace (degree + 1 - 1) with degree by lia. unfold index.
    destruct (Z.ltb_spec degree 0); [lia|].
    apply list_lookup_insert_eq. unfold len in Hdr. lia.
Qed.

(** [generatePolys] sizes its first loop with [byte(len(x))]: past 255 bytes
    some rows stay nil, and the loop that fills the rows indexes one. *)
Lemma generatePolys_long fuel degree x ran polys ran' :
  1 <= degree -> is_byte degree -> 255 < len x ->
  generatePolys fuel degree x ran <> Done (Ok polys, ran').
Proof.
  intros Hd Bd Hlen H. unfold generatePolys in H.
  set (c := to_byte (len x)) in *.
  assert (Hc : 0 <= c < 256) by apply to_byte_is_byte.
  rewrite make_Some in H by lia.
  apply bind_Done in H as (r0 & ran0 & H0 & H).
  apply lift_Done in H0 as [H0 ->]. inversion H0; subst r0; clear H0.
  apply bind_Done in H as (r1 & ran1 & H1 & H).
  apply lift_Done in H1 as [H1 ->].
  apply bind_Done in H as (rd & ran2 & _ & H).
  destruct rd as [buf|e]; [|apply ret_Done in H as [H _]; discriminate].
  apply bind_Done in H as (r3 & ran3 & H3 & _).
  apply lift_Done in H3 as [H3 _].
  assert (Hnil : r1 !! Z.to_nat c = Some []).
  { revert H1. apply (for_lt_inv (fun t => t !! Z.to_nat c = Some [])).
    - intros j t t' Hj Ht Hb.
      apply exec_bind_Done in Hb as (row & _ & Hb).
      apply exec_bind_Done in Hb as (xi & _ & Hb).
      apply exec_bind_Done in Hb as (row' & _ & Hb).
      apply of_option_Done, store_Some in Hb as [_ ->].
      rewrite list_lookup_insert_ne by lia. exact Ht.
    - apply lookup_replicate_2. lia. }
  assert (Hend : len x <= c /\ r3 !! Z.to_nat c = Some []); [|lia].
  revert H3.
  apply (for_lt_hoare (fun j t => j <= c /\ t !! Z.to_nat c = Some []));
    [lia| |split; [lia|exact Hnil]].
  intros j t t' Hj [Hjc Ht] Hb.
  destruct (Z.eq_dec j c) as [->|Hne].
  - exfalso. destruct fuel as [|fuel]; [discriminate|].
    cbn [for_byte_le] in Hb. destruct (Z.leb_spec 1 degree); [|lia].
    apply exec_bind_Done in Hb as (s' & Hb & _).
    apply exec_bind_Done in Hb as (v & _ & Hb).
    apply exec_bind_Done in Hb as (row & Hrow & Hb).
    apply exec_bind_Done in Hb as (row' & Hrow' & _).
    apply of_option_Done, index_Some in Hrow as [_ Hrow].
    rewrite Ht in Hrow. inversion Hrow; subst row.
    apply of_option_Done, store_Some in Hrow' as [Hr _]. unfold len in Hr.
    simpl in Hr. lia.
  - split; [lia|]. revert Hb.
    apply (for_byte_le_inv (fun t => t !! Z.to_nat c = Some [])); [exact Bd| |exact Ht].
    intros u s s' Hu Hs Hb.
    apply exec_bind_Done in Hb as (v & _ & Hb).
    apply exec_bind_Done in Hb as (row & _ & Hb).
    apply exec_bind_Done in Hb as (row' & _ & Hb).
    apply of_option_Done, store_Some in Hb as [_ ->].
    rewrite list_lookup_insert_ne by lia. exact Hs.
Qed.

(** ** [SplitParallel] *)

Lemma slice_Some {A} (l : list A) lo hi s :
  slice l [] lo hi = Some s ->
  0 <= lo /\ lo <= hi /\ hi <= len l /\
  s = take (Z.to_nat (hi - lo)) (drop (Z.to_nat lo) l).
Proof.
  unfold slice, len. rewrite app_nil_r.
  destruct (Z.leb_spec 0 lo), (Z.leb_spec lo hi),
    (Z.leb_spec hi (Z.of_nat (length l))); simpl; intros E; inversion E; auto.
Qed.

Lemma slice_lookup {A} (l : list A) lo hi s :
  slice l [] lo hi = Some s ->
  0 <= lo /\ lo <= hi /\ hi <= len l /\ len s = hi - lo /\
  forall r : nat, (r < length s)%nat -> s !! r = l !! (Z.to_nat lo + r)%nat.
Proof.
  intros H. apply slice_Some in H as (H0 & H1 & H2 & ->).
  assert (HL : length (take (Z.to_nat (hi - lo)) (drop (Z.to_nat lo) l))
               = Z.to_nat (hi - lo)).
  { rewrite length_take, length_drop. unfold len in H2. lia. }
  repeat (split; [assumption|]). split; [unfold len; lia|].
  intros r Hr. rewrite lookup_take_lt by lia. apply lookup_drop.
Qed.

Lemma exec_mapM_Done {A B} (f : A -> exec B) : forall l rs,
  exec_mapM f l = Done rs -> Forall2 (fun a b => f a = Done b) l rs.
Proof.
  induction l as [|a l IH]; intros rs H; cbn [exec_mapM] in H.
  - inversion H. constructor.
  - apply exec_bind_Done in H as (b & Hb & H).
    apply exec_bind_Done in H as (bs & Hbs & H). inversion H; subst.
    constructor; auto.
Qed.

Section SplitParallel.

Variable p : list (list Z).
Variable n : Z.
Hypothesis Hn : is_byte n.

(** A unit of work: the polynomials and secret bytes from position [Start]. *)
Definition input_ok (m : Input) : Prop :=
  Input_N m = n /\ 0 <= Start m /\ length (Polys m) = length (Secrets m) /\
  Start m + len (Secrets m) <= len p /\
  forall r : nat, (r < length (Polys m))%nat ->
                  Polys m !! r = p !! (Z.to_nat (Start m) + r)%nat.

Lemma SplitParallel_dispatch_Done cpus secret send : forall fuel i count sent r,
  length p = length secret -> 0 <= i ->
  SplitParallel_dispatch fuel i count cpus n p secret send sent = Done r ->
  exists ms, r = sent ++ ms /\ Forall input_ok ms /\
    forall t, i <= t < len secret ->
      exists m, m ∈ ms /\ Start m <= t < Start m + len (Secrets m).
Proof.
  induction fuel as [|fuel IH]; intros i count sent r HL Hi H; [discriminate|].
  pose proof H as H0. cbn [SplitParallel_dispatch] in H.
  destruct (Z.ltb_spec i (len secret)) as [Hlt|Hge].
  2:{ inversion H; subst. exists []. rewrite app_nil_r.
      split; [reflexivity|]. split; [constructor|]. intros t Ht. lia. }
  assert (Hc : 0 < cpus).
  { destruct (Z.lt_ge_cases 0 cpus) as [Hc|Hc]; [exact Hc|]. exfalso.
    eapply (SplitParallel_dispatch_nonpositive cpus n p secret send
              (Datatypes.S fuel)); [| |exact H0]; lia. }
  clear H0. apply exec_bind_Done in H as (m & Hm & H).
  apply IH in H as (ms & -> & Hms & Hcov); [|exact HL|lia].
  exists (m :: ms). rewrite <- app_assoc. split; [reflexivity|].
  assert (Hmok : input_ok m /\ Start m = i /\
                 len (Secrets m) = Z.min cpus (len secret - i)).
  { assert (HLz : len p = len secret) by (unfold len; lia).
    destruct (Z.geb_spec (i + cpus) (len secret)) as [Hlast|Hmore];
      apply exec_bind_Done in Hm as (c & _ & Hm);
      apply exec_bind_Done in Hm as (polys & Hpolys & Hm);
      apply exec_bind_Done in Hm as (secs & Hsecs & Hm);
      inversion Hm; subst m; clear Hm; cbn [Start Secrets];
      apply of_option_Done, slice_lookup in Hpolys as (_ & _ & _ & Lp & Hp);
      apply of_option_Done, slice_lookup in Hsecs as (_ & _ & _ & Ls & _);
      (split; [|split; [reflexivity|lia]]);
      unfold input_ok; cbn [Input_N Start Polys Secrets];
      (split; [reflexivity|]); (split; [lia|]);
      (split; [unfold len in *; lia|]); (split; [lia|]); exact Hp. }
  destruct Hmok as (Hmok & Hs & Hsz).
  split; [constructor; assumption|].
  intros t Ht. destruct (Z.lt_ge_cases t (i + cpus)) as [Hin|Hout].
  - exists m. split; [left|]. lia.
  - destruct (Hcov t) as (m' & Hm' & Ht'); [lia|].
    exists m'. split; [right; exact Hm'|exact Ht'].
Qed.

(** The answer to a unit of work: row [r] holds the shares of byte
    [Index + r] for the parties 1..n. *)
Definition result_ok (res : Result) : Prop :=
  0 <= Index res /\ Result_N res = len (Shares res) /\
  forall (r : nat) row, Shares res !! r = Some row ->
    exists q, p !! (Z.to_nat (Index res) + r)%nat = Some q /\
      forall j, 1 <= j <= n -> row !! Z.to_nat (j - 1) = Some (eval q j).

Lemma SplitParallelLoop_Done fuel m res :
  input_ok m -> SplitParallelLoop fuel m = Done res ->
  result_ok res /\ Index res = Start m /\ Result_N res = len (Secrets m).
Proof.
  intros (HN & Hs & HL & Hend & Hp) H. unfold SplitParallelLoop in H.
  assert (Hlen : 0 <= len (Secrets m)) by (unfold len; lia).
  rewrite make_Some in H by exact Hlen. cbn [of_option exec_bind] in H.
  apply exec_bind_Done in H as (shares & Hsh & H). inversion H; subst res; clear H.
  cbn [Index Result_N Shares]. split; [|split; reflexivity].
  unfold result_ok. cbn [Index Result_N Shares]. split; [exact Hs|].
  cut (length shares = length (Secrets m) /\
       forall (r : nat) row, Z.of_nat r < len (Secrets m) ->
         shares !! r = Some row ->
         exists q, p !! (Z.to_nat (Start m) + r)%nat = Some q /\
           forall j, 1 <= j <= n -> row !! Z.to_nat (j - 1) = Some (eval q j)).
  { intros [HLs Hrows]. split; [unfold len; lia|].
    intros r row Hr. apply Hrows; [|exact Hr].
    apply lookup_lt_Some in Hr. unfold len. lia. }
  revert Hsh.
  apply (for_lt_hoare (fun i t =>
           length t = length (Secrets m) /\
           forall (r : nat) row, Z.of_nat r < i -> t !! r = Some row ->
             exists q, p !! (Z.to_nat (Start m) + r)%nat = Some q /\
               forall j, 1 <= j <= n -> row !! Z.to_nat (j - 1) = Some (eval q j)));
    [exact Hlen| |].
  2:{ split; [rewrite length_replicate; unfold len; lia|]. intros r row Hr. lia. }
  intros i t t' Hi [Ht Hrows] Hb. rewrite HN in Hb.
  assert (Hn0 : 0 <= n) by (unfold is_byte in Hn; lia).
  rewrite make_Some in Hb by exact Hn0. cbn [of_option exec_bind] in Hb.
  apply exec_bind_Done in Hb as (row1 & Hrow1 & Hb).
  apply of_option_Done, store_Some in Hb as [Hir ->].
  split; [now rewrite length_insert|].
  intros r row Hr Hrow. destruct (decide (r = Z.to_nat i)) as [->|Hne].
  2:{ rewrite list_lookup_insert_ne in Hrow by lia. apply (Hrows r row); [lia|exact Hrow]. }
  rewrite list_lookup_insert_eq in Hrow by (unfold len in Hir; lia).
  inversion Hrow; subst row; clear Hrow.
  destruct (index_in_range (Polys m) i) as [q Hq]; [unfold len in *; lia|].
  exists q. split.
  { apply index_Some in Hq as [_ Hq]. rewrite <- Hp; [exact Hq|].
    unfold len in Hi. lia. }
  pose proof (for_byte_le_Done_lt _ _ _ _ _ Hn Hrow1) as Hlt.
  apply for_byte_le_Done in Hrow1; [|lia|exact Hlt].
  destruct (iter_from_store_off
              (fun x row => let* p := of_option (index (Polys m) i) in
                            of_option (store row (x - 1) (eval p x)))
              (fun x => eval q x) (-1) (Z.to_nat (n + 1 - 1)) 1
              (replicate (Z.to_nat n) 0)) as (s' & E & _ & Hs').
  { lia. }
  { unfold len. rewrite length_replicate. lia. }
  { intros j t0 Hj Ht0. rewrite Hq. reflexivity. }
  rewrite E in Hrow1. inversion Hrow1; subst s'; clear Hrow1.
  intros j Hj. rewrite Hs'. destruct (decide _) as [_|D]; [|lia].
  do 2 f_equal. lia.
Qed.

(** The share map under construction: every party 1..n has a row of [L]
    bytes, and the positions [C] has marked hold the finished shares. *)
Definition slot_inv (L : nat) (C : Z -> nat -> Prop) (sh : shares_map) : Prop :=
  (forall y, 1 <= y <= n ->
     exists row, sh !! y = Some row /\ length row = L /\
       forall (t : nat) q, C y t -> p !! t = Some q -> row !! t = Some (eval q y))
  /\ (forall y, ~ (1 <= y <= n) -> sh !! y = None).

Lemma slot_inv_weaken L (C C' : Z -> nat -> Prop) sh :
  (forall y t, 1 <= y <= n -> C' y t -> C y t) ->
  slot_inv L C sh -> slot_inv L C' sh.
Proof.
  intros HC [Hin Hout]. split; [|exact Hout].
  intros y Hy. destruct (Hin y Hy) as (row & Hrow & HL & Hval).
  exists row. split; [exact Hrow|]. split; [exact HL|].
  intros t q Ht. apply Hval. now apply HC.
Qed.

Lemma slot_inv_store L (C : Z -> nat -> Prop) sh j row (u : nat) q :
  slot_inv L C sh -> 1 <= j <= n -> sh !! j = Some row -> (u < L)%nat ->
  p !! u = Some q ->
  slot_inv L (fun y t => C y t \/ (y = j /\ t = u))
           (<[j := <[u := eval q j]> row]> sh).
Proof.
  intros [Hin Hout] Hj Hrow Hu Hq. split.
  - intros y Hy. destruct (decide (y = j)) as [->|Hne].
    + rewrite lookup_insert_eq. eexists. split; [reflexivity|].
      destruct (Hin j Hj) as (row2 & Hrow2 & HL & Hval).
      rewrite Hrow in Hrow2. inversion Hrow2; subst row2; clear Hrow2.
      split; [now rewrite length_insert|].
      intros t q' Ht Hq'. destruct (decide (t = u)) as [->|Htu].
      * rewrite list_lookup_insert_eq by lia. congruence.
      * rewrite list_lookup_insert_ne by congruence.
        destruct Ht as [Ht|[_ Ht]]; [|contradiction]. now apply Hval.
    + rewrite lookup_insert_ne by congruence.
      destruct (Hin y Hy) as (row2 & Hrow2 & HL & Hval).
      exists row2. split; [exact Hrow2|]. split; [exact HL|].
      intros t q' [Ht|[Ht _]]; [|contradiction]. now apply Hval.
  - intros y Hy. rewrite lookup_insert_ne by (intros ->; contradiction).
    now apply Hout.
Qed.

Definition in_result (res : Result) (t : nat) : Prop :=
  Index res <= Z.of_nat t < Index res + Result_N res.

Lemma SplitParallel_collect_one fuel L (C : Z -> nat -> Prop) res sh sh' :
  slot_inv L C sh -> result_ok res -> length p = L ->
  for_byte_le fuel 1 n
    (fun j shares =>
       for_lt 0 (Result_N res)
         (fun i (shares : shares_map) =>
            let* src := of_option (index (Shares res) i) in
            let* v := of_option (index src (j - 1)) in
            let* row := of_option (store (default [] (shares !! j)) (i + Index res) v) in
            Done (<[j := row]> shares)) shares) sh = Done sh' ->
  slot_inv L (fun y t => C y t \/ in_result res t) sh'.
Proof.
  intros Hinv (HI & HN & Hres) HL H.
  apply (for_byte_le_hoare
           (fun j sh => slot_inv L (fun y t => C y t \/ (y < j /\ in_result res t)) sh))
    in H as [H _]; [|exact Hn| |].
  - revert H. apply slot_inv_weaken. intros y t Hy [Ht|Ht]; [left; exact Ht|].
    right. split; [lia|exact Ht].
  - intros j s s' Hj Hs Hb.
    assert (HN0 : 0 <= Result_N res) by (rewrite HN; unfold len; lia).
    apply (for_lt_hoare
             (fun i sh => slot_inv L
                (fun y t => C y t \/ (y < j /\ in_result res t) \/
                            (y = j /\ Index res <= Z.of_nat t < Index res + i)) sh))
      in Hb; [|exact HN0| |].
    + revert Hb. apply slot_inv_weaken. intros y t Hy [Ht|[Hy' Ht]]; [left; exact Ht|].
      destruct (Z.eq_dec y j) as [->|Hne].
      * right. right. split; [reflexivity|exact Ht].
      * right. left. split; [lia|exact Ht].
    + intros i u u' Hi Hu Hbi.
      apply exec_bind_Done in Hbi as (src & Hsrc & Hbi).
      apply exec_bind_Done in Hbi as (v & Hv & Hbi).
      apply exec_bind_Done in Hbi as (row' & Hrow' & Hbi).
      inversion Hbi; subst u'; clear Hbi.
      destruct (proj1 Hu j Hj) as (row & Hrow & HLr & _).
      rewrite Hrow in Hrow'. cbn [default id] in Hrow'.
      apply of_option_Done, store_Some in Hrow' as [Hir ->].
      apply of_option_Done, index_Some in Hsrc as [_ Hsrc].
      apply of_option_Done, index_Some in Hv as [_ Hv].
      destruct (Hres _ _ Hsrc) as (q & Hq & Hvals).
      rewrite (Hvals j Hj) in Hv. inversion Hv; subst v; clear Hv.
      replace (Z.to_nat (Index res) + Z.to_nat i)%nat
        with (Z.to_nat (i + Index res)) in Hq by lia.
      eapply slot_inv_weaken;
        [|apply (slot_inv_store L _ u j row (Z.to_nat (i + Index res)) q Hu Hj Hrow);
          [unfold len in Hir; lia|exact Hq]].
      intros y t Hy [Ht|[Ht|[-> Ht]]]; [left; left; exact Ht|left; right; left; exact Ht|].
      destruct (Z.eq_dec (Z.of_nat t) (Index res + i)) as [E|E].
      * right. split; [reflexivity|lia].
      * left. right. right. split; [reflexivity|lia].
    + revert Hs. apply slot_inv_weaken.
      intros y t Hy [Ht|[Ht|[_ Ht]]]; [left; exact Ht|right; exact Ht|lia].
  - revert Hinv. apply slot_inv_weaken. intros y t Hy [Ht|[Hlt _]]; [exact Ht|lia].
Qed.

Lemma SplitParallel_collect_Done fuel L : forall arrived (C : Z -> nat -> Prop) sh sh',
  slot_inv L C sh -> Forall result_ok arrived -> length p = L ->
  SplitParallel_collect fuel n arrived sh = Done sh' ->
  slot_inv L (fun y t => C y t \/ exists res, res ∈ arrived /\ in_result res t) sh'.
Proof.
  induction arrived as [|res arrived IH]; intros C sh sh' Hinv Hok HL H.
  - inversion H; subst. revert Hinv. apply slot_inv_weaken.
    intros y t _ [Ht|(res & Hres & _)]; [exact Ht|]. inversion Hres.
  - cbn [SplitParallel_collect] in H. apply Forall_cons in Hok as [Hres Hok].
    apply exec_bind_Done in H as (sh1 & H1 & H).
    apply (SplitParallel_collect_one fuel L C res sh sh1 Hinv Hres HL) in H1.
    apply (IH _ _ _ H1 Hok HL) in H. revert H. apply slot_inv_weaken.
    intros y t _ [Ht|(res' & Hres' & Ht)]; [left; left; exact Ht|].
    apply elem_of_cons in Hres' as [->|Hres'].
    + left. right. exact Ht.
    + right. exists res'. auto.
Qed.

Lemma SplitParallel_init_Done fuel Lz sh0 :
  0 <= Lz ->
  for_byte_le fuel 1 n
    (fun i (shares : shares_map) =>
       let* row := of_option (make 0 Lz) in Done (<[i := row]> shares)) ∅ = Done sh0 ->
  slot_inv (Z.to_nat Lz) (fun _ _ => False) sh0 /\ n < 255.
Proof.
  intros HL H.
  apply (for_byte_le_hoare
           (fun j (sh : shares_map) =>
              (forall y, 1 <= y < j -> exists row, sh !! y = Some row /\
                                          length row = Z.to_nat Lz) /\
              (forall y, ~ (1 <= y < j) -> sh !! y = None)))
    in H as [[Hin Hout] Hlt]; [|exact Hn| |].
  - split; [|exact Hlt]. split.
    + intros y Hy. destruct (Hin y) as (row & Hrow & Hlen); [lia|].
      exists row. split; [exact Hrow|]. split; [exact Hlen|]. intros t q [].
    + intros y Hy. apply Hout. lia.
  - intros j sh sh' Hj [Hin Hout] Hb. rewrite make_Some in Hb by exact HL.
    inversion Hb; subst sh'; clear Hb. split.
    + intros y Hy. destruct (decide (y = j)) as [->|Hne].
      * rewrite lookup_insert_eq. eexists. split; [reflexivity|].
        apply length_replicate.
      * rewrite lookup_insert_ne by congruence. apply Hin. lia.
    + intros y Hy. rewrite lookup_insert_ne by lia. apply Hout. lia.
  - split; [intros y Hy; lia|]. intros y _. apply lookup_empty.
Qed.

End SplitParallel.

(** The map a parallel split builds from the polynomials [polys]. *)
Definition parallel_shares (n : Z) (polys : list (list Z)) (m : shares_map) : Prop :=
  forall y, m !! y = if decide (1 <= y <= n) then Some (share_for polys y) else None.

Lemma SplitParallel_Some fuel n k secret send ret_order cpus ran m ran' :
  SplitParallel fuel n k secret send ret_order cpus ran = Done ((Some m, None), ran') ->
  is_byte n -> is_byte k -> bytes secret -> reader_ok ran ->
  2 <= k <= n /\ n < 255 /\ len secret <= 255 /\
  exists polys,
    generatePolys fuel (k - 1) secret ran = Done (Ok polys, ran') /\
    Forall2 (poly_for k) secret polys /\ parallel_shares n polys m /\ reader_ok ran'.
Proof.
  intros H Hn Hk Hs Hok. unfold SplitParallel in H.
  destruct (Z.leb_spec k 1); [apply ret_Done in H as [H _]; discriminate|].
  destruct (Z.ltb_spec n k); [apply ret_Done in H as [H _]; discriminate|].
  assert (Hk' : 2 <= k <= 255) by (unfold is_byte in Hk; lia).
  rewrite (to_byte_id (k - 1)) in H by (unfold is_byte; lia).
  apply bind_Done in H as (g & ran1 & Hg & H).
  destruct g as [polys|e]; [|apply ret_Done in H as [H _]; discriminate].
  apply bind_Done in H as (sent & ran2 & L1 & H). apply lift_Done in L1 as [L1 ->].
  apply bind_Done in H as (results & ran4 & L3 & H). apply lift_Done in L3 as [L3 ->].
  apply bind_Done in H as (sh0 & ran3 & L2 & H). apply lift_Done in L2 as [L2 ->].
  apply bind_Done in H as (sh & ran5 & L4 & H). apply lift_Done in L4 as [L4 ->].
  apply ret_Done in H as [H ->]. inversion H; subst sh; clear H.
  assert (Hlen : len secret <= 255).
  { destruct (Z.le_gt_cases (len secret) 255) as [Hle|Hgt]; [exact Hle|]. exfalso.
    eapply (generatePolys_long fuel (k - 1) secret); [| | |exact Hg];
      [lia|unfold is_byte; lia|lia]. }
  destruct (generatePolys_Ok _ _ _ _ _ _ Hg ltac:(lia) Hs Hlen Hok) as [HF Hok'].
  replace (k - 1 + 1) with k in HF by lia.
  pose proof (Forall2_length _ _ _ HF) as HLp.
  apply (SplitParallel_init_Done polys n Hn) in L2 as [Hinit Hlt]; [|unfold len; lia].
  apply (SplitParallel_dispatch_Done polys n) in L1
    as (ms & E & Hms & Hcov); [|lia|lia].
  simpl in E. subst sent. apply exec_mapM_Done in L3.
  assert (Hres : Forall (result_ok polys n) results).
  { apply Forall_forall. intros res Hres.
    apply list_elem_of_lookup in Hres as [i Hi].
    destruct (Forall2_lookup_r _ _ _ _ _ L3 Hi) as (mi & Hmi & Hrun).
    eapply (SplitParallelLoop_Done polys n Hn); [|exact Hrun].
    eapply Forall_lookup_1; eauto. }
  assert (Hres' : Forall (result_ok polys n) (permute ret_order results)).
  { rewrite (permute_perm ret_order results). exact Hres. }
  apply (SplitParallel_collect_Done polys n Hn fuel (Z.to_nat (len secret))
           _ _ _ _ Hinit Hres') in L4; [|unfold len; lia].
  split; [lia|]. split; [exact Hlt|]. split; [exact Hlen|].
  exists polys. split; [exact Hg|]. split; [exact HF|]. split; [|exact Hok'].
  destruct L4 as [Hin Hout]. intros y. destruct (decide (1 <= y <= n)) as [Hy|Hy].
  2:{ now apply Hout. }
  destruct (Hin y Hy) as (row & Hrow & HLr & Hval). rewrite Hrow. f_equal.
  apply list_eq. intros t. unfold share_for. rewrite list_lookup_fmap.
  destruct (polys !! t) as [q|] eqn:Hq; simpl.
  - apply Hval; [|exact Hq]. right.
    pose proof (lookup_lt_Some _ _ _ Hq) as Ht.
    destruct (Hcov (Z.of_nat t)) as (mi & Hmi & Hti); [unfold len; lia|].
    apply list_elem_of_lookup in Hmi as [i Hi].
    destruct (Forall2_lookup_l _ _ _ _ _ L3 Hi) as (res & Hres0 & Hrun).
    exists res. split.
    + rewrite (permute_perm ret_order results).
      eapply list_elem_of_lookup_2; exact Hres0.
    + eapply (SplitParallelLoop_Done polys n Hn) in Hrun
        as (_ & EI & EN); [|eapply Forall_lookup_1; eauto].
      unfold in_result. rewrite EI, EN. exact Hti.
  - apply lookup_ge_None. apply lookup_ge_None in Hq. unfold len in *. lia.
Qed.

(** ** Sequential and parallel variants *)

Lemma parallel_shares_inv n polys (m : shares_map) :
  polys <> [] -> parallel_shares n polys m -> shares_inv n polys m.
Proof.
  intros Hne Hm y. rewrite (Hm y).
  destruct (decide (1 <= y <= n)) as [Hy|Hy];
    destruct (decide (1 <= y <= n /\ polys <> [])) as [Hy'|Hy'];
    try reflexivity; tauto.
Qed.

Lemma parallel_shares_set n polys (m sub : shares_map) :
  is_byte n -> Forall bytes polys -> parallel_shares n polys m -> sub ⊆ m ->
  share_set sub (length polys).
Proof.
  intros Hn Hb Hm Hsub y v Hy.
  eapply lookup_weaken in Hy; [|exact Hsub]. rewrite (Hm y) in Hy.
  destruct (decide (1 <= y <= n)) as [Hr|]; [|discriminate].
  inversion Hy; subst v; clear Hy.
  assert (By : is_byte y) by (unfold is_byte in *; lia).
  split; [exact By|]. split.
  - apply share_for_bytes; assumption.
  - unfold share_for. apply length_map.
Qed.

Lemma parallel_shares_roundtrip n k secret polys (m sub : shares_map) ord :
  is_byte n -> 2 <= k -> Forall2 (poly_for k) secret polys ->
  parallel_shares n polys m -> sub ⊆ m -> (Z.to_nat k <= size sub)%nat ->
  Combine ord sub = Done secret.
Proof.
  intros Hn Hk HF Hm Hsub Hsize.
  assert (Hne : sub <> ∅).
  { intros ->. rewrite map_size_empty in Hsize. lia. }
  pose proof (Forall2_length _ _ _ HF) as HL.
  rewrite (Combine_share_set ord sub (length secret)); [|rewrite HL|exact Hne].
  2:{ eapply parallel_shares_set; eauto. eapply poly_for_bytes; eauto. }
  f_equal. destruct (decide (polys = [])) as [->|Hp].
  - destruct secret; [reflexivity|discriminate].
  - apply (combined_roundtrip n k secret polys m sub); auto.
    now apply parallel_shares_inv.
Qed.

(** C5 (as the code has it).  [CombineParallel] returns what [Combine]
    returns on every share set, whatever the enumeration orders, the arrival
    order of the answers and the number of workers.  [SplitParallel] returns
    the evaluations at 1..n of the polynomials [generatePolys] draws for the
    secret, one per byte with that byte as constant term, so [Combine]
    restores the secret from any [k] of its shares as it does for [Split];
    the polynomials themselves are drawn from the byte stream in another
    order than [Split] draws them. *)
Theorem parallel_variants :
  (forall fuel NumCPU ord ord' ret_order (m : shares_map) L,
     share_set m L -> (L < fuel)%nat -> 0 < NumCPU ->
     CombineParallel fuel NumCPU ord ret_order m = Combine ord' m)
  /\ (forall fuel n k secret send ret_order cpus ran m ran',
        is_byte n -> is_byte k -> bytes secret -> reader_ok ran ->
        SplitParallel fuel n k secret send ret_order cpus ran
          = Done ((Some m, None), ran') ->
        exists polys,
          generatePolys fuel (k - 1) secret ran = Done (Ok polys, ran') /\
          Forall2 (poly_for k) secret polys /\
          parallel_shares n polys m /\
          forall (sub : shares_map) ord,
            sub ⊆ m -> (Z.to_nat k <= size sub)%nat -> Combine ord sub = Done secret).
Proof.
  split.
  - intros. eapply CombineParallel_Combine; eauto.
  - intros fuel n k secret send ret_order cpus ran m ran' Hn Hk Hs Hok H.
    destruct (SplitParallel_Some _ _ _ _ _ _ _ _ _ _ H Hn Hk Hs Hok)
      as (Hkn & _ & _ & polys & Hg & HF & Hm & _).
    exists polys. split; [exact Hg|]. split; [exact HF|]. split; [exact Hm|].
    intros sub ord Hsub Hsize.
    apply (parallel_shares_roundtrip n k secret polys m sub); auto. lia.
Qed.

(** The shares [SplitParallel] builds from [demo_stream]. *)
Definition demo_parallel_shares : shares_map :=
  list_to_map [(1, [35; 227]); (2, [56; 160]); (3, [49; 104])].

Lemma parallel_variants_witness :
  CombineParallel 10 2 id_order rev_shuffle demo_shares = Combine rev_order demo_shares
  /\ Combine rev_order (delete 2 demo_parallel_shares) = Done [42; 43].
Proof.
  destruct parallel_variants as [HC HS]. split.
  - apply (HC 10%nat 2 id_order rev_order rev_shuffle demo_shares 2%nat).
    + exact demo_shares_set.
    + lia.
    + lia.
  - destruct (HS 300%nat 3 2 [42; 43] [0; 1; 2]%nat id_shuffle 1 demo_stream
                demo_parallel_shares (map Byte [13; 0; 0; 5; 77; 1; 2; 3]))
      as (polys & _ & _ & _ & HR).
    + unfold is_byte. lia.
    + unfold is_byte. lia.
    + unfold bytes. bytes_tac.
    + exact demo_stream_ok.
    + vm_compute. reflexivity.
    + apply HR; [apply delete_subseteq|vm_compute; lia].
Defined.

(** On one byte stream [Split] and [SplitParallel] return different maps:
    [Split] draws each polynomial in turn, [generatePolys] reads the
    coefficients of all of them first and the leading ones afterwards. *)
Lemma Split_SplitParallel_differ :
  Split 300 3 2 [42; 43] demo_stream
    = Done ((Some demo_shares, None), map Byte [200; 13; 0; 0; 5; 77; 1; 2; 3])
  /\ SplitParallel 300 3 2 [42; 43] [0; 1; 2]%nat id_shuffle 1 demo_stream
    = Done ((Some demo_parallel_shares, None), map Byte [13; 0; 0; 5; 77; 1; 2; 3])
  /\ demo_shares !! 1 = Some [45; 34]
  /\ demo_parallel_shares !! 1 = Some [35; 227].
Proof.
  split; [vm_compute; reflexivity|]. split; [vm_compute; reflexivity|].
  split; vm_compute; reflexivity.
Qed.

(** ** Channel capacities: instances *)



(** * Further properties of the split variants *)

(** ** [Split] with 255 shares *)

(** X1. With [n = 255] the byte counter of the share loop wraps from 255 to 0
    and [x <= n] never fails: for a non-empty secret [Split] never returns a
    share map; if it returns at all, it is with an error. *)
Theorem Split_255_returns_no_shares fuel k secret ran r ran' :
  secret <> [] -> Split fuel 255 k secret ran = Done (r, ran') ->
  exists e, r = (None, Some e).
Proof.
  intros Hne H. unfold Split in H.
  destruct (k <=? 1); [apply ret_Done in H as [-> _]; eauto|].
  destruct (255 <? k); [apply ret_Done in H as [-> _]; eauto|].
  destruct secret as [|b secret]; [contradiction|]. cbn [Split_loop] in H.
  apply bind_Done in H as (g & ran1 & _ & H).
  destruct g as [p|e]; [|apply ret_Done in H as [-> _]; eauto].
  apply bind_Done in H as (sh & ran2 & L & _). apply lift_Done in L as [L _].
  exfalso. eapply for_byte_le_255; [|exact L]. unfold is_byte. lia.
Qed.

Lemma Split_255_returns_no_shares_witness :
  exists e, (None : option shares_map, Some (ErrRead EOF)) = (None, Some e).
Proof.
  apply (Split_255_returns_no_shares 10 2 [1] [] _ []).
  - discriminate.
  - vm_compute. reflexivity.
Defined.

(** ** [Compute] and [SplitNew] *)

(** Row [i] of a row-major buffer of [k]-byte rows. *)
Definition row_of (k : Z) (p : list Z) (i : nat) : list Z :=
  take (Z.to_nat k) (drop (Z.to_nat (Z.of_nat i * k)) p).

Definition rows (k : Z) (L : nat) (p : list Z) : list (list Z) :=
  map (row_of k p) (seq 0 L).

Lemma Compute_rows L k x p spare :
  0 <= L -> 0 <= k -> L * k <= len (p ++ spare) ->
  Compute L k x p spare = Done (share_for (rows k (Z.to_nat L) (p ++ spare)) x).
Proof.
  intros HL Hk Hp. unfold Compute. rewrite make_Some by exact HL.
  cbn [of_option exec_bind].
  rewrite (for_lt_fill_n _ (fun i => eval (row_of k (p ++ spare) (Z.to_nat i)) x)).
  - rewrite length_replicate. unfold share_for, rows. rewrite map_map.
    f_equal. apply map_ext. intros i. now rewrite Nat2Z.id.
  - unfold len. rewrite length_replicate. lia.
  - intros j t Hj Ht. unfold slice.
    destruct (Z.leb_spec 0 (j * k)); [|nia].
    destruct (Z.leb_spec (j * k) (j * k + k)); [|lia].
    destruct (Z.leb_spec (j * k + k) (Z.of_nat (length (p ++ spare))));
      [|unfold len in Hp; nia].
    cbn [andb of_option exec_bind]. unfold row_of.
    rewrite Z2Nat.id by lia.
    replace (j * k + k - j * k) with k by lia. reflexivity.
Qed.

Lemma Compute_Done L k x p spare share :
  Compute L k x p spare = Done share -> 0 < L ->
  0 <= k /\ L * k <= len (p ++ spare).
Proof.
  intros H HL. unfold Compute in H.
  apply exec_bind_Done in H as (s0 & _ & H). unfold for_lt in H.
  destruct (iter_from_Done_each _ _ _ _ _ H (L - 1)) as (t & t' & Hb); [lia|].
  apply exec_bind_Done in Hb as (row & Hrow & _).
  apply of_option_Done in Hrow. unfold slice in Hrow.
  destruct (Z.leb_spec 0 ((L - 1) * k)); [|discriminate].
  destruct (Z.leb_spec ((L - 1) * k) ((L - 1) * k + k)); [|discriminate].
  destruct (Z.leb_spec ((L - 1) * k + k) (Z.of_nat (length (p ++ spare))));
    [|discriminate].
  unfold len. split; lia.
Qed.

Lemma row_of_lookup k p (i j : nat) :
  0 <= k -> (Z.of_nat i + 1) * k <= len p -> Z.of_nat j < k ->
  row_of k p i !! j = p !! Z.to_nat (Z.of_nat i * k + Z.of_nat j).
Proof.
  intros Hk Hp Hj. unfold row_of.
  rewrite lookup_take_lt by lia. rewrite lookup_drop. f_equal. lia.
Qed.

Lemma row_of_length k p (i : nat) :
  0 <= k -> (Z.of_nat i + 1) * k <= len p -> len (row_of k p i) = k.
Proof.
  intros Hk Hp. unfold row_of, len in *. rewrite length_take, length_drop. nia.
Qed.

Lemma generateRand_rows_poly_for k secret p :
  2 <= k -> bytes p -> len p = k * len secret ->
  (forall (i : nat) b, secret !! i = Some b ->
     index p (Z.of_nat i * k) = Some b /\
     exists l, index p (Z.of_nat i * k + k - 1) = Some l /\ l <> 0) ->
  Forall2 (poly_for k) secret (rows k (length secret) p).
Proof.
  intros Hk Bp Lp Hrows. apply Forall2_same_length_lookup.
  split; [unfold rows; now rewrite length_map, length_seq|].
  intros i b row Hb Hrow. unfold rows in Hrow.
  pose proof (lookup_lt_Some _ _ _ Hb) as Hi.
  rewrite list_lookup_fmap, lookup_seq_lt in Hrow by exact Hi.
  simpl in Hrow. inversion Hrow; subst row; clear Hrow.
  assert (Hin : (Z.of_nat i + 1) * k <= len p) by (unfold len in *; nia).
  destruct (Hrows i b Hb) as (H0 & l & Hl & Nl).
  split; [|split; [|split]].
  - unfold row_of. apply Forall_take, Forall_drop, Bp.
  - apply row_of_length; [lia|exact Hin].
  - rewrite (index_lookup _ 0), row_of_lookup by lia.
    apply index_Some in H0 as [_ H0]. rewrite Z.add_0_r. exact H0.
  - exists l. split; [|exact Nl].
    replace (k - 1) with (Z.of_nat (Z.to_nat (k - 1))) by lia.
    rewrite index_lookup, row_of_lookup by lia.
    apply index_Some in Hl as [_ Hl].
    replace (Z.of_nat i * k + Z.of_nat (Z.to_nat (k - 1)))
      with (Z.of_nat i * k + k - 1) by lia.
    exact Hl.
Qed.

Lemma SplitNew_Some fuel n k secret ran m ran' :
  SplitNew fuel n k secret ran = Done ((Some m, None), ran') ->
  is_byte n -> is_byte k -> bytes secret -> reader_ok ran ->
  2 <= k <= n /\ n < 255 /\
  exists polys, Forall2 (poly_for k) secret polys /\ parallel_shares n polys m /\
                reader_ok ran'.
Proof.
  intros H Hn Hk Hs Hok. unfold SplitNew in H.
  destruct (Z.leb_spec k 1); [apply ret_Done in H as [H _]; discriminate|].
  destruct (Z.ltb_spec n k); [apply ret_Done in H as [H _]; discriminate|].
  assert (Hk' : 2 <= k <= 255) by (unfold is_byte in Hk; lia).
  apply bind_Done in H as (g & ran1 & Hg & H).
  destruct g as [p|e]; [|apply ret_Done in H as [H _]; discriminate].
  apply bind_Done in H as (sh & ran2 & L & H). apply lift_Done in L as [L ->].
  apply ret_Done in H as [H ->]. inversion H; subst sh; clear H.
  destruct (generateRand_Ok _ _ _ _ _ _ Hg Hk' Hs Hok) as (Lp & Bp & Hok' & Hrows).
  set (polys := rows k (length secret) p).
  assert (HC : forall x, Compute (len secret) k x p [] = Done (share_for polys x)).
  { intros x. rewrite Compute_rows; [|unfold len; lia|lia|rewrite app_nil_r; lia].
    unfold polys, len. now rewrite Nat2Z.id, app_nil_r. }
  apply (for_byte_le_hoare
           (fun j (sh : shares_map) =>
              forall y, sh !! y = if decide (1 <= y < j)
                                  then Some (share_for polys y) else None))
    in L as [L Hlt]; [|exact Hn| |].
  - split; [lia|]. split; [exact Hlt|]. exists polys.
    split; [apply generateRand_rows_poly_for; auto; lia|]. split; [|exact Hok'].
    intros y. rewrite (L y).
    destruct (decide (1 <= y < n + 1)), (decide (1 <= y <= n)); try reflexivity; lia.
  - intros j sh sh' Hj Hsh Hb. rewrite HC in Hb. inversion Hb; subst sh'; clear Hb.
    intros y. destruct (decide (y = j)) as [->|Hne].
    + rewrite lookup_insert_eq. destruct (decide (1 <= j < j + 1)); [reflexivity|lia].
    + rewrite lookup_insert_ne by congruence. rewrite (Hsh y).
      destruct (decide (1 <= y < j)), (decide (1 <= y < j + 1)); try reflexivity; lia.
  - intros y. rewrite lookup_empty. destruct (decide (1 <= y < 1)); [lia|reflexivity].
Qed.

(** X2. The round trip through [SplitNew]: [Combine] of any [k] or more of the
    shares it returns is the secret. *)
Theorem SplitNew_Combine_roundtrip fuel n k secret ran m ran' (sub : shares_map) ord :
  is_byte n -> is_byte k -> bytes secret -> reader_ok ran ->
  SplitNew fuel n k secret ran = Done ((Some m, None), ran') ->
  sub ⊆ m -> (Z.to_nat k <= size sub)%nat ->
  Combine ord sub = Done secret.
Proof.
  intros Hn Hk Hs Hok H Hsub Hsize.
  destruct (SplitNew_Some _ _ _ _ _ _ _ H Hn Hk Hs Hok)
    as (Hkn & _ & polys & HF & Hm & _).
  apply (parallel_shares_roundtrip n k secret polys m sub); auto. lia.
Qed.

(** The shares [SplitNew] builds from [demo_stream]. *)
Definition demo_new_shares : shares_map :=
  list_to_map [(1, [39; 227]); (2, [48; 160]); (3, [61; 104])].

Lemma SplitNew_Combine_roundtrip_witness :
  Combine id_order (delete 1 demo_new_shares) = Done [42; 43].
Proof.
  apply (SplitNew_Combine_roundtrip 300 3 2 [42; 43] demo_stream demo_new_shares
           (map Byte [0; 0; 5; 77; 1; 2; 3])).
  - unfold is_byte. lia.
  - unfold is_byte. lia.
  - unfold bytes. bytes_tac.
  - exact demo_stream_ok.
  - vm_compute. reflexivity.
  - apply delete_subseteq.
  - vm_compute. lia.
Defined.

(** X3. [SplitNew] gives every party 1..n a share of [len(S)] bytes, also for
    the empty secret (where [Split] returns the empty map). *)
Theorem SplitNew_share_map_shape fuel n k secret ran m ran' :
  is_byte n -> is_byte k -> bytes secret -> reader_ok ran ->
  SplitNew fuel n k secret ran = Done ((Some m, None), ran') ->
  forall x, (1 <= x <= n -> exists v, m !! x = Some v /\ length v = length secret)
            /\ (~ (1 <= x <= n) -> m !! x = None).
Proof.
  intros Hn Hk Hs Hok H x.
  destruct (SplitNew_Some _ _ _ _ _ _ _ H Hn Hk Hs Hok)
    as (_ & _ & polys & HF & Hm & _).
  rewrite (Hm x). destruct (decide (1 <= x <= n)) as [Hx|Hx].
  - split; [|tauto]. intros _. eexists. split; [reflexivity|].
    unfold share_for. rewrite length_map. symmetry. eapply Forall2_length; eauto.
  - split; [tauto|reflexivity].
Qed.

Lemma SplitNew_share_map_shape_witness :
  (1 <= 2 <= 3 -> exists v, demo_new_shares !! 2 = Some v /\ length v = length [42; 43])
  /\ (~ (1 <= 2 <= 3) -> demo_new_shares !! 2 = None).
Proof.
  apply (SplitNew_share_map_shape 300 3 2 [42; 43] demo_stream demo_new_shares
           (map Byte [0; 0; 5; 77; 1; 2; 3])).
  - unfold is_byte. lia.
  - unfold is_byte. lia.
  - unfold bytes. bytes_tac.
  - exact demo_stream_ok.
  - vm_compute. reflexivity.
Defined.

(** ** [SplitNewConcur] and [RunParallel] *)

Lemma iter_from_ext {S} (body body' : Z -> S -> exec S) : forall count i s,
  (forall j t, i <= j < i + Z.of_nat count -> body j t = body' j t) ->
  iter_from count i body s = iter_from count i body' s.
Proof.
  induction count as [|count IH]; intros i s H; [reflexivity|].
  cbn [iter_from]. rewrite H by lia. destruct (body' i s); simpl; try reflexivity.
  apply IH. intros; apply H; lia.
Qed.

(** The messages [SplitNewConcur] has sent after its first loop. *)
Fixpoint sent_from (L k : Z) (p : list Z) (count : nat) (lo : Z) : list (Z * Comp) :=
  match count with
  | O => []
  | Datatypes.S count' => (lo - 1, mkComp L k lo p) :: sent_from L k p count' (lo + 1)
  end.

Lemma sent_from_find L k p : forall count lo x,
  lo <= x < lo + Z.of_nat count ->
  find (fun jm : Z * Comp => fst jm =? x - 1) (sent_from L k p count lo)
  = Some (x - 1, mkComp L k x p).
Proof.
  induction count as [|count IH]; intros lo x Hx; [lia|].
  cbn [sent_from find fst]. destruct (Z.eqb_spec (lo - 1) (x - 1)) as [E|E].
  - replace lo with x by lia. reflexivity.
  - apply IH. lia.
Qed.

Lemma SplitNewConcur_sent L k p (sendChan : list chan) : forall count lo acc,
  1 <= lo -> lo + Z.of_nat count <= 256 -> lo + Z.of_nat count - 1 <= len sendChan ->
  iter_from count lo
    (fun x (sent : list (Z * Comp)) =>
       let* _ := of_option (index sendChan (to_byte (x - 1))) in
       Done (sent ++ [(to_byte (x - 1), mkComp L k x p)])) acc
  = Done (acc ++ sent_from L k p count lo).
Proof.
  induction count as [|count IH]; intros lo acc Hlo Hhi Hlen.
  - cbn [iter_from sent_from]. now rewrite app_nil_r.
  - cbn [iter_from sent_from]. rewrite to_byte_id by (unfold is_byte; lia).
    destruct (index_in_range sendChan (lo - 1)) as [c Hc]; [lia|].
    rewrite Hc. cbn [of_option exec_bind]. rewrite IH by lia.
    now rewrite <- app_assoc.
Qed.

(** X4. With a worker behind each of [n] channel pairs, the concurrent split
    returns exactly what [SplitNew] returns on the same random source. *)
Theorem SplitNewConcur_SplitNew fuel n k secret (sendChan resultChan : list chan) ran :
  is_byte n -> n < 255 -> (Z.to_nat n < fuel)%nat ->
  n <= len sendChan -> n <= len resultChan ->
  SplitNewConcur fuel n k secret sendChan resultChan ran = SplitNew fuel n k secret ran.
Proof.
  intros Hn Hlt Hf Hs Hr. unfold SplitNewConcur, SplitNew. unfold is_byte in Hn.
  destruct (k <=? 1); [reflexivity|]. destruct (n <? k); [reflexivity|].
  apply bind_ext. intros g ran1 _. destruct g as [p|e]; [|reflexivity].
  rewrite !for_byte_le_count by lia.
  replace (Z.to_nat (n + 1 - 1)) with (Z.to_nat n) by lia.
  rewrite (SplitNewConcur_sent (len secret) k p sendChan (Z.to_nat n) 1 []) by lia.
  unfold bind at 1. unfold lift at 1. cbn [app].
  rewrite for_byte_le_count by lia.
  replace (Z.to_nat (n + 1 - 1)) with (Z.to_nat n) by lia.
  f_equal. f_equal. apply iter_from_ext. intros x sh Hx.
  rewrite to_byte_id by (unfold is_byte; lia).
  destruct (index_in_range resultChan (x - 1)) as [c Hc]; [lia|].
  rewrite Hc. cbn [of_option exec_bind].
  rewrite sent_from_find by lia. reflexivity.
Qed.

Lemma SplitNewConcur_SplitNew_witness :
  SplitNewConcur 300 3 2 [42; 43] [0; 1; 2]%nat [0; 1; 2]%nat demo_stream
  = SplitNew 300 3 2 [42; 43] demo_stream.
Proof.
  apply SplitNewConcur_SplitNew.
  - unfold is_byte. lia.
  - lia.
  - lia.
  - vm_compute. discriminate.
  - vm_compute. discriminate.
Defined.

(** ** [SplitParallel]: long secrets, chunking and arrival order *)

(** X6. [generatePolys] allocates its rows under a byte-typed counter bounded by
    [byte(len(x))]: for a secret of more than 255 bytes [SplitParallel]
    never returns a share map; if it returns, it is with an error. *)
Theorem SplitParallel_long_secret fuel n k secret send ret_order cpus ran r ran' :
  is_byte k -> 255 < len secret ->
  SplitParallel fuel n k secret send ret_order cpus ran = Done (r, ran') ->
  exists e, r = (None, Some e).
Proof.
  intros Hk Hlen H. unfold SplitParallel in H. unfold is_byte in Hk.
  destruct (Z.leb_spec k 1); [apply ret_Done in H as [-> _]; eauto|].
  destruct (Z.ltb_spec n k); [apply ret_Done in H as [-> _]; eauto|].
  rewrite (to_byte_id (k - 1)) in H by (unfold is_byte; lia).
  apply bind_Done in H as (g & ran1 & Hg & H).
  destruct g as [p|e]; [|apply ret_Done in H as [-> _]; eauto].
  exfalso. eapply (generatePolys_long fuel (k - 1) secret); [| | |exact Hg];
    [lia|unfold is_byte; lia|exact Hlen].
Qed.

Lemma SplitParallel_long_secret_witness :
  exists e, (None : option shares_map, Some (ErrRead EOF)) = (None, Some e).
Proof.
  apply (SplitParallel_long_secret 10 3 2 (replicate 256 0) [] id_shuffle 1 [] _ []).
  - unfold is_byte. lia.
  - vm_compute. reflexivity.
  - vm_compute. reflexivity.
Defined.

(** X7. The share map [SplitParallel] returns does not depend on the chunk
    size, on the channels or on the order in which the workers answer. *)
Theorem SplitParallel_schedule_independent fuel n k secret send send' ret_order
    ret_order' cpus cpus' ran m m' ran1 ran2 :
  is_byte n -> is_byte k -> bytes secret -> reader_ok ran ->
  SplitParallel fuel n k secret send ret_order cpus ran = Done ((Some m, None), ran1) ->
  SplitParallel fuel n k secret send' ret_order' cpus' ran = Done ((Some m', None), ran2) ->
  m = m' /\ ran1 = ran2.
Proof.
  intros Hn Hk Hs Hok H H'.
  destruct (SplitParallel_Some _ _ _ _ _ _ _ _ _ _ H Hn Hk Hs Hok)
    as (_ & _ & _ & polys & Hg & _ & Hm & _).
  destruct (SplitParallel_Some _ _ _ _ _ _ _ _ _ _ H' Hn Hk Hs Hok)
    as (_ & _ & _ & polys' & Hg' & _ & Hm' & _).
  rewrite Hg in Hg'. inversion Hg'; subst polys' ran2; clear Hg'.
  split; [|reflexivity]. apply map_eq. intros y. now rewrite (Hm y), (Hm' y).
Qed.

Lemma SplitParallel_schedule_independent_witness :
  demo_parallel_shares = demo_parallel_shares
  /\ map Byte [13; 0; 0; 5; 77; 1; 2; 3] = map Byte [13; 0; 0; 5; 77; 1; 2; 3].
Proof.
  apply (SplitParallel_schedule_independent 300 3 2 [42; 43] [0; 1; 2]%nat [0]%nat
           id_shuffle rev_shuffle 1 2 demo_stream).
  - unfold is_byte. lia.
  - unfold is_byte. lia.
  - unfold bytes. bytes_tac.
  - exact demo_stream_ok.
  - vm_compute. reflexivity.
  - vm_compute. reflexivity.
Defined.

(** ** The bounds of [Compute] *)

Lemma iter_from_not_Spin {S} (body : Z -> S -> exec S) : forall count i s,
  (forall j t, body j t <> Spin) -> iter_from count i body s <> Spin.
Proof.
  induction count as [|count IH]; intros i s Hb; [discriminate|].
  cbn [iter_from]. destruct (body i s) as [s'| |] eqn:E; simpl.
  - now apply IH.
  - discriminate.
  - now apply Hb in E.
Qed.

(** X5. [Compute] reads [lenSecret] rows of [k] bytes through the slice
    expressions [p[next:next+k]], which Go checks against the capacity of
    [p]: it returns, with the evaluations of these rows (the bytes of the
    backing array after [p] included), exactly when the capacity holds
    [lenSecret*k] bytes, and panics on a slice bound otherwise. *)
Theorem Compute_bounds L k x p spare :
  0 < L -> 0 <= k ->
  (L * k <= len p + len spare ->
   Compute L k x p spare = Done (share_for (rows k (Z.to_nat L) (p ++ spare)) x))
  /\ (len p + len spare < L * k -> Compute L k x p spare = Panic).
Proof.
  intros HL Hk.
  assert (Hcap : len (p ++ spare) = len p + len spare)
    by (unfold len; rewrite length_app; lia).
  split.
  - intros Hp. apply Compute_rows; lia.
  - intros Hp. destruct (Compute L k x p spare) as [share| |] eqn:E; [|reflexivity|].
    + apply Compute_Done in E; lia.
    + exfalso. revert E. unfold Compute. rewrite make_Some by lia.
      cbn [of_option exec_bind]. unfold for_lt. apply iter_from_not_Spin.
      intros j t. destruct (slice p spare (j * k) (j * k + k));
        cbn [of_option exec_bind]; [|discriminate].
      destruct (store t j (eval l x)); discriminate.
Qed.

(** A buffer of length 2 and capacity 4 holds two rows of two bytes: the
    second row is read from the spare capacity.  With capacity 3 the second
    row is out of bounds. *)
Lemma Compute_bounds_witness :
  Compute 2 2 1 [42; 13] [0; 0]
    = Done (share_for (rows 2 (Z.to_nat 2) ([42; 13] ++ [0; 0])) 1)
  /\ Compute 2 2 1 [42; 13] [0] = Panic.
Proof.
  split.
  - apply (Compute_bounds 2 2 1 [42; 13] [0; 0]); [lia|lia|]. vm_compute. discriminate.
  - apply (Compute_bounds 2 2 1 [42; 13] [0]); [lia|lia|]. vm_compute. reflexivity.
Defined.

Example Compute_spare_capacity : Compute 2 2 1 [42; 13] [0; 0] = Done [39; 0].
Proof. vm_compute. reflexivity. Qed.

(** * Further properties of evaluation and interpolation *)

(** ** [eval] *)

(** X8. The value at 0 is the constant term: this is where a share polynomial
    keeps the secret byte. *)
Theorem eval_at_zero p : bytes p -> eval p 0 = nth 0 p 0.
Proof. intros Hp. rewrite eval_horner. now apply horner_at_0. Qed.

Lemma eval_at_zero_witness : eval [42; 7; 9] 0 = nth 0 [42; 7; 9] 0.
Proof. apply eval_at_zero. unfold bytes. bytes_tac. Defined.

(** X9. [eval] is linear in the coefficients: the shares of the xor of two
    polynomials are the xor of their shares. *)
Theorem eval_xor_coefficients p q x :
  bytes p -> bytes q -> is_byte x -> length p = length q ->
  eval (zip_with add p q) x = add (eval p x) (eval q x).
Proof.
  intros Hp Hq Hx HL. rewrite !eval_horner, <- horner_padd by assumption.
  f_equal. clear Hp Hq. revert q HL.
  induction p as [|a p IH]; intros [|b q] HL; try discriminate; [reflexivity|].
  simpl. f_equal. apply IH. now inversion HL.
Qed.

Lemma eval_xor_coefficients_witness :
  eval (zip_with add [42; 7] [43; 9]) 3 = add (eval [42; 7] 3) (eval [43; 9] 3).
Proof.
  apply eval_xor_coefficients.
  - unfold bytes. bytes_tac.
  - unfold bytes. bytes_tac.
  - unfold is_byte. lia.
  - reflexivity.
Defined.

(** ** [interpolate] *)

(** X10. Interpolation goes through the points it is given. *)
Theorem interpolate_at_node pts a :
  points_ok pts -> NoDup (map px pts) -> a ∈ pts ->
  interpolate pts (px a) = Some (py a).
Proof.
  intros Hok Hnd Ha. pose proof (points_ok_elem _ _ Hok Ha) as [Hx _].
  rewrite interpolate_lagrange by assumption. f_equal. now apply lagrange_node.
Qed.

Lemma interpolate_at_node_witness :
  interpolate [mkxy 1 45; mkxy 2 36; mkxy 3 35] (px (mkxy 2 36)) = Some (py (mkxy 2 36)).
Proof.
  apply interpolate_at_node.
  - repeat (constructor; [split; unfold is_byte; simpl; lia|]). constructor.
  - simpl. repeat (constructor; [set_solver|]). constructor.
  - set_solver.
Defined.

Lemma interpolate_weight_None x a i : forall (tail : list xy) j w (t : nat) b,
  tail !! t = Some b -> i <> (j + t)%nat -> px b = px a ->
  interpolate_weight x a i j tail w = None.
Proof.
  induction tail as [|c rest IH]; intros j w t b Ht Hne Hpx; [inversion Ht|].
  cbn [interpolate_weight]. destruct t as [|t].
  - inversion Ht; subst c; clear Ht.
    destruct (Nat.eqb_spec i j) as [->|_]; [lia|]. cbn [negb].
    rewrite Hpx, add_self, div_zero_divisor. reflexivity.
  - simpl in Ht.
    assert (Hne' : i <> (Datatypes.S j + t)%nat) by lia.
    destruct (negb (i =? j)%nat); [|eapply IH; eauto].
    destruct (div (add x (px c)) (add (px a) (px c))); [|reflexivity].
    eapply IH; eauto.
Qed.

Lemma interpolate_loop_None x points : forall todo i value (t : nat) a (j : nat) b,
  todo !! t = Some a -> points !! j = Some b -> (i + t)%nat <> j -> px b = px a ->
  interpolate_loop x points i todo value = None.
Proof.
  induction todo as [|c todo IH]; intros i value t a j b Ht Hj Hne Hpx;
    [inversion Ht|].
  cbn [interpolate_loop]. destruct t as [|t].
  - inversion Ht; subst c; clear Ht.
    rewrite (interpolate_weight_None x a i points 0 1 j b); auto. lia.
  - simpl in Ht. destruct (interpolate_weight x c i 0 points 1); [|reflexivity].
    apply (IH (Datatypes.S i) _ t a j b); auto. lia.
Qed.

(** X11. [interpolate] returns a byte when the points have distinct abscissas,
    and divides by zero as soon as two of them share one. *)
Theorem interpolate_defined pts x :
  points_ok pts -> is_byte x ->
  (NoDup (map px pts) -> exists v, interpolate pts x = Some v /\ is_byte v)
  /\ (forall (i j : nat) a b, pts !! i = Some a -> pts !! j = Some b -> i <> j ->
        px a = px b -> interpolate pts x = None).
Proof.
  intros Hok Hx. split.
  - intros Hnd. exists (lagrange pts x).
    split; [now apply interpolate_lagrange|now apply lagrange_is_byte].
  - intros i j a b Hi Hj Hne Hpx. unfold interpolate.
    apply (interpolate_loop_None x pts pts 0 0 i a j b); auto.
Qed.

Lemma interpolate_defined_witness :
  (NoDup (map px [mkxy 1 45; mkxy 1 36]) ->
   exists v, interpolate [mkxy 1 45; mkxy 1 36] 0 = Some v /\ is_byte v)
  /\ (forall (i j : nat) a b,
        [mkxy 1 45; mkxy 1 36] !! i = Some a -> [mkxy 1 45; mkxy 1 36] !! j = Some b ->
        i <> j -> px a = px b -> interpolate [mkxy 1 45; mkxy 1 36] 0 = None).
Proof.
  apply interpolate_defined.
  - repeat (constructor; [split; unfold is_byte; simpl; lia|]). constructor.
  - unfold is_byte. lia.
Defined.

(** ** Fewer shares than the threshold *)

Lemma pdiv_zero r p :
  bytes p -> is_byte r -> horner p r = 0 ->
  Forall (fun c => c = 0) (pdiv r p) -> Forall (fun c => c = 0) p.
Proof.
  intros Hp Hr. induction Hp as [|c q Hc Hq IH]; intros Hroot Hdiv; [constructor|].
  destruct q as [|c' q'].
  - simpl in Hroot. rewrite mul_0_l, add_0_l in Hroot by gf.
    constructor; [exact Hroot|constructor].
  - change (pdiv r (c :: c' :: q'))
      with (horner (c' :: q') r :: pdiv r (c' :: q')) in Hdiv.
    apply Forall_cons in Hdiv as [H0 Hdiv].
    change (horner (c :: c' :: q') r)
      with (add (mul (horner (c' :: q') r) r) c) in Hroot.
    rewrite H0, mul_0_l, add_0_l in Hroot by gf.
    constructor; [exact Hroot|]. apply IH; assumption.
Qed.

(** A polynomial with no more coefficients than distinct roots has only
    zero coefficients. *)
Lemma roots_zero rs : forall p,
  bytes p -> bytes rs -> NoDup rs -> (length p <= length rs)%nat ->
  (forall r, r ∈ rs -> horner p r = 0) ->
  Forall (fun c => c = 0) p.
Proof.
  induction rs as [|r rs IH]; intros p Hp Hrs Hnd Hlen Hroot.
  - destruct p; [constructor|simpl in Hlen; lia].
  - apply Forall_cons in Hrs as [Hr Hrs]. apply NoDup_cons in Hnd as [Hnin Hnd].
    assert (Hq : bytes (pdiv r p)) by (apply pdiv_bytes; assumption).
    apply (pdiv_zero r); [assumption|assumption|apply Hroot; set_solver|].
    apply IH; try assumption.
    + rewrite pdiv_length. simpl in Hlen. lia.
    + intros r' Hr'.
      assert (Br' : is_byte r') by (eapply Forall_forall in Hrs; eauto).
      pose proof (pdiv_spec r p r' Hr Hp Br') as E.
      rewrite (Hroot r), (Hroot r'), add_0_l in E by set_solver.
      symmetry in E. apply mul_eq_0 in E as [E|E]; gf.
      apply (proj1 (add_eq_0 _ _)) in E. subst r'. contradiction.
Qed.

Lemma padd_nth_high p q i :
  (length q <= i)%nat -> nth i (padd p q) 0 = nth i p 0.
Proof.
  revert q i. induction p as [|a p IH]; intros q i Hq.
  - simpl. rewrite nth_overflow by exact Hq. now destruct i.
  - destruct q as [|b q]; [reflexivity|]. destruct i as [|i]; [simpl in Hq; lia|].
    simpl. apply IH. simpl in Hq. lia.
Qed.

(** The interpolation through one point less than a polynomial has
    coefficients misses its constant term, when the leading coefficient is
    not zero. *)
Lemma lagrange_misses_constant p pts :
  bytes p -> nth (length pts) p 0 <> 0 -> length p = Datatypes.S (length pts) ->
  points_ok pts -> NoDup (map px pts) ->
  (forall a, a ∈ pts -> px a <> 0 /\ py a = horner p (px a)) ->
  lagrange pts 0 <> horner p 0.
Proof.
  intros Bp Hlead HL Hok Hnd Hpts E.
  destruct (lagrange_polyfun pts Hok) as (q & Bq & Lq & Eq).
  assert (Bd : bytes (padd p q)) by (apply padd_bytes; assumption).
  assert (Hz : Forall (fun c => c = 0) (padd p q)).
  { apply (roots_zero (0 :: map px pts)); [exact Bd| | | |].
    - constructor; [gf|]. apply bytes_map. intros a Ha.
      apply (points_ok_elem _ _ Hok Ha).
    - apply NoDup_cons. split; [|exact Hnd].
      intros H0. apply list_elem_of_fmap in H0 as (a & E0 & Ha).
      destruct (Hpts a Ha) as [N _]. congruence.
    - rewrite padd_length. simpl. rewrite length_map. lia.
    - intros r Hr. apply elem_of_cons in Hr as [->|Hr].
      + rewrite horner_padd by gf. rewrite <- Eq, E by gf. apply add_self.
      + apply list_elem_of_fmap in Hr as (a & -> & Ha).
        pose proof (points_ok_elem _ _ Hok Ha) as [Bx _].
        rewrite horner_padd by gf. rewrite <- Eq by gf.
        rewrite lagrange_node by assumption.
        destruct (Hpts a Ha) as [_ ->]. apply add_self. }
  apply Hlead. rewrite <- (padd_nth_high p q) by lia.
  destruct (nth_in_or_default (length pts) (padd p q) 0) as [I|I]; [|exact I].
  eapply Forall_forall in Hz; [exact Hz|]. apply list_elem_of_In, I.
Qed.

(** X12. Because [generate] rejects a zero leading coefficient, [k-1] shares of a
    [Split] are not silent about the secret: at every position, the byte
    that [Combine] computes from them is a byte the secret does not have. *)
Theorem Split_below_threshold fuel n k secret ran m ran' (sub : shares_map) ord :
  is_byte n -> is_byte k -> bytes secret -> reader_ok ran ->
  Split fuel n k secret ran = Done ((Some m, None), ran') ->
  sub ⊆ m -> size sub = Z.to_nat (k - 1) ->
  exists out, Combine ord sub = Done out /\ Forall2 (fun c b => c <> b) out secret.
Proof.
  intros Hn Hk Hs Hok HS Hsub Hsize.
  destruct (Split_Some _ _ _ _ _ _ _ HS Hn Hk Hs Hok)
    as (Hkn & polys & HF & Hinv & _ & _).
  assert (Hne : sub <> ∅).
  { intros ->. rewrite map_size_empty in Hsize. lia. }
  pose proof (shares_inv_share_set _ _ _ _ _ _ Hn HF Hinv Hsub) as Hset.
  exists (combined sub (length secret)).
  split; [now apply Combine_share_set|].
  apply Forall2_same_length_lookup. split; [apply combined_length|].
  intros i c b Hc Hb. pose proof (lookup_lt_Some _ _ _ Hb) as Hi.
  unfold combined in Hc. rewrite list_lookup_fmap, lookup_seq_lt in Hc by exact Hi.
  simpl in Hc. inversion Hc; subst c; clear Hc.
  destruct (Forall2_lookup_l _ _ _ _ _ HF Hb) as (p & Hp & Bp & Lp & P0 & l & Pl & Nl).
  destruct (column_ok sub (length secret) (map_to_list sub) i Hset
              (reflexivity _) Hi) as [Hcok Hnd].
  assert (Hb0 : horner p 0 = b).
  { rewrite horner_at_0 by exact Bp.
    apply index_Some in P0 as [_ P0]. now apply nth_lookup_Some. }
  rewrite <- Hb0. apply lagrange_misses_constant; auto.
  - rewrite column_length, length_map_to_list, Hsize.
    apply index_Some in Pl as [_ Pl]. now rewrite (nth_lookup_Some _ _ _ _ Pl).
  - rewrite column_length, length_map_to_list, Hsize. unfold len in Lp. lia.
  - intros a Ha. apply list_elem_of_In, in_map_iff in Ha as ([y v] & <- & Hkv).
    apply list_elem_of_In, elem_of_map_to_list in Hkv. simpl.
    eapply lookup_weaken in Hkv; [|exact Hsub].
    destruct (shares_inv_lookup _ _ _ _ _ Hinv Hkv) as (Hy & _ & ->).
    split; [lia|]. unfold share_for.
    rewrite (nth_indep _ 0 (eval [] y))
      by (rewrite length_map; apply lookup_lt_Some in Hp; lia).
    rewrite (map_nth (fun p => eval p y)), eval_horner.
    f_equal. now apply nth_lookup_Some.
Qed.

Lemma Split_below_threshold_witness :
  exists out, Combine id_order (delete 1 (delete 2 demo_shares)) = Done out
              /\ Forall2 (fun c b => c <> b) out [42; 43].
Proof.
  apply (Split_below_threshold 10 3 2 [42; 43] demo_stream demo_shares
           (map Byte [200; 13; 0; 0; 5; 77; 1; 2; 3])).
  - unfold is_byte. lia.
  - unfold is_byte. lia.
  - unfold bytes. bytes_tac.
  - exact demo_stream_ok.
  - vm_compute. reflexivity.
  - etransitivity; apply delete_subseteq.
  - vm_compute. reflexivity.
Defined.

(** * [Split] and the random source *)

Lemma ReadFull_from_nil got n :
  ReadFull_from got (Datatypes.S n) [] =
  (inr match got with O => EOF | _ => ErrUnexpectedEOF end, []).
Proof. reflexivity. Qed.

Lemma generate_exhausted fuel degree x :
  1 <= degree <= 254 ->
  generate (Datatypes.S fuel) degree x [] = Done (Err (ErrRead EOF), []).
Proof.
  intros Hd. unfold generate.
  rewrite !to_byte_id by (unfold is_byte; lia).
  rewrite make_Some by lia. unfold bind at 1. unfold lift at 1. cbn [of_option].
  rewrite store_in_range by (unfold len; rewrite length_replicate; lia).
  unfold bind at 1. unfold lift at 1. cbn [of_option].
  unfold bind at 1. unfold read_full, ReadFull.
  destruct (Z.to_nat (degree - 1)) as [|c] eqn:E.
  - cbn [ReadFull_from]. assert (degree = 1) by lia. subst degree.
    unfold for_lt. change (Z.to_nat (1 - 1)) with O. cbn [iter_from].
    unfold bind at 1. unfold lift at 1.
    apply generate_lead_step.
  - rewrite ReadFull_from_nil. reflexivity.
Qed.

(** X13. On an exhausted random source [Split] stops at the first polynomial and
    returns the reader's [EOF] with a nil map (the retry loop of
    [generatePolys] has no counterpart in [generate]). *)
Theorem Split_exhausted_source fuel n k b secret :
  is_byte k -> 2 <= k <= n ->
  Split (Datatypes.S fuel) n k (b :: secret) [] = Done ((None, Some (ErrRead EOF)), []).
Proof.
  intros Hk Hkn. unfold Split, is_byte in *.
  destruct (Z.leb_spec k 1); [lia|]. destruct (Z.ltb_spec n k); [lia|].
  cbn [Split_loop]. unfold bind.
  rewrite to_byte_id by (unfold is_byte; lia).
  rewrite generate_exhausted by lia. reflexivity.
Qed.

Lemma Split_exhausted_source_witness :
  Split 1 5 3 [42; 43] [] = Done ((None, Some (ErrRead EOF)), []).
Proof.
  apply (Split_exhausted_source 0 5 3 42 [43]).
  - unfold is_byte. lia.
  - lia.
Defined.

(** A byte the rejection loop accepts. *)
Definition nonzero_byte (b : Z) : Prop := 0 < b < 256.

Lemma ReadFull_app bs rest :
  ReadFull (Z.of_nat (length bs)) (map Byte bs ++ rest) = (inl bs, rest).
Proof.
  unfold ReadFull. rewrite Nat2Z.id. generalize O.
  induction bs as [|b bs IH]; intros got; [reflexivity|].
  cbn [length map app ReadFull_from]. now rewrite IH.
Qed.

Lemma generate_nonzero fuel degree x cs rest :
  1 <= degree <= 254 -> Z.of_nat (length cs) = degree -> Forall nonzero_byte cs ->
  exists p, generate (Datatypes.S fuel) degree x (map Byte cs ++ rest) = Done (Ok p, rest).
Proof.
  intros Hd HL Hcs. unfold generate.
  rewrite !to_byte_id by (unfold is_byte; lia).
  rewrite make_Some by lia. unfold bind at 1. unfold lift at 1. cbn [of_option].
  rewrite store_in_range by (unfold len; rewrite length_replicate; lia).
  unfold bind at 1. unfold lift at 1. cbn [of_option].
  induction cs as [|c cs0 _] using rev_ind; [simpl in HL; lia|].
  rewrite length_app in HL. simpl in HL.
  apply Forall_app in Hcs as [_ Hc]. apply Forall_cons in Hc as [Hc _].
  rewrite map_app, <- app_assoc. cbn [map app].
  unfold bind at 1. unfold read_full.
  replace (degree - 1) with (Z.of_nat (length cs0)) by lia.
  rewrite ReadFull_app.
  set (r1 := <[Z.to_nat 0 := x]> (replicate (Z.to_nat (degree + 1)) 0)).
  assert (L1 : length r1 = Z.to_nat (degree + 1))
    by (unfold r1; rewrite length_insert, length_replicate; reflexivity).
  unfold for_lt.
  destruct (iter_from_store
              (fun i result =>
                 let* v := of_option (index cs0 (to_byte (i - 1))) in
                 of_option (store result i v))
              (fun i => nth (Z.to_nat (i - 1)) cs0 0)
              (Z.to_nat (degree - 1)) 1 r1) as (r3 & E3 & L3 & _).
  { lia. }
  { unfold len. lia. }
  { intros j t Hj Ht. rewrite to_byte_id by (unfold is_byte; lia).
    destruct (index_in_range cs0 (j - 1)) as [v Hv]; [unfold len; lia|].
    rewrite Hv. simpl. do 2 f_equal.
    apply index_Some in Hv as [_ Hv]. symmetry. now apply nth_lookup_Some. }
  rewrite E3. unfold bind at 1. unfold lift at 1.
  rewrite generate_lead_step. unfold nonzero_byte in Hc.
  destruct (Z.eqb_spec c 0); [lia|]. cbn [negb].
  rewrite store_in_range by (unfold len; lia). eauto.
Qed.

Lemma Split_loop_nonzero fuel n k : forall secret cs rest sh,
  2 <= k <= 255 -> 0 <= n < 255 -> (Z.to_nat n < Datatypes.S fuel)%nat ->
  length cs = (length secret * Z.to_nat (k - 1))%nat -> Forall nonzero_byte cs ->
  exists m, Split_loop (Datatypes.S fuel) n k secret sh (map Byte cs ++ rest)
            = Done ((Some m, None), rest).
Proof.
  induction secret as [|b secret IH]; intros cs rest sh Hk Hn Hf HL Hcs.
  - destruct cs; [|simpl in HL; lia]. exists sh. reflexivity.
  - cbn [Split_loop]. rewrite to_byte_id by (unfold is_byte; lia).
    rewrite <- (take_drop (Z.to_nat (k - 1)) cs), map_app, <- app_assoc.
    rewrite <- (take_drop (Z.to_nat (k - 1)) cs) in Hcs.
    apply Forall_app in Hcs as [Hc1 Hc2]. simpl in HL.
    assert (HT : length (take (Z.to_nat (k - 1)) cs) = Z.to_nat (k - 1)).
    { rewrite length_take. remember (length secret * Z.to_nat (k - 1))%nat as w. lia. }
    assert (HD : length (drop (Z.to_nat (k - 1)) cs)
                 = (length secret * Z.to_nat (k - 1))%nat).
    { rewrite length_drop. remember (length secret * Z.to_nat (k - 1))%nat as w. lia. }
    destruct (generate_nonzero fuel (k - 1) b (take (Z.to_nat (k - 1)) cs)
                (map Byte (drop (Z.to_nat (k - 1)) cs) ++ rest)) as [p Hp];
      [lia|lia|exact Hc1|].
    unfold bind at 1. rewrite Hp.
    rewrite for_byte_le_count by lia.
    rewrite (iter_from_pure _ (append_pure p)) by reflexivity.
    unfold bind at 1. unfold lift at 1.
    apply IH; auto.
Qed.

(** X14. [Split] returns a share map, having read exactly [(k-1) * len(S)] bytes,
    whenever [n <= 254] and the random source delivers that many nonzero
    bytes (a zero byte in the place of a leading coefficient costs one more
    read). *)
Theorem Split_returns fuel n k secret cs rest :
  is_byte k -> 2 <= k <= n -> n < 255 -> (Z.to_nat n < fuel)%nat ->
  length cs = (length secret * Z.to_nat (k - 1))%nat -> Forall nonzero_byte cs ->
  exists m, Split fuel n k secret (map Byte cs ++ rest) = Done ((Some m, None), rest).
Proof.
  intros Hk Hkn Hn Hf HL Hcs. unfold Split, is_byte in *.
  destruct (Z.leb_spec k 1); [lia|]. destruct (Z.ltb_spec n k); [lia|].
  destruct fuel as [|fuel]; [lia|].
  apply Split_loop_nonzero; auto; lia.
Qed.

Lemma Split_returns_witness :
  exists m, Split 10 3 2 [42; 43] (map Byte [7; 9] ++ map Byte [200; 13])
            = Done ((Some m, None), map Byte [200; 13]).
Proof.
  apply Split_returns.
  - unfold is_byte. lia.
  - lia.
  - lia.
  - lia.
  - reflexivity.
  - repeat (constructor; [unfold nonzero_byte; lia|]). constructor.
Defined.

(** ** [Split] returns *)

Lemma generate_lead_returns degree result : forall ran fuel,
  (length ran < fuel)%nat -> 0 <= degree < len result ->
  (exists p ran', generate_lead fuel degree result ran = Done (Ok p, ran')
                  /\ (length ran' <= length ran)%nat)
  \/ (exists io ran', generate_lead fuel degree result ran = Done (Err (ErrRead io), ran')).
Proof.
  induction ran as [|[b|io] ran IH]; intros fuel Hf Hd;
    (destruct fuel as [|fuel]; [simpl in Hf; lia|]); rewrite generate_lead_step.
  - right. eauto.
  - destruct (negb (b =? 0)).
    + rewrite store_in_range by exact Hd. left. eexists _, _.
      split; [reflexivity|]. simpl. lia.
    + destruct (IH fuel) as [(p & ran' & E & L)|(io & ran' & E)];
        [simpl in Hf; lia|exact Hd| |].
      * left. exists p, ran'. split; [exact E|]. simpl. lia.
      * right. eauto.
  - right. eauto.
Qed.

Lemma generate_unfold fuel degree x ran :
  1 <= degree <= 254 ->
  generate fuel degree x ran =
  match ReadFull (degree - 1) ran with
  | (inr e, ran1) => Done (Err (ErrRead e), ran1)
  | (inl buf, ran1) =>
      match for_lt 1 degree
              (fun i result =>
                 let* v := of_option (index buf (to_byte (i - 1))) in
                 of_option (store result i v))
              (<[Z.to_nat 0 := x]> (replicate (Z.to_nat (degree + 1)) 0)) with
      | Done r3 => generate_lead fuel degree r3 ran1
      | Panic => Panic
      | Spin => Spin
      end
  end.
Proof.
  intros Hd. unfold generate.
  rewrite !to_byte_id by (unfold is_byte; lia).
  rewrite make_Some by lia. unfold bind, lift, read_full, ret. cbn [of_option].
  rewrite store_in_range by (unfold len; rewrite length_replicate; lia).
  cbn [of_option].
  destruct (ReadFull (degree - 1) ran) as [[buf|e] ran1]; [|reflexivity].
  destruct (for_lt 1 degree _ _); reflexivity.
Qed.

Lemma generate_returns fuel degree x ran :
  1 <= degree <= 254 -> (length ran < fuel)%nat ->
  (exists p ran', generate fuel degree x ran = Done (Ok p, ran')
                  /\ (length ran' <= length ran)%nat)
  \/ (exists io ran', generate fuel degree x ran = Done (Err (ErrRead io), ran')).
Proof.
  intros Hd Hf. rewrite generate_unfold by exact Hd.
  destruct (ReadFull (degree - 1) ran) as [[buf|io] ran1] eqn:E; [|right; eauto].
  apply ReadFull_inl in E as [-> Lbuf].
  set (r1 := <[Z.to_nat 0 := x]> (replicate (Z.to_nat (degree + 1)) 0)).
  assert (L1 : length r1 = Z.to_nat (degree + 1))
    by (unfold r1; rewrite length_insert, length_replicate; reflexivity).
  unfold for_lt.
  destruct (iter_from_store
              (fun i result =>
                 let* v := of_option (index buf (to_byte (i - 1))) in
                 of_option (store result i v))
              (fun i => nth (Z.to_nat (i - 1)) buf 0)
              (Z.to_nat (degree - 1)) 1 r1) as (r3 & E3 & L3 & _).
  { lia. }
  { unfold len. lia. }
  { intros j t Hj Ht. rewrite to_byte_id by (unfold is_byte; lia).
    destruct (index_in_range buf (j - 1)) as [v Hv]; [unfold len; lia|].
    rewrite Hv. simpl. do 2 f_equal.
    apply index_Some in Hv as [_ Hv]. symmetry. now apply nth_lookup_Some. }
  rewrite E3. rewrite length_app, length_map in Hf.
  destruct (generate_lead_returns degree r3 ran1 fuel)
    as [(p & ran' & G & L)|(io & ran' & G)]; [lia|unfold len; lia| |].
  - left. exists p, ran'. split; [exact G|]. rewrite length_app. lia.
  - right. eauto.
Qed.

Lemma Split_loop_returns fuel n k : forall secret ran sh,
  2 <= k <= 255 -> 0 <= n < 255 -> (Z.to_nat n < fuel)%nat ->
  (length ran < fuel)%nat ->
  (exists m ran', Split_loop fuel n k secret sh ran = Done ((Some m, None), ran'))
  \/ (exists io ran',
        Split_loop fuel n k secret sh ran = Done ((None, Some (ErrRead io)), ran')).
Proof.
  induction secret as [|b secret IH]; intros ran sh Hk Hn Hfn Hf.
  - left. exists sh, ran. reflexivity.
  - cbn [Split_loop]. rewrite to_byte_id by (unfold is_byte; lia).
    destruct (generate_returns fuel (k - 1) b ran)
      as [(p & ran1 & G & L)|(io & ran1 & G)]; [lia|exact Hf| |];
      unfold bind at 1 3; rewrite G.
    + rewrite for_byte_le_count by lia.
      rewrite (iter_from_pure _ (append_pure p)) by reflexivity.
      unfold bind, lift. apply IH; auto. lia.
    + right. eexists _, _. reflexivity.
Qed.

(** X18. For [n <= 254], [Split] returns: given fuel for its loops (more
    iterations than [n] and than the random source has events), the outcome
    is a share map or the read error of the source, never a panic. *)
Theorem Split_terminates fuel n k secret ran :
  is_byte k -> 2 <= k <= n -> n < 255 ->
  (Z.to_nat n < fuel)%nat -> (length ran < fuel)%nat ->
  (exists m ran', Split fuel n k secret ran = Done ((Some m, None), ran'))
  \/ (exists io ran',
        Split fuel n k secret ran = Done ((None, Some (ErrRead io)), ran')).
Proof.
  intros Hk Hkn Hn Hfn Hf. unfold Split, is_byte in *.
  destruct (Z.leb_spec k 1); [lia|]. destruct (Z.ltb_spec n k); [lia|].
  apply Split_loop_returns; auto; lia.
Qed.

Lemma Split_terminates_witness :
  (exists m ran', Split 20 3 2 [42; 43] demo_stream = Done ((Some m, None), ran'))
  \/ (exists io ran',
        Split 20 3 2 [42; 43] demo_stream = Done ((None, Some (ErrRead io)), ran')).
Proof.
  apply Split_terminates.
  - unfold is_byte. lia.
  - lia.
  - lia.
  - lia.
  - vm_compute. lia.
Defined.

(** * The coefficients [generatePolys] draws *)

Lemma index_insert_eq {A} (l : list A) j v :
  0 <= j < len l -> index (<[Z.to_nat j := v]> l) j = Some v.
Proof.
  intros Hj. unfold index, len in *. destruct (Z.ltb_spec j 0); [lia|].
  apply list_lookup_insert_eq. lia.
Qed.

Lemma index_insert_ne {A} (l : list A) i j v :
  0 <= i -> 0 <= j -> i <> j -> index (<[Z.to_nat i := v]> l) j = index l j.
Proof.
  intros Hi Hj Hne. unfold index. destruct (Z.ltb_spec j 0); [reflexivity|].
  apply list_lookup_insert_ne. lia.
Qed.

(** The batch slot that [generatePolys] copies into coefficient [j] of row
    [i]: the index [byte(i)*degree+j-1] is computed in byte arithmetic. *)
Definition batch_slot (degree : Z) (i : nat) (j : Z) : Z :=
  to_byte (Z.of_nat i * degree + j - 1).

Lemma generatePolys_fill fuel degree (x buf : list Z) r1 r3 :
  1 <= degree <= 254 -> len x <= 255 ->
  for_lt 0 (len x)
    (fun i results =>
       for_byte_le fuel 1 degree
         (fun j results =>
            let* v := of_option (index buf (to_byte (to_byte i * degree + j - 1))) in
            let* row := of_option (index results i) in
            let* row' := of_option (store row j v) in
            of_option (store results i row')) results) r1 = Done r3 ->
  forall (u : nat) row j, r3 !! u = Some row -> Z.of_nat u < len x ->
    1 <= j <= degree -> index row j = index buf (batch_slot degree u j).
Proof.
  intros Hd Hlen H.
  assert (Hlx : 0 <= len x) by (unfold len; lia).
  revert H.
  apply (for_lt_hoare
           (fun i t => forall (u : nat) row j, t !! u = Some row -> Z.of_nat u < i ->
                         1 <= j <= degree ->
                         index row j = index buf (batch_slot degree u j)));
    [exact Hlx| |intros; lia].
  intros i t t' Hi Ht Hb.
  apply (for_byte_le_hoare
           (fun j0 s =>
              (forall (u : nat) row j, s !! u = Some row -> Z.of_nat u < i ->
                 1 <= j <= degree -> index row j = index buf (batch_slot degree u j))
              /\ (forall row j, s !! Z.to_nat i = Some row -> 1 <= j < j0 ->
                    index row j = index buf (batch_slot degree (Z.to_nat i) j))))
    in Hb as [[Hlow Hcur] _]; [|unfold is_byte; lia| |].
  - intros u row j Hrow Hu Hj. destruct (decide (u = Z.to_nat i)) as [->|Hne].
    + apply Hcur; [exact Hrow|lia].
    + apply Hlow; [exact Hrow|lia|exact Hj].
  - intros j0 s s' Hj0 [Hlow Hcur] Hs.
    rewrite (to_byte_id i) in Hs by (unfold is_byte; lia).
    apply exec_bind_Done in Hs as (v & Hv & Hs). apply of_option_Done in Hv.
    apply exec_bind_Done in Hs as (row & Hrow & Hs).
    apply of_option_Done, index_Some in Hrow as [_ Hrow].
    apply exec_bind_Done in Hs as (row' & Hrow' & Hs).
    apply of_option_Done, store_Some in Hrow' as [Hjr ->].
    apply of_option_Done, store_Some in Hs as [Hir ->]. split.
    + intros u r j Hr Hu Hj. rewrite list_lookup_insert_ne in Hr by lia.
      now apply Hlow.
    + intros r j Hr Hj. rewrite list_lookup_insert_eq in Hr by (unfold len in Hir; lia).
      inversion Hr; subst r; clear Hr.
      destruct (Z.eq_dec j j0) as [->|Hne].
      * rewrite index_insert_eq by exact Hjr. unfold batch_slot.
        rewrite Z2Nat.id by lia. symmetry. exact Hv.
      * rewrite index_insert_ne by lia. apply Hcur; [exact Hrow|lia].
  - split; [exact Ht|]. intros row j _ Hj. lia.
Qed.

(** X15. The coefficients below the leading one are copied from the batch read
    through a byte-typed index: coefficient [j] of row [i] is byte
    [(i*degree + j - 1) mod 256] of the batch, so only the first 256 bytes
    of the batch are ever used, and two rows whose [i*degree] agree modulo
    256 get the same coefficients below the leading one. *)
Theorem generatePolys_coefficients fuel degree x ran polys ran' :
  1 <= degree <= 254 -> len x <= 255 -> bytes x -> reader_ok ran ->
  generatePolys fuel degree x ran = Done (Ok polys, ran') ->
  exists buf rest,
    ran = map Byte buf ++ rest /\ len buf = degree * len x /\
    (forall (i : nat) row j, polys !! i = Some row -> 1 <= j < degree ->
       index row j = index buf (batch_slot degree i j)) /\
    (forall (i i' : nat) row row' j,
       polys !! i = Some row -> polys !! i' = Some row' -> 1 <= j < degree ->
       to_byte (Z.of_nat i * degree) = to_byte (Z.of_nat i' * degree) ->
       index row j = index row' j).
Proof.
  intros Hd Hlen Hx Hok H.
  destruct (generatePolys_Ok _ _ _ _ _ _ H Hd Hx Hlen Hok) as [HF _].
  pose proof (Forall2_length _ _ _ HF) as HL.
  unfold generatePolys in H.
  assert (Hlx : 0 <= len x) by (unfold len; lia).
  apply bind_Done in H as (r0 & ran0 & H0 & H). apply lift_Done in H0 as [_ ->].
  apply bind_Done in H as (r1 & ran1 & H1 & H). apply lift_Done in H1 as [_ ->].
  apply bind_Done in H as (rd & ran2 & H2 & H). apply read_full_Done in H2.
  pose proof (ReadFull_ok _ _ _ _ H2 Hok) as Hok2.
  destruct rd as [buf|e]; [|apply ret_Done in H as [H _]; discriminate].
  apply ReadFull_inl in H2 as [-> Lbuf].
  apply bind_Done in H as (r3 & ran3 & H3 & H). apply lift_Done in H3 as [H3 ->].
  pose proof (generatePolys_fill _ _ _ _ _ _ Hd Hlen H3) as Hfill.
  destruct (generatePolys_lead_Ok _ _ _ _ _ _ _ _ H ltac:(lia) Hok2) as (_ & _ & Hu).
  assert (Hvals : forall (i : nat) row j, polys !! i = Some row -> 1 <= j < degree ->
                    index row j = index buf (batch_slot degree i j)).
  { intros i row j Hrow Hj. pose proof (lookup_lt_Some _ _ _ Hrow) as Hi.
    destruct (Hu i) as [[Hout _]|[Hin (r & c & Hr & _ & _ & Hdr & E)]];
      [unfold len in Hout; lia|].
    rewrite Hrow in E. inversion E; subst row; clear E.
    rewrite index_insert_ne by lia. apply Hfill; [exact Hr|lia|lia]. }
  exists buf, ran2. split; [reflexivity|]. split.
  { unfold len in *. rewrite Lbuf. apply Z2Nat.id. nia. }
  split; [exact Hvals|].
  intros i i' row row' j Hrow Hrow' Hj E.
  rewrite (Hvals i row j Hrow Hj), (Hvals i' row' j Hrow' Hj).
  f_equal. unfold batch_slot, to_byte in *.
  rewrite <- !Z.add_sub_assoc, Zplus_mod, E, <- Zplus_mod. reflexivity.
Qed.

(** A run on a 129-byte secret with [degree = 2]: rows 0 and 128 share the
    middle coefficient. *)
Definition alias_stream : reader :=
  map (fun t => Byte (1 + t mod 255)) (seqZ 0 400).

Definition alias_polys : list (list Z) :=
  Eval vm_compute in
    match generatePolys 400 2 (replicate 129 0) alias_stream with
    | Done (Ok polys, _) => polys
    | _ => []
    end.

Definition alias_rest : reader :=
  Eval vm_compute in
    match generatePolys 400 2 (replicate 129 0) alias_stream with
    | Done (_, rest) => rest
    | _ => []
    end.

Lemma generatePolys_coefficients_witness :
  exists buf rest,
    alias_stream = map Byte buf ++ rest /\ len buf = 2 * len (replicate 129 0) /\
    (forall (i : nat) row j, alias_polys !! i = Some row -> 1 <= j < 2 ->
       index row j = index buf (batch_slot 2 i j)) /\
    (forall (i i' : nat) row row' j,
       alias_polys !! i = Some row -> alias_polys !! i' = Some row' -> 1 <= j < 2 ->
       to_byte (Z.of_nat i * 2) = to_byte (Z.of_nat i' * 2) ->
       index row j = index row' j).
Proof.
  apply (generatePolys_coefficients 400 2 (replicate 129 0) alias_stream
           alias_polys alias_rest).
  - lia.
  - vm_compute. discriminate.
  - apply Forall_replicate. unfold is_byte. lia.
  - unfold reader_ok, alias_stream. apply Forall_forall. intros ev Hev.
    apply list_elem_of_fmap in Hev as (t & -> & Ht). simpl.
    unfold is_byte. pose proof (Z.mod_pos_bound t 255). lia.
  - vm_compute. reflexivity.
Defined.

(** Rows 0 and 128 of that run. *)
Example alias_rows :
  alias_polys !! 0%nat = Some [0; 1; 4] /\ alias_polys !! 128%nat = Some [0; 1; 132].
Proof. split; vm_compute; reflexivity. Qed.
